(** * FKZ: the plugin registry, the dispatch engine and the process monitor

    A shallow embedding of [src/lib/PluginLoader.ts] (together with the
    message shape of [src/lib/serialize.ts] that it consumes) and of
    [src/monitor.ts], and the properties of the design document that
    concern them.

    Conventions of the embedding:
    - a JavaScript object that the code compares by reference (a command
      handler, a plugin instance, a child process, a timer) carries a
      numeric identity;
    - a promise that settles is a [completion]: it either resolves with a
      value or rejects with an error;
    - [Logger] writes to a console that is kept as a list of lines, oldest
      first;
    - functions of the Node runtime that the code calls ([toLowerCase], the
      [path] module) are the fields of the class [NodeLib]; the development
      is generic in them, and [posixLib] is an instance to compute with. *)

From Stdlib Require Import ZArith Lia Ascii.
From stdpp Require Import base option list strings gmap fin_maps pretty.

(** ** JavaScript values *)

Module Js.

(** The outcome of awaiting a promise, or of a call that may throw. *)
Inductive completion (A : Type) : Type :=
| Resolved (value : A)
| Rejected (error : string).
Arguments Resolved {A} value.
Arguments Rejected {A} error.

(** [s.startsWith(p)] *)
Definition startsWith (s p : string) : bool := Strings.String.prefix p s.

(** [s.endsWith(p)] *)
Definition endsWith (s p : string) : bool :=
  let n := Strings.String.length s in
  let k := Strings.String.length p in
  if k <=? n then Strings.String.eqb (Strings.String.substring (n - k) k s) p
  else false.

(** [s.includes(p)] *)
Fixpoint includes (s p : string) : bool :=
  if Strings.String.prefix p s then true
  else match s with
       | EmptyString => false
       | String _ s' => includes s' p
       end.

(** The part of [s] before the first occurrence of the one-character
    separator [sep], that is [s.split(sep)[0]]. *)
Fixpoint split_head (sep : ascii) (s : string) : string :=
  match s with
  | EmptyString => EmptyString
  | String c s' =>
      if Ascii.eqb c sep then EmptyString else String c (split_head sep s')
  end.

(** [s.split(sep)] for a one-character separator. *)
Fixpoint split (sep : ascii) (s : string) : list string :=
  match s with
  | EmptyString => [EmptyString]
  | String c s' =>
      if Ascii.eqb c sep then EmptyString :: split sep s'
      else match split sep s' with
           | [] => [String c EmptyString]
           | w :: ws => String c w :: ws
           end
  end.

(** Lower-casing of one ASCII letter. *)
Definition ascii_lower (c : ascii) : ascii :=
  let n := nat_of_ascii c in
  if (65 <=? n) && (n <=? 90) then ascii_of_nat (n + 32) else c.

Fixpoint ascii_toLowerCase (s : string) : string :=
  match s with
  | EmptyString => EmptyString
  | String c s' => String (ascii_lower c) (ascii_toLowerCase s')
  end.

End Js.

Export Js.

(** ** The Node runtime *)

(** What the code takes from the runtime: [String.prototype.toLowerCase]
    and the functions of the [path] module. *)
Class NodeLib := {
  toLowerCase : string → string;
  path_sep : ascii;
  path_join : string → string → string;
  path_normalize : string → string;
  path_relative : string → string → string;
  path_dirname : string → string;
  path_basename : string → string;
}.

(** ** Logger *)

Inductive LogLevel := INFO | SUCCESS | WARN | ERROR.

Record LogLine := { level : LogLevel; text : string }.

(** ** [src/lib/PluginLoader.ts] *)

Module PluginLoader.

(** *** [serialize.ts]: the message handed to the dispatch engine *)

Record SerializedMessage := {
  msg_text : string;
  (** [message.command]; [None] is [undefined] *)
  msg_command : option string;
  (** [message.args] *)
  msg_args : option (list string);
  (** how [reply(text)] settles *)
  msg_reply : string → completion unit;
}.

(** *** Interfaces *)

(** [interface CommandHandler].  [hid] is the identity of the object;
    [description] and [category] play no part in registration, lookup or
    removal and are left out. *)
Record CommandHandler := {
  hid : nat;
  ch_commands : list string;
  ch_handler : SerializedMessage → list string → completion unit;
}.

(** [interface Plugin].  [pid] is the identity of the instance.  An absent
    optional member is [None]; [init] takes no argument, so it is given by
    the way its promise settles. *)
Record Plugin := {
  pid : nat;
  info_name : string;
  p_category : option string;
  p_init : option (completion unit);
  p_commands : option (list CommandHandler);
  p_handleMessage : option (SerializedMessage → completion bool);
}.

(** [interface PluginMetadata] *)
Record PluginMetadata := {
  filePath : string;
  category : option string;
  loaded : bool;
  plugin : option Plugin;
}.

(** The private fields of [class PluginLoader] ([registry] is
    [this.commands]), and the console. *)
Record t := {
  pluginsDir : string;
  registry : gmap string CommandHandler;
  pluginMetadata : list PluginMetadata;
  loadedPlugins : list Plugin;
  console : list LogLine;
}.

Definition create (dir : string) : t :=
  {| pluginsDir := dir; registry := ∅; pluginMetadata := [];
     loadedPlugins := []; console := [] |}.

Definition set_registry
    (f : gmap string CommandHandler → gmap string CommandHandler) (s : t) : t :=
  {| pluginsDir := pluginsDir s; registry := f (registry s);
     pluginMetadata := pluginMetadata s; loadedPlugins := loadedPlugins s;
     console := console s |}.

Definition set_pluginMetadata
    (f : list PluginMetadata → list PluginMetadata) (s : t) : t :=
  {| pluginsDir := pluginsDir s; registry := registry s;
     pluginMetadata := f (pluginMetadata s); loadedPlugins := loadedPlugins s;
     console := console s |}.

Definition set_loadedPlugins (f : list Plugin → list Plugin) (s : t) : t :=
  {| pluginsDir := pluginsDir s; registry := registry s;
     pluginMetadata := pluginMetadata s; loadedPlugins := f (loadedPlugins s);
     console := console s |}.

Definition log_line (line : LogLine) (s : t) : t :=
  {| pluginsDir := pluginsDir s; registry := registry s;
     pluginMetadata := pluginMetadata s; loadedPlugins := loadedPlugins s;
     console := console s ++ [line] |}.

Definition log (lv : LogLevel) (msg : string) : t → t :=
  log_line {| level := lv; text := msg |}.

(** [Logger.warn(`Command conflict: ${normalizedCmd} already exists`)] *)
Definition conflict_warning (normalizedCmd : string) : LogLine :=
  {| level := WARN;
     text := "Command conflict: " +:+ normalizedCmd +:+ " already exists" |}.

(** *** The world outside the loader *)

(** An entry of [fs.readdirSync(dir, { withFileTypes: true })].  A
    directory carries the outcome of listing it in turn; [Other] is an
    entry that is neither a file nor a directory. *)
#[warnings="-register-all"]
Inductive Dirent :=
| File (name : string)
| Directory (name : string) (items : completion (list Dirent))
| Other (name : string).

(** One run of a plugin factory [pluginExport(context)]: the handlers it
    passes to [context.registerCommand], in order, and what it returns or
    throws. *)
Record FactoryRun := {
  registered : list CommandHandler;
  produced : completion Plugin;
}.

(** The default export of a plugin module. *)
Inductive PluginExport :=
| ExportObject (p : Plugin)
| ExportFactory (run : FactoryRun)
| ExportUndefined.

(** The file system and the module system at the time of a call:
    [import_module] is a fresh evaluation of the module at that path. *)
Record World := {
  existsSync : string → bool;
  require_resolve : string → completion string;
  import_module : string → completion PluginExport;
}.

(** What a dispatch does, in order: the calls of command handlers, of
    generic hooks, of [Logger] and of [message.reply]. *)
Inductive Effect :=
| CommandCalled (h : nat) (args : list string)
| HookCalled (p : nat)
| Logged (lv : LogLevel) (msg : string)
| ReplySent (msg : string).

Section WithNode.
Context {node : NodeLib}.

(** *** [discoverDirectory] (lines 103-131) *)

Definition is_module_file (name : string) : bool :=
  endsWith name ".ts" || endsWith name ".js".

Definition push_metadata (fullPath : string) (cat : option string) (s : t) : t :=
  set_pluginMetadata
    (fun l => l ++ [ {| filePath := fullPath; category := cat;
                        loaded := false; plugin := None |} ]) s.

(** The body of the loop of [discoverDirectory(dirPath, category)] for one
    [item]; a subdirectory recurses with its own listing. *)
Fixpoint discoverItem (dirPath : string) (cat : option string) (item : Dirent)
    (s : t) {struct item} : t :=
  match item with
  | Directory name listing =>
      let fullPath := path_join dirPath name in
      match listing with
      | Rejected e =>
          log ERROR ("Error discovering plugins in " +:+ fullPath +:+ ": " +:+ e) s
      | Resolved items =>
          (fix loop (items : list Dirent) (s : t) : t :=
             match items with
             | [] => s
             | item' :: rest => loop rest (discoverItem fullPath (Some name) item' s)
             end) items s
      end
  | File name =>
      let fullPath := path_join dirPath name in
      if is_module_file name then push_metadata fullPath cat s else s
  | Other _ => s
  end.

Definition discoverDirectory (dirPath : string) (cat : option string)
    (listing : completion (list Dirent)) (s : t) : t :=
  match listing with
  | Rejected e =>
      log ERROR ("Error discovering plugins in " +:+ dirPath +:+ ": " +:+ e) s
  | Resolved items => foldl (fun s item => discoverItem dirPath cat item s) s items
  end.

(** [discoverPlugins] (lines 69-79); [root] is [None] when the plugins
    directory does not exist. *)
Definition discoverPlugins (root : option (completion (list Dirent))) (s : t) : t :=
  match root with
  | None => log INFO ("Created plugins directory at " +:+ pluginsDir s) s
  | Some listing =>
      let s' := discoverDirectory (pluginsDir s) None listing s in
      log INFO ("Discovered " +:+ pretty (length (pluginMetadata s')) +:+ " plugins") s'
  end.

(** *** [registerCommands] (lines 182-193) *)

(** The body of the inner loop, for one [command] of [handler]. *)
Definition registerToken (handler : CommandHandler) (s : t)
    (command : string) : t :=
  let normalizedCmd := toLowerCase command in
  match registry s !! normalizedCmd with
  | Some _ => log_line (conflict_warning normalizedCmd) s
  | None => set_registry <[normalizedCmd := handler]> s
  end.

Definition registerCommands (handlers : list CommandHandler) (s : t) : t :=
  foldl (fun s handler => foldl (registerToken handler) s (ch_commands handler))
        s handlers.

(** [context.registerCommand] (lines 143-144) *)
Definition registerCommand (handler : CommandHandler) (s : t) : t :=
  registerCommands [handler] s.

(** Whether one of the tokens [cs], once normalized, is [k]. *)
Definition declares (k : string) (cs : list string) : bool :=
  bool_decide (k ∈ toLowerCase <$> cs).

(** The first handler of a sequence of registrations that declares the
    normalized token [k]. *)
Definition first_registrant (k : string) (hs : list CommandHandler)
    : option CommandHandler :=
  find (fun h => declares k (ch_commands h)) hs.

(** *** [loadPlugin] (lines 136-177) *)

Definition load_error (metadata : PluginMetadata) (e : string) (s : t) : t :=
  log ERROR ("Error loading plugin " +:+ filePath metadata +:+ ": " +:+ e) s.

Definition with_category (cat : option string) (p : Plugin) : Plugin :=
  {| pid := pid p; info_name := info_name p; p_category := cat;
     p_init := p_init p; p_commands := p_commands p;
     p_handleMessage := p_handleMessage p |}.

Definition mark_loaded (p : Plugin) (m : PluginMetadata) : PluginMetadata :=
  {| filePath := filePath m; category := category m;
     loaded := true; plugin := Some p |}.

Definition mark_unloaded (m : PluginMetadata) : PluginMetadata :=
  {| filePath := filePath m; category := category m;
     loaded := false; plugin := None |}.

(** Lines 137-156: up to the point where [plugin.init()] is awaited.  The
    result is the instance whose load goes on, or [None] when the call has
    returned (already loaded) or an error was caught. *)
Definition loadPlugin_begin (w : World) (i : nat) (s : t) : t * option Plugin :=
  match pluginMetadata s !! i with
  | None => (s, None)
  | Some metadata =>
      if loaded metadata then (s, None)
      else
        match import_module w (filePath metadata) with
        | Rejected e => (load_error metadata e s, None)
        | Resolved (ExportFactory run) =>
            let s1 := foldl (fun s handler => registerCommand handler s)
                            s (registered run) in
            match produced run with
            | Rejected e => (load_error metadata e s1, None)
            | Resolved p => (s1, Some (with_category (category metadata) p))
            end
        | Resolved (ExportObject p) =>
            (s, Some (with_category (category metadata) p))
        | Resolved ExportUndefined =>
            (load_error metadata "TypeError: Cannot set properties of undefined" s,
             None)
        end
  end.

(** Lines 158-176: from the settling of [plugin.init()] on. *)
Definition loadPlugin_finish (i : nat) (p : Plugin) (s : t) : t :=
  match pluginMetadata s !! i with
  | None => s
  | Some metadata =>
      match p_init p with
      | Some (Rejected e) => load_error metadata e s
      | _ =>
          let s1 := match p_commands p with
                    | Some cmds => registerCommands cmds s
                    | None => s
                    end in
          let s2 := set_pluginMetadata (alter (mark_loaded p) i) s1 in
          let s3 := set_loadedPlugins (fun l => l ++ [p]) s2 in
          let tag := match category metadata with
                     | Some c => if decide (c = "") then "" else "[" +:+ c +:+ "] "
                     | None => ""
                     end in
          log SUCCESS ("Loaded " +:+ tag +:+ "plugin: " +:+ info_name p) s3
      end
  end.

(** [loadPlugin(this.pluginMetadata[i])] *)
Definition loadPlugin (w : World) (i : nat) (s : t) : t :=
  match loadPlugin_begin w i s with
  | (s1, Some p) => loadPlugin_finish i p s1
  | (s1, None) => s1
  end.

(** *** Reading a load *)

(** The instance that the module yields, when its evaluation and its
    factory succeed. *)
Definition exported_instance (x : completion PluginExport) : option Plugin :=
  match x with
  | Resolved (ExportObject p) => Some p
  | Resolved (ExportFactory run) =>
      match produced run with
      | Resolved p => Some p
      | Rejected _ => None
      end
  | _ => None
  end.

(** The handlers that the factory registers through
    [context.registerCommand] while it runs. *)
Definition imperative_commands (x : completion PluginExport)
    : list CommandHandler :=
  match x with
  | Resolved (ExportFactory run) => registered run
  | _ => []
  end.

(** *** [handleMessage] (lines 198-232) *)

Definition failure_notice : string :=
  "❌ An error occurred while processing your command.".

(** Lines 207-216: the handler is called; if it rejects, the error is
    logged and the reply is awaited, and the dispatch settles as the reply
    does. *)
Definition run_command (command : string) (handler : CommandHandler)
    (message : SerializedMessage) : list Effect * completion unit :=
  let args := default [] (msg_args message) in
  match ch_handler handler message args with
  | Resolved _ => ([CommandCalled (hid handler) args], Resolved ())
  | Rejected e =>
      ([CommandCalled (hid handler) args;
        Logged ERROR ("Error handling command " +:+ command +:+ ": " +:+ e);
        ReplySent failure_notice],
       msg_reply message failure_notice)
  end.

(** Lines 221-231: the loop over [this.loadedPlugins]. *)
Fixpoint fallback (plugins : list Plugin) (message : SerializedMessage)
    : list Effect :=
  match plugins with
  | [] => []
  | p :: rest =>
      match p_handleMessage p with
      | None => fallback rest message
      | Some hook =>
          match hook message with
          | Resolved true => [HookCalled (pid p)]
          | Resolved false => HookCalled (pid p) :: fallback rest message
          | Rejected e =>
              HookCalled (pid p)
              :: Logged ERROR ("Error in plugin message handler: " +:+ e)
              :: fallback rest message
          end
      end
  end.

(** [if (command)] holds for a string that is not empty. *)
Definition handleMessage (s : t) (message : SerializedMessage)
    : list Effect * completion unit :=
  let generic := (fallback (loadedPlugins s) message, Resolved ()) in
  match msg_command message with
  | None => generic
  | Some command =>
      if decide (command = "") then generic
      else
        match registry s !! toLowerCase command with
        | Some handler => run_command command handler message
        | None => generic
        end
  end.

(** *** Reading a dispatch *)

(** What the generic hook of [p] answers to [message], if [p] has one. *)
Definition hook_result (message : SerializedMessage) (p : Plugin)
    : option (completion bool) :=
  (fun hook => hook message) <$> p_handleMessage p.

Definition has_hook (p : Plugin) : Prop := is_Some (p_handleMessage p).

(** The hook of [p] reports that it handled [message]. *)
Definition claims (message : SerializedMessage) (p : Plugin) : Prop :=
  ∃ hook, p_handleMessage p = Some hook ∧ hook message = Resolved true.

(** The hook of [p] throws on [message]. *)
Definition throws (message : SerializedMessage) (p : Plugin) : bool :=
  match hook_result message p with
  | Some (Rejected _) => true
  | _ => false
  end.

(** The plugins whose hook a dispatch called, in order. *)
Definition hook_calls (effects : list Effect) : list nat :=
  omap (fun e => match e with HookCalled p => Some p | _ => None end) effects.

(** The command handlers a dispatch called, in order. *)
Definition command_calls (effects : list Effect) : list nat :=
  omap (fun e => match e with CommandCalled h _ => Some h | _ => None end) effects.

(** The errors a dispatch logged. *)
Definition error_logs (effects : list Effect) : list string :=
  omap (fun e => match e with Logged ERROR msg => Some msg | _ => None end) effects.

(** *** [unloadPlugins], [unloadPlugin] (lines 244-294) *)

Definition unloadPlugins (s : t) : t :=
  log INFO "All plugins unloaded"
    (set_pluginMetadata (fmap mark_unloaded)
       (set_loadedPlugins (fun _ => []) (set_registry (fun _ => ∅) s))).

(** [this.pluginMetadata.findIndex(meta => path.normalize(meta.filePath) === normalizedPath)] *)
Definition find_metadata (normalizedPath : string) (s : t)
    : option (nat * PluginMetadata) :=
  list_find (fun meta => path_normalize (filePath meta) = normalizedPath)
            (pluginMetadata s).

(** Lines 274-280: every declared command is deleted from the map. *)
Definition delete_commands (handlers : list CommandHandler) (s : t) : t :=
  foldl (fun s handler =>
           foldl (fun s command => set_registry (delete (toLowerCase command)) s)
                 s (ch_commands handler))
        s handlers.

(** Lines 283-286: [findIndex(p => p === plugin)] and [splice]. *)
Definition remove_loaded (p : Plugin) (l : list Plugin) : list Plugin :=
  match list_find (fun p' => pid p' = pid p) l with
  | Some (pluginIndex, _) => delete pluginIndex l
  | None => l
  end.

Definition unloadPlugin (path : string) (s : t) : t * bool :=
  let normalizedPath := path_normalize path in
  match find_metadata normalizedPath s with
  | None => (s, false)
  | Some (metaIndex, metadata) =>
      if negb (loaded metadata) then (s, false)
      else
        match plugin metadata with
        | None => (s, false)
        | Some p =>
            let s1 := match p_commands p with
                      | Some handlers => delete_commands handlers s
                      | None => s
                      end in
            let s2 := set_loadedPlugins (remove_loaded p) s1 in
            let s3 := set_pluginMetadata (alter mark_unloaded metaIndex) s2 in
            (log INFO ("Unloaded plugin: " +:+ normalizedPath) s3, true)
        end
  end.

(** *** [reloadPlugin] (lines 300-341) *)

Definition reloadPlugin (w : World) (path : string) (s : t)
    : t * completion bool :=
  let normalizedPath := path_normalize path in
  match find_metadata normalizedPath s with
  | None =>
      if negb (existsSync w path) then
        (log ERROR ("Plugin file not found: " +:+ path) s, Resolved false)
      else
        let relativePath := path_relative (pluginsDir s) (path_dirname path) in
        let cat := split_head path_sep relativePath in
        let s1 := push_metadata normalizedPath
                    (if decide (cat = "") then None else Some cat) s in
        let metaIndex := length (pluginMetadata s1) - 1 in
        (loadPlugin w metaIndex s1, Resolved true)
  | Some (metaIndex, _) =>
      let s1 := fst (unloadPlugin path s) in
      match require_resolve w path with
      | Rejected e => (s1, Rejected e)
      | Resolved _ => (loadPlugin w metaIndex s1, Resolved true)
      end
  end.

End WithNode.

End PluginLoader.

(** ** An instance of the runtime: ASCII strings and POSIX paths *)

Module Posix.

Definition slash : ascii := "/"%char.

Definition is_absolute (p : string) : bool := startsWith p "/".

(** The segments of a path once [.], the empty segments and, where it can
    be done, [..] are resolved (Node's [normalizeString]).  [up] is whether
    a leading [..] is kept, which holds for relative paths. *)
Definition resolve_segment (up : bool) (stack : list string) (seg : string)
    : list string :=
  if decide (seg = "" ∨ seg = ".") then stack
  else if decide (seg = "..") then
    match last stack with
    | None => if up then [".."] else []
    | Some top =>
        if decide (top = "..") then stack ++ [".."] else removelast stack
    end
  else stack ++ [seg].

Definition segments (up : bool) (p : string) : list string :=
  foldl (resolve_segment up) [] (split slash p).

Definition normalize (p : string) : string :=
  if decide (p = "") then "."
  else
    let absolute := is_absolute p in
    let trailing := endsWith p "/" in
    let body := Strings.String.concat "/" (segments (negb absolute) p) in
    if decide (body = "") then
      if absolute then "/" else if trailing then "./" else "."
    else
      let body := if trailing then body +:+ "/" else body in
      if absolute then "/" +:+ body else body.

Definition join (a b : string) : string :=
  if decide (a = "") then normalize b
  else if decide (b = "") then normalize a
  else normalize (a +:+ "/" +:+ b).

(** [path.dirname] and [path.basename], on a path without a trailing
    separator. *)
Definition dirname (p : string) : string :=
  let segs := split slash p in
  match removelast segs with
  | [] => "."
  | [ "" ] => "/"
  | dir => Strings.String.concat "/" dir
  end.

Definition basename (p : string) : string :=
  default "" (last (split slash p)).

Fixpoint drop_common (a b : list string) : list string * list string :=
  match a, b with
  | x :: a', y :: b' => if decide (x = y) then drop_common a' b' else (a, b)
  | _, _ => (a, b)
  end.

(** [path.relative], on absolute paths. *)
Definition relative (from to : string) : string :=
  let '(up, down) := drop_common (segments false from) (segments false to) in
  Strings.String.concat "/" (((fun _ => "..") <$> up) ++ down).

End Posix.

Definition posixLib : NodeLib :=
  {| toLowerCase := ascii_toLowerCase;
     path_sep := Posix.slash;
     path_join := Posix.join;
     path_normalize := Posix.normalize;
     path_relative := Posix.relative;
     path_dirname := Posix.dirname;
     path_basename := Posix.basename |}.

(** ** [src/monitor.ts] *)

Module Monitor.

(** [DEBOUNCE_TIME], in milliseconds. *)
Definition DEBOUNCE_TIME : Z := 500.

(** The messages sent to the worker with [proc.send]. *)
Inductive IpcMessage :=
| ReloadPlugin (path : string)
| FileChanged (path : string).

(** The closures handed to [setTimeout]. *)
Inductive Callback :=
| RestartAfterKill (file : string)           (* lines 48-51 and 55-58 *)
| RestartAfterExit (file : string)           (* lines 132-134 *)
| Debounced (proc : nat) (mainFile filename : string).  (* lines 180-213 *)

Record Timer := { tid : nat; due : Z; callback : Callback }.

(** A watcher made by [setupFileWatchers(proc, mainFile)]. *)
Record Watcher := { wid : nat; w_proc : nat; w_mainFile : string }.

(** What the monitor does to the outside, in order; [Ran] marks the start
    of a timer callback. *)
Inductive Action :=
| Log (lv : LogLevel) (msg : string)
| TreeKill (pid : nat) (file : string)
| Spawn (pid : nat) (mainFile : string) (typescript : bool)
| Send (pid : nat) (msg : IpcMessage)
| CloseWatcher (w : nat)
| Ran (cb : Callback).

(** The module-level variables of the script ([currentProcess] holds the
    pid of the child), the current directory, and the part of the runtime
    the script drives: the clock, the pending timers, the source of fresh
    identities. *)
Record t := {
  cwd : string;
  currentProcess : option nat;
  fileWatchers : list Watcher;
  isRestarting : bool;
  debounceTimer : option nat;
  isShuttingDown : bool;
  now : Z;
  timers : list Timer;
  next_id : nat;
  out : list Action;
}.

Definition set_currentProcess (v : option nat) (s : t) : t :=
  {| cwd := cwd s; currentProcess := v; fileWatchers := fileWatchers s;
     isRestarting := isRestarting s; debounceTimer := debounceTimer s;
     isShuttingDown := isShuttingDown s; now := now s; timers := timers s;
     next_id := next_id s; out := out s |}.

Definition set_fileWatchers (v : list Watcher) (s : t) : t :=
  {| cwd := cwd s; currentProcess := currentProcess s; fileWatchers := v;
     isRestarting := isRestarting s; debounceTimer := debounceTimer s;
     isShuttingDown := isShuttingDown s; now := now s; timers := timers s;
     next_id := next_id s; out := out s |}.

Definition set_isRestarting (v : bool) (s : t) : t :=
  {| cwd := cwd s; currentProcess := currentProcess s;
     fileWatchers := fileWatchers s; isRestarting := v;
     debounceTimer := debounceTimer s; isShuttingDown := isShuttingDown s;
     now := now s; timers := timers s; next_id := next_id s; out := out s |}.

Definition set_debounceTimer (v : option nat) (s : t) : t :=
  {| cwd := cwd s; currentProcess := currentProcess s;
     fileWatchers := fileWatchers s; isRestarting := isRestarting s;
     debounceTimer := v; isShuttingDown := isShuttingDown s;
     now := now s; timers := timers s; next_id := next_id s; out := out s |}.

Definition set_now (v : Z) (s : t) : t :=
  {| cwd := cwd s; currentProcess := currentProcess s;
     fileWatchers := fileWatchers s; isRestarting := isRestarting s;
     debounceTimer := debounceTimer s; isShuttingDown := isShuttingDown s;
     now := v; timers := timers s; next_id := next_id s; out := out s |}.

Definition set_timers (v : list Timer) (s : t) : t :=
  {| cwd := cwd s; currentProcess := currentProcess s;
     fileWatchers := fileWatchers s; isRestarting := isRestarting s;
     debounceTimer := debounceTimer s; isShuttingDown := isShuttingDown s;
     now := now s; timers := v; next_id := next_id s; out := out s |}.

Definition set_next_id (v : nat) (s : t) : t :=
  {| cwd := cwd s; currentProcess := currentProcess s;
     fileWatchers := fileWatchers s; isRestarting := isRestarting s;
     debounceTimer := debounceTimer s; isShuttingDown := isShuttingDown s;
     now := now s; timers := timers s; next_id := v; out := out s |}.

Definition emit (a : Action) (s : t) : t :=
  {| cwd := cwd s; currentProcess := currentProcess s;
     fileWatchers := fileWatchers s; isRestarting := isRestarting s;
     debounceTimer := debounceTimer s; isShuttingDown := isShuttingDown s;
     now := now s; timers := timers s; next_id := next_id s;
     out := out s ++ [a] |}.

Definition log (lv : LogLevel) (msg : string) : t → t := emit (Log lv msg).

(** [setTimeout(cb, delay)]: the timer is due [delay] ms from now; the
    result is the state and the handle of the timer. *)
Definition setTimeout (cb : Callback) (delay : Z) (s : t) : t * nat :=
  let timer := {| tid := next_id s; due := now s + delay; callback := cb |} in
  (set_next_id (S (next_id s)) (set_timers (timers s ++ [timer]) s), next_id s).

(** [clearTimeout(handle)]; nothing happens for a timer that has run. *)
Definition clearTimeout (handle : nat) (s : t) : t :=
  set_timers (filter (fun timer => tid timer ≠ handle) (timers s)) s.

Definition show_code (code : option Z) : string :=
  match code with
  | Some n => pretty n
  | None => "null"
  end.

(** *** Reading the actions *)

Definition is_debounced (cb : Callback) : bool :=
  match cb with
  | Debounced _ _ _ => true
  | _ => false
  end.

(** The debounced callbacks that have run, in order. *)
Definition debounced_runs (s : t) : list Callback :=
  omap (fun a => match a with
                 | Ran cb => if is_debounced cb then Some cb else None
                 | _ => None
                 end) (out s).

(** The debounced callbacks that are waiting in the queue. *)
Definition pending_debounce (s : t) : list Timer :=
  filter (fun timer => is_debounced (callback timer) = true) (timers s).

(** [s'] comes from [s] by a step that leaves the clock, the queue and the
    flags read by the watcher alone, runs no timer callback and sends
    nothing. *)
Definition quiet (s s' : t) : Prop :=
  cwd s' = cwd s ∧ isShuttingDown s' = isShuttingDown s
  ∧ debounceTimer s' = debounceTimer s ∧ now s' = now s
  ∧ timers s' = timers s
  ∧ (∃ actions, out s' = out s ++ actions
       ∧ Forall (fun a => match a with Ran _ | Send _ _ => False | _ => True end)
                actions).

(** The messages sent to workers, in order. *)
Definition sent (s : t) : list (nat * IpcMessage) :=
  omap (fun a => match a with Send pid msg => Some (pid, msg) | _ => None end)
       (out s).

Section WithNode.
Context {node : NodeLib}.

(** [cleanupFileWatchers] (lines 222-234) *)
Definition cleanupFileWatchers (s : t) : t :=
  let watcherCount := length (fileWatchers s) in
  if decide (0 < watcherCount) then
    let s1 := log INFO ("Cleaning up " +:+ pretty watcherCount +:+ " file watchers") s in
    let s2 := foldl (fun s watcher => emit (CloseWatcher (wid watcher)) s)
                    s1 (fileWatchers s) in
    log SUCCESS "All file watchers cleaned up successfully" (set_fileWatchers [] s2)
  else log INFO "No file watchers to clean up" s.

(** [startAppProcess] (lines 71-145); the child that [spawn] makes gets a
    fresh pid. *)
Definition startAppProcess (file : string) (s : t) : t :=
  if isShuttingDown s then
    log WARN "System is shutting down, not starting new process" s
  else
    let s1 := log INFO ("Starting WhatsApp bot with file: " +:+ file) s in
    let mainFile := path_join (cwd s) file in
    let isTypeScript := endsWith file ".ts" in
    let proc := next_id s1 in
    let s2 := emit (Spawn proc mainFile isTypeScript) (set_next_id (S proc) s1) in
    set_currentProcess (Some proc) s2.

(** [startApp] (lines 32-65).  The callback given to [treeKill] runs
    later, as [on_killed]. *)
Definition startApp (file : string) (s : t) : t :=
  if isRestarting s then log WARN "Already restarting, ignoring request" s
  else
    let s1 := set_isRestarting true s in
    match currentProcess s1 with
    | Some pid =>
        let s2 := log INFO ("Terminating existing process (PID: " +:+ pretty pid
                            +:+ ")...") s1 in
        emit (TreeKill pid file) s2
    | None => set_isRestarting false (startAppProcess file s1)
    end.

(** The callback of [treeKill] in [startApp] (lines 43-60); [err] is the
    error, if any. *)
Definition on_killed (file : string) (err : option string) (s : t) : t :=
  let s1 := match err with
            | Some e => log ERROR ("Error killing process " +:+ e) s
            | None => log SUCCESS "Process terminated successfully" s
            end in
  fst (setTimeout (RestartAfterKill file) 1000 (set_currentProcess None s1)).

(** [setupFileWatchers] (lines 152-217); the watcher keeps [proc] and
    [mainFile] for its callback [on_change]. *)
Definition setupFileWatchers (proc : nat) (mainFile : string) (s : t) : t :=
  let s1 := cleanupFileWatchers s in
  let srcDir := path_join (cwd s) "src" in
  let pluginsDir := path_join srcDir "plugins" in
  let s2 := log INFO ("Setting up file watchers for " +:+ srcDir) s1 in
  let s3 := log INFO ("Plugins directory: " +:+ pluginsDir) s2 in
  let watcher := {| wid := next_id s3; w_proc := proc; w_mainFile := mainFile |} in
  set_fileWatchers (fileWatchers s3 ++ [watcher]) (set_next_id (S (next_id s3)) s3).

(** The test of line 169: only [.ts] and [.js] files outside
    [node_modules] are looked at. *)
Definition is_code_file (filename : string) : bool :=
  negb (includes filename "node_modules")
  && (endsWith filename ".ts" || endsWith filename ".js").

(** The callback of [watch] (lines 163-214). *)
Definition on_change (proc : nat) (mainFile : string) (eventType : string)
    (filename : option string) (s : t) : t :=
  match filename with
  | None => s
  | Some filename =>
      if decide (filename = "") then s
      else if isShuttingDown s then s
      else
        let srcDir := path_join (cwd s) "src" in
        let fullPath := path_join srcDir filename in
        if negb (is_code_file filename) then s
        else
          let s1 := log INFO ("File change detected: " +:+ eventType +:+ " - "
                              +:+ fullPath) s in
          let s2 := match debounceTimer s1 with
                    | Some handle => clearTimeout handle s1
                    | None => s1
                    end in
          let '(s3, handle) :=
            setTimeout (Debounced proc mainFile filename) DEBOUNCE_TIME s2 in
          set_debounceTimer (Some handle) s3
  end.

(** The handler of ["message"] (lines 100-112). *)
Definition on_message (proc : nat) (file : string) (data : string) (s : t) : t :=
  let s1 := log INFO ("[RECEIVED] " +:+ data) s in
  if decide (data = "restart") then
    startApp file (log INFO "Restart command received, restarting application..." s1)
  else if decide (data = "ready") then
    setupFileWatchers proc file
      (log SUCCESS "Bot is ready, setting up file watchers" s1)
  else s1.

(** The handler of ["exit"] (lines 114-136); [code] is [None] for [null]. *)
Definition on_exit (file : string) (code : option Z) (s : t) : t :=
  if isShuttingDown s then log INFO "Child process exited during shutdown" s
  else
    let s1 :=
      if decide (code = Some 0%Z) then
        log INFO ("Bot exited with code: " +:+ show_code code +:+ " (normal shutdown)") s
      else
        log ERROR ("Bot exited with code: " +:+ show_code code
                   +:+ " (abnormal shutdown)") s in
    let s2 := cleanupFileWatchers (set_currentProcess None s1) in
    if bool_decide (code ≠ Some 0%Z) && negb (isRestarting s2) && negb (isShuttingDown s2)
    then
      fst (setTimeout (RestartAfterExit file) 5000
             (log WARN "Error detected, restarting in 5 seconds..." s2))
    else s2.

(** The handler of ["error"] (lines 139-142). *)
Definition on_error (err : string) (s : t) : t :=
  set_currentProcess None (log ERROR ("Failed to start child process: " +:+ err) s).

(** Every debounced callback that waits is the one that [debounceTimer]
    refers to, and none is due at [time]. *)
Definition debounce_idle (time : Z) (s : t) : Prop :=
  ∀ timer, timer ∈ pending_debounce s →
           debounceTimer s = Some (tid timer) ∧ (time < due timer)%Z.

(** [filename.startsWith(path.join("plugins", path.sep))] *)
Definition is_plugin_file (filename : string) : bool :=
  startsWith filename (path_join "plugins" (String path_sep "")).

(** The test of lines 192-194: the entry file, [index.ts], or a name that
    contains [config]. *)
Definition is_core_file (mainFile filename : string) : bool :=
  bool_decide (filename = path_basename mainFile ∨ filename = "index.ts")
  || includes filename "config".

(** The body of a timer callback.  [connected] tells, for a child, whether
    its channel is open ([proc.connected]) when the callback runs. *)
Definition run_callback (connected : nat → bool) (cb : Callback) (s : t) : t :=
  match cb with
  | RestartAfterKill file => startAppProcess file (set_isRestarting false s)
  | RestartAfterExit file => startApp file s
  | Debounced proc mainFile filename =>
      let srcDir := path_join (cwd s) "src" in
      let fullPath := path_join srcDir filename in
      if is_plugin_file filename then
        let s1 := log INFO ("Plugin change detected: " +:+ filename) s in
        if connected proc then
          log SUCCESS ("Sent reload command for plugin: " +:+ filename)
            (emit (Send proc (ReloadPlugin fullPath)) s1)
        else log WARN "Cannot reload plugin: process not connected" s1
      else if is_core_file mainFile filename then
        startApp mainFile
          (log WARN ("Core file change detected in " +:+ filename
                     +:+ ", restarting application...") s)
      else
        let s1 := log INFO ("Non-plugin, non-core file changed: " +:+ filename) s in
        if connected proc then
          log INFO ("Sent file change notification for: " +:+ filename)
            (emit (Send proc (FileChanged fullPath)) s1)
        else
          log WARN "Cannot send file change notification: process not connected" s1
  end.

(** What a callback sends to the worker when it runs. *)
Definition sends_of (connected : nat → bool) (dir : string) (cb : Callback)
    : list (nat * IpcMessage) :=
  match cb with
  | Debounced proc mainFile filename =>
      let fullPath := path_join (path_join dir "src") filename in
      if is_plugin_file filename then
        if connected proc then [(proc, ReloadPlugin fullPath)] else []
      else if is_core_file mainFile filename then []
      else if connected proc then [(proc, FileChanged fullPath)] else []
  | _ => []
  end.

(** *** The timer queue *)

(** The pending timer to run next when the clock shows [time], with its
    place in the queue: among the timers due by then, the one due first,
    and of several due together the one set first. *)
Fixpoint earliest (time : Z) (queue : list Timer) : option (nat * Timer) :=
  match queue with
  | [] => None
  | timer :: queue' =>
      let later := prod_map S id <$> earliest time queue' in
      if decide (due timer ≤ time)%Z then
        match later with
        | Some (j, other) =>
            if decide (due other < due timer)%Z then Some (j, other)
            else Some (0, timer)
        | None => Some (0, timer)
        end
      else later
  end.

(** The timer at place [i] leaves the queue, the clock moves to its time,
    its callback runs. *)
Definition fire (connected : nat → bool) (i : nat) (timer : Timer) (s : t) : t :=
  let s1 := set_timers (delete i (timers s)) s in
  let s2 := set_now (Z.max (now s1) (due timer)) s1 in
  run_callback connected (callback timer) (emit (Ran (callback timer)) s2).

Fixpoint run_timers (fuel : nat) (connected : nat → bool) (time : Z) (s : t) : t :=
  match fuel with
  | O => s
  | S fuel' =>
      match earliest time (timers s) with
      | None => s
      | Some (i, timer) => run_timers fuel' connected time (fire connected i timer s)
      end
  end.

(** Time passes until the clock shows [time]: every timer due by then
    runs.  No callback sets a timer, so one round for each pending timer
    is enough. *)
Definition advance (connected : nat → bool) (time : Z) (s : t) : t :=
  let s' := run_timers (length (timers s)) connected time s in
  set_now (Z.max (now s') time) s'.

(** What running the due timers comes to: they ran, each once, in some
    order; the others are still waiting. *)
Definition ran_due (connected : nat → bool) (time : Z) (s s' : t) : Prop :=
  ∃ order,
    order ≡ₚ filter (fun timer => (due timer ≤ time)%Z) (timers s)
    ∧ timers s' = filter (fun timer => ¬ (due timer ≤ time)%Z) (timers s)
    ∧ cwd s' = cwd s ∧ isShuttingDown s' = isShuttingDown s
    ∧ debounceTimer s' = debounceTimer s
    ∧ (now s ≤ now s' ≤ Z.max (now s) time)%Z
    ∧ debounced_runs s'
      = debounced_runs s
        ++ filter (fun cb => is_debounced cb = true) (callback <$> order)
    ∧ sent s' = sent s ++ concat (sends_of connected (cwd s) ∘ callback <$> order).

(** *** File changes over time *)

(** A call of the watcher's callback at the time [at_time]. *)
Record FileEvent := { at_time : Z; eventType : string; filename : string }.

(** The events reach the callback of the watcher of [proc] and [mainFile]
    one after the other, each at its time. *)
Fixpoint deliver (connected : nat → bool) (proc : nat) (mainFile : string)
    (events : list FileEvent) (s : t) : t :=
  match events with
  | [] => s
  | ev :: events' =>
      deliver connected proc mainFile events'
        (on_change proc mainFile (eventType ev) (Some (filename ev))
           (advance connected (at_time ev) s))
  end.

(** Each event comes no earlier than the one before it and less than
    [DEBOUNCE_TIME] after it. *)
Fixpoint within_window (previous : Z) (events : list FileEvent) : Prop :=
  match events with
  | [] => True
  | ev :: events' =>
      (previous ≤ at_time ev < previous + DEBOUNCE_TIME)%Z
      ∧ within_window (at_time ev) events'
  end.

(** The debounce timer of the event [ev] from the watcher of [proc] and
    [mainFile], with the handle [handle]. *)
Definition debounce_timer (proc : nat) (mainFile : string) (ev : FileEvent)
    (handle : nat) : Timer :=
  {| tid := handle; due := at_time ev + DEBOUNCE_TIME;
     callback := Debounced proc mainFile (filename ev) |}.

(** The state of the debounce right after the event [ev]: its timer is
    the one debounced callback that waits, and [debounceTimer] holds its
    handle. *)
Definition armed (proc : nat) (mainFile : string) (ev : FileEvent) (s : t) : Prop :=
  ∃ handle,
    pending_debounce s = [debounce_timer proc mainFile ev handle]
    ∧ debounceTimer s = Some handle
    ∧ now s = at_time ev
    ∧ isShuttingDown s = false.

End WithNode.

End Monitor.

(** ** A plugins directory to compute with *)

Module Scenario.

Import PluginLoader.

#[local] Existing Instance posixLib.

Definition root : string := "/bot/src/plugins".

Definition succeed : SerializedMessage → list string → completion unit :=
  fun _ _ => Resolved ().

(** [src/plugins/utility/ping.ts] *)
Definition pingCommand : CommandHandler :=
  {| hid := 1; ch_commands := ["ping"; "pong"]; ch_handler := succeed |}.

Definition pingPlugin : Plugin :=
  {| pid := 1; info_name := "Ping Plugin"; p_category := None; p_init := None;
     p_commands := Some [pingCommand]; p_handleMessage := None |}.

(** A plugin whose command [echo] has [ping] as an alias. *)
Definition echoCommand : CommandHandler :=
  {| hid := 2; ch_commands := ["echo"; "ping"]; ch_handler := succeed |}.

Definition echoPlugin : Plugin :=
  {| pid := 2; info_name := "Echo Plugin"; p_category := None; p_init := None;
     p_commands := Some [echoCommand]; p_handleMessage := None |}.

(** A plugin whose [init] rejects. *)
Definition brokenCommand : CommandHandler :=
  {| hid := 3; ch_commands := ["broken"]; ch_handler := succeed |}.

Definition brokenPlugin : Plugin :=
  {| pid := 3; info_name := "Broken Plugin"; p_category := None;
     p_init := Some (Rejected "init failed");
     p_commands := Some [brokenCommand]; p_handleMessage := None |}.

(** A plugin with a generic hook only, as in [templates/basicPlugin.ts]:
    it handles the messages that contain [hello]. *)
Definition greeterPlugin : Plugin :=
  {| pid := 4; info_name := "Greeter Plugin"; p_category := None; p_init := None;
     p_commands := None;
     p_handleMessage :=
       Some (fun m => Resolved (includes (ascii_toLowerCase (msg_text m)) "hello")) |}.

(** A plugin one of whose command tokens is the empty string. *)
Definition blankCommand : CommandHandler :=
  {| hid := 5; ch_commands := [""]; ch_handler := succeed |}.

Definition blankPlugin : Plugin :=
  {| pid := 5; info_name := "Blank Plugin"; p_category := None; p_init := None;
     p_commands := Some [blankCommand]; p_handleMessage := None |}.

(** A factory that registers a command through the context, and returns
    an instance whose [init] rejects. *)
Definition eagerCommand : CommandHandler :=
  {| hid := 6; ch_commands := ["eager"]; ch_handler := succeed |}.

Definition eagerPlugin : Plugin :=
  {| pid := 6; info_name := "Eager Plugin"; p_category := None;
     p_init := Some (Rejected "init failed");
     p_commands := None; p_handleMessage := None |}.

(** A command whose handler throws. *)
Definition failCommand : CommandHandler :=
  {| hid := 7; ch_commands := ["fail"];
     ch_handler := fun _ _ => Rejected "handler failed" |}.

Definition failPlugin : Plugin :=
  {| pid := 7; info_name := "Fail Plugin"; p_category := None; p_init := None;
     p_commands := Some [failCommand]; p_handleMessage := None |}.

Definition factory (p : Plugin) : completion PluginExport :=
  Resolved (ExportFactory {| registered := []; produced := Resolved p |}).

Definition modules : list (string * completion PluginExport) :=
  [ ("/bot/src/plugins/utility/ping.ts", factory pingPlugin);
    ("/bot/src/plugins/utility/echo.ts", factory echoPlugin);
    ("/bot/src/plugins/utility/broken.ts", factory brokenPlugin);
    ("/bot/src/plugins/general/greeter.ts", factory greeterPlugin);
    ("/bot/src/plugins/general/blank.ts", factory blankPlugin);
    ("/bot/src/plugins/general/fail.ts", factory failPlugin);
    ("/bot/src/plugins/general/eager.ts",
     Resolved (ExportFactory {| registered := [eagerCommand];
                                produced := Resolved eagerPlugin |})) ].

Fixpoint assoc {A} (k : string) (l : list (string * A)) : option A :=
  match l with
  | [] => None
  | (k', v) :: l' => if decide (k = k') then Some v else assoc k l'
  end.

(** The file system finds a file under every spelling of its path: a
    path is resolved before it is looked up, and [require.resolve] answers
    with the resolved path. *)
Definition module_at (path : string) : option (completion PluginExport) :=
  assoc (path_normalize path) modules.

Definition world : World :=
  {| existsSync := fun path => bool_decide (is_Some (module_at path));
     require_resolve := fun path =>
       match module_at path with
       | Some _ => Resolved (path_normalize path)
       | None => Rejected ("Cannot find module " +:+ path)
       end;
     import_module := fun path =>
       default (Rejected ("Cannot find module " +:+ path)) (module_at path) |}.

(** The messages [text] that [serialize] turns into a command and its
    arguments. *)
Definition message (text : string) (command : string) (args : list string)
    : SerializedMessage :=
  {| msg_text := text; msg_command := Some command; msg_args := Some args;
     msg_reply := fun _ => Resolved () |}.

(** The state after discovering the files [names] of the category
    [cat], and loading them in turn. *)
Definition discovered (cat : string) (names : list string) : t :=
  discoverPlugins (Some (Resolved [Directory cat (Resolved (File <$> names))]))
                  (create root).

Definition load_in_turn (s : t) : t :=
  foldl (fun s i => loadPlugin world i s) s (seq 0 (length (pluginMetadata s))).

(** The monitor of a bot in [/bot], once the worker has said that it is
    ready: the worker has pid 100, and a watcher is set up. *)
Definition boot : Monitor.t :=
  {| Monitor.cwd := "/bot"; Monitor.currentProcess := None;
     Monitor.fileWatchers := []; Monitor.isRestarting := false;
     Monitor.debounceTimer := None; Monitor.isShuttingDown := false;
     Monitor.now := 0; Monitor.timers := []; Monitor.next_id := 100;
     Monitor.out := [] |}.

Definition entry : string := "src/index.ts".

Definition watching : Monitor.t :=
  Monitor.on_message 100 entry "ready" (Monitor.startApp entry boot).

(** Three changes of [plugins/utility/ping.ts], 120 ms apart. *)
Definition burst : list Monitor.FileEvent :=
  [ {| Monitor.at_time := 1000; Monitor.eventType := "change";
       Monitor.filename := "plugins/utility/ping.ts" |};
    {| Monitor.at_time := 1120; Monitor.eventType := "change";
       Monitor.filename := "plugins/utility/ping.ts" |};
    {| Monitor.at_time := 1240; Monitor.eventType := "change";
       Monitor.filename := "plugins/utility/ping.ts" |} ].

End Scenario.

(** ** Vocabulary of the further properties *)

Module LoaderViews.

Import PluginLoader.

(** The module file [fname] lies in the tree [items] below the
    directories [dirs], each of which could be listed. *)
Inductive occurs : list Dirent → list string → string → Prop :=
| occurs_here items fname :
    File fname ∈ items → occurs items [] fname
| occurs_below items dir sub dirs fname :
    Directory dir (Resolved sub) ∈ items → occurs sub dirs fname →
    occurs items (dir :: dirs) fname.

(** A descriptor that a walk of [items], the entries of [dirPath], adds:
    the one of a module file of the tree, with the path that leads to the
    file, and with the name of the last directory on the way as its
    category, [cat] when there is none. *)
Definition found_in {node : NodeLib} (items : list Dirent) (dirPath : string)
    (cat : option string) (m : PluginMetadata) : Prop :=
  ∃ dirs fname,
    occurs items dirs fname
    ∧ is_module_file fname = true
    ∧ filePath m = foldl path_join dirPath (dirs ++ [fname])
    ∧ category m = from_option Some cat (last dirs)
    ∧ loaded m = false ∧ plugin m = None.

(** What a walk keeps: the registry, the loaded plugins, and the
    descriptors that were there, at their places; what it adds is
    unloaded. *)
Definition walk_keeps (s s' : t) : Prop :=
  pluginsDir s' = pluginsDir s ∧ registry s' = registry s
  ∧ loadedPlugins s' = loadedPlugins s
  ∧ ∃ added, pluginMetadata s' = pluginMetadata s ++ added
             ∧ Forall (fun m => loaded m = false ∧ plugin m = None) added.

(** The instances that the descriptors hold. *)
Definition instances (s : t) : list Plugin := omap plugin (pluginMetadata s).

(** The descriptors and the list of loaded plugins agree: a descriptor is
    marked as loaded exactly when it holds an instance, and the loaded
    plugins are the instances of the descriptors, up to the order. *)
Definition consistent (s : t) : Prop :=
  Forall (fun m => loaded m = true ↔ is_Some (plugin m)) (pluginMetadata s)
  ∧ pid <$> loadedPlugins s ≡ₚ pid <$> instances s.

End LoaderViews.

Module MonitorViews.

Import Monitor.

(** The pids of the workers spawned, in order. *)
Definition spawned (s : t) : list nat :=
  omap (fun a => match a with Spawn pid _ _ => Some pid | _ => None end) (out s).

(** The pids that [treeKill] was called for to restart, in order. *)
Definition killed (s : t) : list nat :=
  omap (fun a => match a with TreeKill pid _ => Some pid | _ => None end) (out s).

(** The watchers closed, in order. *)
Definition closed (s : t) : list nat :=
  omap (fun a => match a with CloseWatcher w => Some w | _ => None end) (out s).

(** *** [gracefulShutdown] (lines 239-280) *)

Definition set_isShuttingDown (v : bool) (s : t) : t :=
  {| cwd := cwd s; currentProcess := currentProcess s;
     fileWatchers := fileWatchers s; isRestarting := isRestarting s;
     debounceTimer := debounceTimer s; isShuttingDown := v;
     now := now s; timers := timers s; next_id := next_id s; out := out s |}.

(** How a call of [gracefulShutdown] goes on: it returns at once when a
    shutdown is under way; with a child it calls [treeKill] on it and sets
    the timer that forces the exit, due at [force_due]; without a child
    it exits. *)
Inductive ShutdownStep :=
| AlreadyShuttingDown
| TerminatingChild (pid : nat) (force_due : Z)
| Exit (code : Z).

(** The script up to the call of [treeKill] or of [process.exit]. *)
Definition gracefulShutdown (s : t) : t * ShutdownStep :=
  if isShuttingDown s then (s, AlreadyShuttingDown)
  else
    let s1 := log WARN "Initiating graceful shutdown..." (set_isShuttingDown true s) in
    let s2 := match debounceTimer s1 with
              | Some handle => set_debounceTimer None (clearTimeout handle s1)
              | None => s1
              end in
    let s3 := cleanupFileWatchers s2 in
    match currentProcess s3 with
    | Some pid =>
        (log INFO ("Terminating child process (PID: " +:+ pretty pid +:+ ")") s3,
         TerminatingChild pid (now s3 + 5000))
    | None =>
        (log INFO "No child process to terminate, shutting down" s3, Exit 0)
    end.

(** The callback of [treeKill] in [gracefulShutdown] (lines 265-275): the
    forcing timer is cleared and the monitor exits with code 0, with or
    without an error; the callback of the forcing timer (lines 260-263)
    exits with code 1. *)
Definition on_shutdown_killed (err : option string) (s : t) : t * Z :=
  let s1 := match err with
            | Some e => log ERROR ("Error terminating child process " +:+ e) s
            | None => log SUCCESS "Child process terminated successfully" s
            end in
  (log INFO "Monitor shutting down" s1, 0%Z).

Definition on_force_exit (s : t) : t * Z :=
  (log ERROR "Force exiting after timeout" s, 1%Z).

(** The monitor has shut down its debounce: it is shutting down and no
    debounced callback waits. *)
Definition shut (s : t) : Prop :=
  isShuttingDown s = true ∧ pending_debounce s = [].

(** [actions] are put out, nothing else changes. *)
Definition emits (actions : list Action) (s : t) : t :=
  {| cwd := cwd s; currentProcess := currentProcess s;
     fileWatchers := fileWatchers s; isRestarting := isRestarting s;
     debounceTimer := debounceTimer s; isShuttingDown := isShuttingDown s;
     now := now s; timers := timers s; next_id := next_id s;
     out := out s ++ actions |}.

(** What [cleanupFileWatchers] puts out for the watchers [ws]. *)
Definition cleanup_actions (ws : list Watcher) : list Action :=
  if decide (0 < length ws) then
    Log INFO ("Cleaning up " +:+ pretty (length ws) +:+ " file watchers")
    :: (CloseWatcher ∘ wid <$> ws)
    ++ [Log SUCCESS "All file watchers cleaned up successfully"]
  else [Log INFO "No file watchers to clean up"].

(** *** The event loop *)

(** What the monitor reacts to: the events of a child ([message], [exit],
    [error]), the callback of [treeKill] in [startApp], a call of a
    watcher's callback, the passing of time up to [time], and the signals
    [SIGINT] and [SIGTERM]. *)
Inductive Input :=
| Message (proc : nat) (file data : string)
| Exited (file : string) (code : option Z)
| Killed (file : string) (err : option string)
| Failed (err : string)
| Changed (proc : nat) (mainFile eventType : string) (filename : option string)
| Elapsed (time : Z)
| Signal.

Section WithNode.
Context {node : NodeLib}.

Definition react (connected : nat → bool) (s : t) (input : Input) : t :=
  match input with
  | Message proc file data => on_message proc file data s
  | Exited file code => on_exit file code s
  | Killed file err => on_killed file err s
  | Failed err => on_error err s
  | Changed proc mainFile eventType filename =>
      on_change proc mainFile eventType filename s
  | Elapsed time => advance connected time s
  | Signal => fst (gracefulShutdown s)
  end.

Definition run (connected : nat → bool) (inputs : list Input) (s : t) : t :=
  foldl (react connected) s inputs.

End WithNode.

(** Every debounced callback that waits is the one that [debounceTimer]
    refers to; the handles of the pending timers differ and were given
    out before. *)
Definition orderly (s : t) : Prop :=
  (∀ timer, timer ∈ pending_debounce s → debounceTimer s = Some (tid timer))
  ∧ NoDup (tid <$> timers s)
  ∧ Forall (fun timer => tid timer < next_id s) (timers s).

(** From [s] to [s'] no worker was spawned, nothing was sent to a worker
    and no debounced callback ran; in [s'] the monitor is shut. *)
Definition nothing_more (s s' : t) : Prop :=
  shut s' ∧ spawned s' = spawned s ∧ sent s' = sent s
  ∧ debounced_runs s' = debounced_runs s.

End MonitorViews.

(** ** [src/lib/logger.ts] *)

Module Logger.

(** [LOG_LEVELS], by the name of the level; [None] is [undefined]. *)
Definition LOG_LEVELS (level : string) : option nat :=
  if decide (level = "DEBUG") then Some 0
  else if decide (level = "INFO") then Some 1
  else if decide (level = "SUCCESS") then Some 2
  else if decide (level = "WARN") then Some 3
  else if decide (level = "ERROR") then Some 4
  else None.

(** A call of [console.log] or of [console.error]: the timestamp, when
    the text has one, the label and the rest of the text. *)
Inductive Stream := Stdout | Stderr.

Record Line := {
  stream : Stream;
  stamp : option Z;
  tag : string;
  body : string;
}.

(** A closure of the queue: what it prints when it runs at a given time,
    and whether it returns or throws. *)
Definition LogFn : Type := Z → list Line * completion unit.

(** The static fields of the class, and the part of the runtime that the
    class drives: the clock, the timer of the pending [await] with its
    due time, the closures that were called with the time of the call,
    and the rejections of [processLogQueue], which no caller awaits. *)
Record t := {
  logQueue : list LogFn;
  isProcessingQueue : bool;
  currentLogLevel : nat;
  now : Z;
  wake : option Z;
  ran : list (Z * LogFn);
  unhandled : list string;
}.

Definition init : t :=
  {| logQueue := []; isProcessingQueue := false; currentLogLevel := 1;
     now := 0; wake := None; ran := []; unhandled := [] |}.

Definition set_logQueue (v : list LogFn) (s : t) : t :=
  {| logQueue := v; isProcessingQueue := isProcessingQueue s;
     currentLogLevel := currentLogLevel s; now := now s; wake := wake s;
     ran := ran s; unhandled := unhandled s |}.

Definition set_isProcessingQueue (v : bool) (s : t) : t :=
  {| logQueue := logQueue s; isProcessingQueue := v;
     currentLogLevel := currentLogLevel s; now := now s; wake := wake s;
     ran := ran s; unhandled := unhandled s |}.

Definition set_currentLogLevel (v : nat) (s : t) : t :=
  {| logQueue := logQueue s; isProcessingQueue := isProcessingQueue s;
     currentLogLevel := v; now := now s; wake := wake s;
     ran := ran s; unhandled := unhandled s |}.

Definition set_now (v : Z) (s : t) : t :=
  {| logQueue := logQueue s; isProcessingQueue := isProcessingQueue s;
     currentLogLevel := currentLogLevel s; now := v; wake := wake s;
     ran := ran s; unhandled := unhandled s |}.

Definition set_wake (v : option Z) (s : t) : t :=
  {| logQueue := logQueue s; isProcessingQueue := isProcessingQueue s;
     currentLogLevel := currentLogLevel s; now := now s; wake := v;
     ran := ran s; unhandled := unhandled s |}.

Definition call (logFn : LogFn) (s : t) : t :=
  {| logQueue := logQueue s; isProcessingQueue := isProcessingQueue s;
     currentLogLevel := currentLogLevel s; now := now s; wake := wake s;
     ran := ran s ++ [(now s, logFn)]; unhandled := unhandled s |}.

Definition reject (e : string) (s : t) : t :=
  {| logQueue := logQueue s; isProcessingQueue := isProcessingQueue s;
     currentLogLevel := currentLogLevel s; now := now s; wake := wake s;
     ran := ran s; unhandled := unhandled s ++ [e] |}.

(** What has been printed. *)
Definition console (s : t) : list Line :=
  concat ((fun '(time, logFn) => fst (logFn time)) <$> ran s).

(** [setLogLevel] (lines 29-33) *)
Definition setLogLevel (level : string) (s : t) : t :=
  match LOG_LEVELS level with
  | Some n => set_currentLogLevel n s
  | None => s
  end.

(** The loop of [processLogQueue] (lines 58-68) from its test to the next
    [await], or to the end of the function: the first closure leaves the
    queue and is called, and the function waits 5 ms; with an empty queue,
    or when the closure throws, the [finally] block runs. *)
Definition loop (s : t) : t :=
  match logQueue s with
  | [] => set_isProcessingQueue false s
  | logFn :: rest =>
      let s1 := call logFn (set_logQueue rest s) in
      match snd (logFn (now s)) with
      | Resolved _ => set_wake (Some (now s + 5)%Z) s1
      | Rejected e => reject e (set_isProcessingQueue false s1)
      end
  end.

(** [processLogQueue] (lines 51-69), up to its first [await]. *)
Definition processLogQueue (s : t) : t :=
  if isProcessingQueue s then s
  else loop (set_isProcessingQueue true s).

(** [queueLog] (lines 40-46) *)
Definition queueLog (level : nat) (logFn : LogFn) (s : t) : t :=
  if decide (currentLogLevel s ≤ level) then
    processLogQueue (set_logQueue (logQueue s ++ [logFn]) s)
  else s.

(** The timer of the [await] fires: the loop goes on. *)
Definition on_wake (s : t) : t :=
  match wake s with
  | Some _ => loop (set_wake None s)
  | None => s
  end.

(** *** The public methods *)

Definition plain (out : Stream) (label message : string) : LogFn :=
  fun time =>
    ([ {| stream := out; stamp := Some time; tag := label; body := message |} ],
     Resolved ()).

Definition debug (message : string) : t → t :=
  queueLog 0 (plain Stdout "DEBUG" message).

Definition info (message : string) : t → t :=
  queueLog 1 (plain Stdout "INFO" message).

Definition success (message : string) : t → t :=
  queueLog 2 (plain Stdout "SUCCESS" message).

Definition warn (message : string) : t → t :=
  queueLog 3 (plain Stdout "WARNING" message).

(** The second argument of [error], when it is truthy: an [Error] with its
    stack, or another value with what [JSON.stringify] makes of it, which
    throws for a value that has a cycle. *)
Inductive ErrorValue :=
| ErrorInstance (stack : string)
| OtherValue (json : completion string).

Definition error_fn (message : string) (err : option ErrorValue) : LogFn :=
  fun time =>
    let first := {| stream := Stderr; stamp := Some time; tag := "ERROR";
                    body := message |} in
    let second text := {| stream := Stderr; stamp := None; tag := "";
                          body := text |} in
    match err with
    | None => ([first], Resolved ())
    | Some (ErrorInstance stack) => ([first; second stack], Resolved ())
    | Some (OtherValue (Resolved json)) => ([first; second json], Resolved ())
    | Some (OtherValue (Rejected e)) => ([first], Rejected e)
    end.

Definition error (message : string) (err : option ErrorValue) : t → t :=
  queueLog 4 (error_fn message err).

(** *** The logger over time *)

(** What happens to the logger: a call of [queueLog] at a time, the timer
    of the [await] firing at a time, a call of [setLogLevel]. *)
Inductive Event :=
| Call (time : Z) (level : nat) (logFn : LogFn)
| Wake (time : Z)
| SetLevel (level : string).

(** A timer does not fire before it is due. *)
Definition react (s : t) (ev : Event) : t :=
  match ev with
  | Call time level logFn => queueLog level logFn (set_now (Z.max (now s) time) s)
  | Wake time =>
      match wake s with
      | Some due =>
          if decide (due ≤ time)%Z then on_wake (set_now (Z.max (now s) time) s)
          else s
      | None => s
      end
  | SetLevel level => setLogLevel level s
  end.

Definition run (events : list Event) (s : t) : t := foldl react s events.

(** The closures of the calls that pass the threshold in force at the
    time of the call, in order, [threshold] being in force at first. *)
Fixpoint accepted (threshold : nat) (events : list Event) : list LogFn :=
  match events with
  | [] => []
  | Call _ level logFn :: events' =>
      if decide (threshold ≤ level) then logFn :: accepted threshold events'
      else accepted threshold events'
  | Wake _ :: events' => accepted threshold events'
  | SetLevel level :: events' =>
      accepted (default threshold (LOG_LEVELS level)) events'
  end.

Definition never_throws (logFn : LogFn) : Prop :=
  ∀ time, snd (logFn time) = Resolved ().

Definition calm (ev : Event) : Prop :=
  match ev with
  | Call _ _ logFn => never_throws logFn
  | _ => True
  end.

(** The logger is idle with an empty queue, or it is processing and the
    timer of its [await] is pending. *)
Definition settled (s : t) : Prop :=
  if isProcessingQueue s then is_Some (wake s)
  else logQueue s = [] ∧ wake s = None.

(** Each closure was called 5 ms or more after the one before it, and the
    next one will be. *)
Fixpoint spaced (times : list Z) : Prop :=
  match times with
  | [] => True
  | time :: times' =>
      match times' with
      | [] => True
      | next :: _ => (time + 5 ≤ next)%Z
      end ∧ spaced times'
  end.

Definition paced (s : t) : Prop :=
  spaced (fst <$> ran s)
  ∧ match last (ran s) with
    | Some (time, _) =>
        (time ≤ now s)%Z
        ∧ match wake s with
          | Some due => due = (time + 5)%Z
          | None => (time + 5 ≤ now s)%Z
          end
    | None => True
    end.

End Logger.

(** ** [loadAllPlugins] (lines 84-98 of [PluginLoader.ts]) *)

Module LoadAll.

Import PluginLoader.

(** The loads that [loadAllPlugins] starts run side by side; each goes
    on when a promise that it awaits settles: the import of the module of
    the descriptor at place [i], or the [init] of its instance. *)
Inductive Settled := Imported (i : nat) | Initialized (i : nat).

(** The loads under way: the places of the descriptors whose import is
    awaited, those whose [init] is awaited, with the instance, and the
    places of the loads that have returned, in the order of their
    return. *)
Record Loads := {
  importing : list nat;
  initializing : list (nat * Plugin);
  returned : list nat;
}.

Section WithNode.
Context {node : NodeLib}.

(** [this.pluginMetadata.filter((meta) => !meta.loaded)], by place. *)
Definition unloaded (s : t) : list nat :=
  filter (fun i => loaded <$> pluginMetadata s !! i = Some false)
         (seq 0 (length (pluginMetadata s))).

(** A load goes on.  The test of line 137 was made when the load
    started, and the descriptor of a load under way is changed by this
    load only.  A plugin without [init] is not awaited (line 158): its
    load runs to the end.  A promise that no load awaits settles
    nothing. *)
Definition settle (w : World) (st : t * Loads) (ev : Settled) : t * Loads :=
  let '(s, l) := st in
  match ev with
  | Imported i =>
      match list_find (fun j => j = i) (importing l) with
      | None => st
      | Some (k, _) =>
          let rest := delete k (importing l) in
          match loadPlugin_begin w i s with
          | (s1, Some p) =>
              match p_init p with
              | Some _ =>
                  (s1, {| importing := rest;
                          initializing := initializing l ++ [(i, p)];
                          returned := returned l |})
              | None =>
                  (loadPlugin_finish i p s1,
                   {| importing := rest; initializing := initializing l;
                      returned := returned l ++ [i] |})
              end
          | (s1, None) =>
              (s1, {| importing := rest; initializing := initializing l;
                      returned := returned l ++ [i] |})
          end
      end
  | Initialized i =>
      match list_find (fun ip => fst ip = i) (initializing l) with
      | None => st
      | Some (k, (_, p)) =>
          (loadPlugin_finish i p s,
           {| importing := importing l;
              initializing := delete k (initializing l);
              returned := returned l ++ [i] |})
      end
  end.

Definition settle_all (w : World) (schedule : list Settled) (st : t * Loads)
    : t * Loads :=
  foldl (settle w) st schedule.

(** The calls of [loadPlugin] made by [map] stop at their first [await],
    the import. *)
Definition started (s : t) : Loads :=
  {| importing := unloaded s; initializing := []; returned := [] |}.

(** [loadAllPlugins], the promises settling in the order [schedule]:
    [Promise.all] is fulfilled when every load has returned, and the
    summary is logged; [loadTime] is the time that has passed.  [None]:
    a load is still waiting. *)
Definition loadAllPlugins (w : World) (loadTime : Z) (schedule : list Settled)
    (s : t) : option t :=
  let '(s', l) := settle_all w schedule (s, started s) in
  match importing l, initializing l with
  | [], [] =>
      Some (log INFO ("Loaded " +:+ pretty (length (loadedPlugins s'))
                      +:+ " plugins with " +:+ pretty (size (registry s'))
                      +:+ " commands in " +:+ pretty loadTime +:+ "ms") s')
  | _, _ => None
  end.

(** *** Reading the loads *)

(** The place of the descriptor whose load an event lets go on. *)
Definition place (ev : Settled) : nat :=
  match ev with Imported i | Initialized i => i end.

(** The instance that the load of a descriptor ends with, when it
    succeeds: the module yields an instance and its [init] does not
    reject. *)
Definition outcome (w : World) (meta : PluginMetadata) : option Plugin :=
  match exported_instance (import_module w (filePath meta)) with
  | Some p =>
      match p_init p with
      | Some (Rejected _) => None
      | _ => Some (with_category (category meta) p)
      end
  | None => None
  end.

(** The descriptor after its load. *)
Definition final (w : World) (meta : PluginMetadata) : PluginMetadata :=
  match outcome w meta with
  | Some p => mark_loaded p meta
  | None => meta
  end.

(** The handlers that the load of a descriptor offers to the registry. *)
Definition offered (w : World) (meta : PluginMetadata) : list CommandHandler :=
  imperative_commands (import_module w (filePath meta))
  ++ match outcome w meta with
     | Some p => default [] (p_commands p)
     | None => []
     end.

(** The state [st] of the loads that [loadAllPlugins] started in [s]. *)
Definition under_way (w : World) (s : t) (st : t * Loads) : Prop :=
  let '(s', l) := st in
  returned l ++ importing l ++ (fst <$> initializing l) ≡ₚ unloaded s
  ∧ length (pluginMetadata s') = length (pluginMetadata s)
  ∧ (∀ i meta, pluginMetadata s !! i = Some meta →
       pluginMetadata s' !! i
       = Some (if decide (i ∈ returned l) then final w meta else meta))
  ∧ (∀ i p, (i, p) ∈ initializing l →
       ∃ meta, pluginMetadata s !! i = Some meta
         ∧ with_category (category meta)
             <$> exported_instance (import_module w (filePath meta)) = Some p
         ∧ is_Some (p_init p))
  ∧ loadedPlugins s'
    = loadedPlugins s
      ++ omap (fun i => pluginMetadata s !! i ≫= outcome w) (returned l)
  ∧ (∀ k h, registry s !! k = Some h → registry s' !! k = Some h)
  ∧ (∀ k h, registry s' !! k = Some h →
       registry s !! k = Some h
       ∨ ∃ meta, meta ∈ pluginMetadata s ∧ loaded meta = false
           ∧ h ∈ offered w meta ∧ declares k (ch_commands h) = true).

End WithNode.

End LoadAll.

(** ** [src/index.ts] *)

Module Worker.

Import PluginLoader.

(** An element of the [messages] of a [messages.upsert] event: the
    identity of its key, the fields of the key that the handler reads,
    and what [serialize] makes of the message, [None] for [null], else
    [sender.jid] with the message that the plugins get. *)
Record Upsert := {
  key : nat;
  remoteJid : option string;
  fromMe : bool;
  serialized : option (string * SerializedMessage);
}.

(** What the handler of [messages.upsert] does, in order: a call of
    [Logger.incomingMessage], with the sender and the command, a call of
    [sock.readMessages], a call of [pluginLoader.handleMessage], with
    what the dispatch did. *)
Inductive Step :=
| Incoming (jid : string) (command : option string)
| Read (message_key : nat)
| Dispatch (effects : list Effect).

Definition then_ (steps : list Step) (rest : list Step * completion unit)
    : list Step * completion unit :=
  (steps ++ fst rest, snd rest).

Section WithNode.
Context {node : NodeLib}.

(** The handler of [messages.upsert] (lines 77-118).  The loop over
    [config.owners] in self mode (lines 83-89) returns from its own
    callback only, and does nothing. *)
Fixpoint on_upsert (s : t) (messages : list Upsert)
    : list Step * completion unit :=
  match messages with
  | [] => ([], Resolved ())
  | message :: rest =>
      if decide (remoteJid message = Some "status@broadcast") then on_upsert s rest
      else if fromMe message then on_upsert s rest
      else
        match serialized message with
        | None => on_upsert s rest
        | Some (senderJid, m) =>
            let seen := [Incoming senderJid (msg_command m); Read (key message)] in
            if decide (senderJid = "") then then_ seen (on_upsert s rest)
            else
              match handleMessage s m with
              | (effects, Resolved _) =>
                  then_ (seen ++ [Dispatch effects]) (on_upsert s rest)
              | (effects, Rejected e) =>
                  (seen ++ [Dispatch effects], Rejected e)
              end
        end
  end.

(** The message that reaches the plugins, if any. *)
Definition reaches (message : Upsert) : option SerializedMessage :=
  if decide (remoteJid message = Some "status@broadcast") then None
  else if fromMe message then None
  else
    match serialized message with
    | Some (senderJid, m) => if decide (senderJid = "") then None else Some m
    | None => None
    end.

End WithNode.

(** The dispatches among the steps. *)
Definition dispatched (steps : list Step) : list (list Effect) :=
  omap (fun step => match step with Dispatch effects => Some effects | _ => None end)
       steps.

(** The keys of the messages marked as read. *)
Definition marked_read (steps : list Step) : list nat :=
  omap (fun step => match step with Read k => Some k | _ => None end) steps.

(** What the worker does to the outside when an error is fatal. *)
Inductive Action :=
| Say (lv : LogLevel) (msg : string)
| ToMonitor (data : string)
| ProcessExit (code : Z).

(** [handleError] (lines 122-133); [isChild] is [!!process.send]. *)
Definition handleError (isChild : bool) (err : string) : list Action :=
  [Say ERROR ("Fatal error occurred " +:+ err)]
  ++ (if isChild
      then [Say INFO "Sending restart signal to monitor..."; ToMonitor "restart"]
      else [])
  ++ [ProcessExit 1].

(** The handler of [unhandledRejection] (lines 141-144): where the
    rejection of a handler of [messages.upsert] ends, as nothing awaits
    it. *)
Definition on_unhandledRejection (isChild : bool) (reason : string) : list Action :=
  Say ERROR ("Unhandled rejection " +:+ reason) :: handleError isChild reason.

(** What the monitor gets from an action of the worker [proc] that runs
    [file]. *)
Definition reports (proc : nat) (file : string) (a : Action)
    : list MonitorViews.Input :=
  match a with
  | ToMonitor data => [MonitorViews.Message proc file data]
  | ProcessExit code => [MonitorViews.Exited file (Some code)]
  | Say _ _ => []
  end.

End Worker.


(** * Properties *)

Import PluginLoader.
Import Scenario.

(** ** The command registry *)

Section Registry.
Context {node : NodeLib}.

Lemma registerToken_frame handler s command :
  pluginsDir (registerToken handler s command) = pluginsDir s
  ∧ pluginMetadata (registerToken handler s command) = pluginMetadata s
  ∧ loadedPlugins (registerToken handler s command) = loadedPlugins s.
Proof. unfold registerToken. by destruct (registry s !! _). Qed.

Lemma registerToken_lookup handler s command k :
  registry (registerToken handler s command) !! k =
  match registry s !! k with
  | Some h0 => Some h0
  | None => if decide (toLowerCase command = k) then Some handler else None
  end.
Proof.
  unfold registerToken.
  destruct (registry s !! toLowerCase command) as [h1|] eqn:E; simpl.
  - destruct (registry s !! k) eqn:E'; [done|].
    case_decide; [congruence|done].
  - rewrite lookup_insert. case_decide as Hk.
    + subst k. by rewrite E.
    + by destruct (registry s !! k).
Qed.

Lemma register_tokens_lookup handler cs s k :
  registry (foldl (registerToken handler) s cs) !! k =
  match registry s !! k with
  | Some h0 => Some h0
  | None => if declares k cs then Some handler else None
  end.
Proof.
  revert s. induction cs as [|c cs IH]; intros s; simpl.
  - by destruct (registry s !! k).
  - rewrite IH, registerToken_lookup. unfold declares. simpl.
    destruct (registry s !! k); [done|].
    case_decide as Hc.
    + rewrite bool_decide_true; [done|]. apply elem_of_cons; by left.
    + erewrite (bool_decide_ext (k ∈ _ :: _)); [done|].
      rewrite elem_of_cons. split; [intros [?|?]; [congruence|done] | by right].
Qed.

Lemma registerCommands_lookup hs s k :
  registry (registerCommands hs s) !! k =
  match registry s !! k with
  | Some h0 => Some h0
  | None => first_registrant k hs
  end.
Proof.
  unfold registerCommands. revert s.
  induction hs as [|h hs IH]; intros s; simpl.
  - by destruct (registry s !! k).
  - rewrite IH, register_tokens_lookup.
    destruct (registry s !! k); [done|].
    unfold first_registrant; simpl. by destruct (declares k (ch_commands h)).
Qed.

Lemma registerCommands_app hs1 hs2 s :
  registerCommands (hs1 ++ hs2) s = registerCommands hs2 (registerCommands hs1 s).
Proof. unfold registerCommands. by rewrite foldl_app. Qed.

Lemma registerCommands_calls calls s :
  foldl (fun s hs => registerCommands hs s) s calls =
  registerCommands (concat calls) s.
Proof.
  revert s. induction calls as [|hs calls IH]; intros s; simpl; [done|].
  by rewrite IH, registerCommands_app.
Qed.

Lemma register_tokens_frame handler cs s :
  pluginsDir (foldl (registerToken handler) s cs) = pluginsDir s
  ∧ pluginMetadata (foldl (registerToken handler) s cs) = pluginMetadata s
  ∧ loadedPlugins (foldl (registerToken handler) s cs) = loadedPlugins s.
Proof.
  revert s. induction cs as [|c cs IH]; intros s; simpl; [done|].
  destruct (IH (registerToken handler s c)) as (-> & -> & ->).
  apply registerToken_frame.
Qed.

Lemma registerCommands_frame hs s :
  pluginsDir (registerCommands hs s) = pluginsDir s
  ∧ pluginMetadata (registerCommands hs s) = pluginMetadata s
  ∧ loadedPlugins (registerCommands hs s) = loadedPlugins s.
Proof.
  unfold registerCommands. revert s.
  induction hs as [|h hs IH]; intros s; simpl; [done|].
  destruct (IH (foldl (registerToken h) s (ch_commands h))) as (-> & -> & ->).
  apply register_tokens_frame.
Qed.

Lemma registerToken_console handler s command :
  console (registerToken handler s command) =
  console s ++
  match registry s !! toLowerCase command with
  | Some _ => [conflict_warning (toLowerCase command)]
  | None => []
  end.
Proof.
  unfold registerToken.
  destruct (registry s !! toLowerCase command); simpl; [done|].
  by rewrite app_nil_r.
Qed.

Lemma register_tokens_console_mono handler cs s line :
  line ∈ console s → line ∈ console (foldl (registerToken handler) s cs).
Proof.
  revert s. induction cs as [|c cs IH]; intros s Hin; simpl; [done|].
  apply IH. rewrite registerToken_console. apply elem_of_app. by left.
Qed.

Lemma register_tokens_warns handler cs s c :
  c ∈ cs → is_Some (registry s !! toLowerCase c) →
  conflict_warning (toLowerCase c) ∈ console (foldl (registerToken handler) s cs).
Proof.
  revert s. induction cs as [|c0 cs IH]; intros s Hin [h0 Hh0]; simpl.
  - by apply elem_of_nil in Hin.
  - apply elem_of_cons in Hin as [->|Hin].
    + apply register_tokens_console_mono.
      rewrite registerToken_console, Hh0. apply elem_of_app. right.
      by apply list_elem_of_singleton.
    + apply IH; [done|]. exists h0. by rewrite registerToken_lookup, Hh0.
Qed.

End Registry.

(** C1.  Whatever the sequence of calls of [registerCommands], each
    normalized token ends up mapped to the handler that held it before, and
    otherwise to the first handler of the sequence that declares it.  So a
    token that is already present keeps its handler and the colliding
    handler is skipped for that token only (a warning is logged), its
    tokens that are free are registered to it, and the call, a total
    function that touches nothing but the registry and the console, has no
    error to raise. *)
Theorem registerCommands_first_registrant_wins {node : NodeLib}
    (calls : list (list CommandHandler)) (s : t) :
  let s' := foldl (fun s hs => registerCommands hs s) s calls in
  (∀ k, registry s' !! k =
        match registry s !! k with
        | Some h0 => Some h0
        | None => first_registrant k (concat calls)
        end)
  ∧ (∀ k h0, registry s !! k = Some h0 → registry s' !! k = Some h0)
  ∧ (∀ h c, c ∈ ch_commands h →
       match registry s !! toLowerCase c with
       | Some h0 =>
           registry (registerCommands [h] s) !! toLowerCase c = Some h0
           ∧ conflict_warning (toLowerCase c) ∈ console (registerCommands [h] s)
       | None => registry (registerCommands [h] s) !! toLowerCase c = Some h
       end)
  ∧ pluginMetadata s' = pluginMetadata s
  ∧ loadedPlugins s' = loadedPlugins s.
Proof.
  intros s'. subst s'. rewrite registerCommands_calls.
  split; [|split; [|split]].
  - intros k. apply registerCommands_lookup.
  - intros k h0 Hk. by rewrite registerCommands_lookup, Hk.
  - intros h c Hc.
    destruct (registry s !! toLowerCase c) as [h0|] eqn:E.
    + split; [by rewrite registerCommands_lookup, E|].
      unfold registerCommands; simpl. by apply register_tokens_warns.
    + rewrite registerCommands_lookup, E. unfold first_registrant; simpl.
      unfold declares. rewrite bool_decide_true; [done|].
      by apply list_elem_of_fmap_2.
  - destruct (registerCommands_frame (concat calls) s) as (_ & -> & ->). done.
Qed.

(** ** Loading *)

Section Loading.
Context {node : NodeLib}.

Lemma registerCommands_one_by_one hs s :
  foldl (fun s handler => registerCommand handler s) s hs = registerCommands hs s.
Proof. done. Qed.

Lemma first_registrant_elem k hs h :
  first_registrant k hs = Some h → h ∈ hs ∧ declares k (ch_commands h) = true.
Proof.
  unfold first_registrant. intros Hf. apply find_some in Hf as [Hin Hd].
  split; [by apply list_elem_of_In|done].
Qed.

(** Up to the await of [init], a load touches the registry only, through
    the factory's own registrations. *)
Lemma loadPlugin_begin_spec w i s meta :
  pluginMetadata s !! i = Some meta → loaded meta = false →
  let x := import_module w (filePath meta) in
  let s1 := (loadPlugin_begin w i s).1 in
  (loadPlugin_begin w i s).2 = with_category (category meta) <$> exported_instance x
  ∧ registry s1 = registry (registerCommands (imperative_commands x) s)
  ∧ pluginMetadata s1 = pluginMetadata s
  ∧ loadedPlugins s1 = loadedPlugins s.
Proof.
  intros Hm Hl. unfold loadPlugin_begin. rewrite Hm, Hl. simpl.
  destruct (import_module w (filePath meta)) as [[p|run|]|e]; simpl; try done.
  rewrite registerCommands_one_by_one.
  destruct (registerCommands_frame (registered run) s) as (_ & Hmd & Hlp).
  by destruct (produced run).
Qed.

Lemma loadPlugin_finish_rejected i p s e :
  p_init p = Some (Rejected e) →
  registry (loadPlugin_finish i p s) = registry s
  ∧ pluginMetadata (loadPlugin_finish i p s) = pluginMetadata s
  ∧ loadedPlugins (loadPlugin_finish i p s) = loadedPlugins s
  ∧ (is_Some (pluginMetadata s !! i) →
     ∃ line, level line = ERROR ∧ console (loadPlugin_finish i p s) = console s ++ [line]).
Proof.
  intros Hi. unfold loadPlugin_finish. rewrite Hi.
  destruct (pluginMetadata s !! i) as [meta|]; simpl.
  - split_and!; [done..|]. intros _. eexists. split; [|done]. done.
  - split_and!; [done..|]. by intros [? ?].
Qed.

Lemma loadPlugin_finish_resolved i p s meta :
  pluginMetadata s !! i = Some meta →
  (∀ e, p_init p ≠ Some (Rejected e)) →
  registry (loadPlugin_finish i p s)
    = registry (registerCommands (default [] (p_commands p)) s)
  ∧ pluginMetadata (loadPlugin_finish i p s)
    = alter (mark_loaded p) i (pluginMetadata s)
  ∧ loadedPlugins (loadPlugin_finish i p s) = loadedPlugins s ++ [p].
Proof.
  intros Hm Hi. unfold loadPlugin_finish. rewrite Hm.
  assert (Hf : ∀ cmds, pluginMetadata (registerCommands cmds s) = pluginMetadata s
                       ∧ loadedPlugins (registerCommands cmds s) = loadedPlugins s).
  { intros cmds. by destruct (registerCommands_frame cmds s) as (_ & -> & ->). }
  destruct (p_init p) as [[[]|e]|]; [|by destruct (Hi e)|];
    destruct (p_commands p) as [cmds|]; simpl;
    try destruct (Hf cmds) as [-> ->]; done.
Qed.




(** *** Unloading *)

Lemma delete_tokens_lookup cs s k :
  registry (foldl (fun s command => set_registry (delete (toLowerCase command)) s)
                  s cs) !! k
  = if declares k cs then None else registry s !! k.
Proof.
  revert s. induction cs as [|c cs IH]; intros s; [done|].
  simpl. rewrite IH. simpl. unfold declares. rewrite fmap_cons.
  rewrite (bool_decide_ext (k ∈ toLowerCase c :: _) (k = toLowerCase c ∨ k ∈ toLowerCase <$> cs))
    by apply elem_of_cons.
  rewrite lookup_delete.
  destruct (bool_decide (k ∈ toLowerCase <$> cs)) eqn:Hcs.
  - apply bool_decide_eq_true in Hcs. by rewrite bool_decide_true by by right.
  - apply bool_decide_eq_false in Hcs. case_decide as Hk.
    + by rewrite bool_decide_true by (left; done).
    + by rewrite bool_decide_false by (intros [?|?]; done).
Qed.

(** Every token that the handlers declare leaves the registry, whoever
    it is mapped to; the other entries stay. *)
Lemma delete_commands_lookup hs s k :
  registry (delete_commands hs s) !! k
  = if existsb (fun h => declares k (ch_commands h)) hs then None
    else registry s !! k.
Proof.
  unfold delete_commands. revert s. induction hs as [|h hs IH]; intros s; [done|].
  simpl. rewrite IH, delete_tokens_lookup.
  by destruct (declares k (ch_commands h)), (existsb _ hs).
Qed.

(** *** Reloading *)

(** What [reloadPlugin] returns does not depend on what the load does. *)
Lemma reloadPlugin_result w path s :
  (reloadPlugin w path s).2
  = match find_metadata (path_normalize path) s with
    | None => Resolved (existsSync w path)
    | Some _ =>
        match require_resolve w path with
        | Resolved _ => Resolved true
        | Rejected e => Rejected e
        end
    end.
Proof.
  unfold reloadPlugin.
  destruct (find_metadata (path_normalize path) s) as [[metaIndex meta]|].
  - by destruct (require_resolve w path).
  - by destruct (existsSync w path).
Qed.

End Loading.

Section LoadingExamples.
#[local] Existing Instance posixLib.




(** The command that the factory of [eager.ts] registered is in the
    registry after the failed load. *)
Example eager_command_registered :
  let s := loadPlugin world 0 (discovered "general" ["eager.ts"]) in
  registry s !! "eager" = Some eagerCommand
  ∧ loaded <$> pluginMetadata s = [false] ∧ loadedPlugins s = [].
Proof. vm_compute. by split_and!. Qed.

(** C6 on the code: [ping.ts] is loaded first and holds the token [ping];
    [echo.ts], loaded next, declares [ping] too and is skipped for it.
    Unloading [echo.ts] removes the entry [ping], which maps to the handler
    of [ping.ts], from the registry. *)
Theorem unloadPlugin_removes_entry_of_first_registrant :
  let s := load_in_turn (discovered "utility" ["ping.ts"; "echo.ts"]) in
  let s' := (unloadPlugin "/bot/src/plugins/utility/echo.ts" s).1 in
  registry s !! "ping" = Some pingCommand
  ∧ registry s !! "echo" = Some echoCommand
  ∧ (unloadPlugin "/bot/src/plugins/utility/echo.ts" s).2 = true
  ∧ registry s' !! "ping" = None
  ∧ registry s' !! "pong" = Some pingCommand
  ∧ registry s' !! "echo" = None
  ∧ pid <$> loadedPlugins s' = [pid pingPlugin].
Proof. vm_compute. by split_and!. Qed.

(** C5 on the code: the reload of a new file whose [init] rejects returns
    [true], though the plugin is not loaded: its descriptor is added and
    stays unloaded, the loaded plugins are the ones from before, and its
    command is not in the registry. *)
Theorem reloadPlugin_true_after_failed_load :
  let s := load_in_turn (discovered "utility" ["ping.ts"]) in
  let r := reloadPlugin world "/bot/src/plugins/utility/broken.ts" s in
  r.2 = Resolved true
  ∧ loaded <$> pluginMetadata r.1 = [true; false]
  ∧ pid <$> loadedPlugins r.1 = [pid pingPlugin]
  ∧ registry r.1 !! "broken" = None.
Proof. vm_compute. by split_and!. Qed.

End LoadingExamples.

(** ** Dispatch *)

Section Dispatch.
Context {node : NodeLib}.

Lemma fallback_visits (l : list Plugin) (m : SerializedMessage) :
  ∃ visited rest,
    filter has_hook l = visited ++ rest
    ∧ hook_calls (fallback l m) = pid <$> visited
    ∧ command_calls (fallback l m) = []
    ∧ (∀ p, p ∈ removelast visited → ¬ claims m p)
    ∧ (rest ≠ [] → ∃ p, last visited = Some p ∧ claims m p)
    ∧ length (error_logs (fallback l m)) = length (filter (fun p => throws m p = true) visited).
Proof.
  induction l as [|p l (visited & rest & Hsplit & Hcalls & Hcmd & Hbefore & Hstop & Herr)].
  { exists [], []. repeat split; try done.
    intros p Hp. by apply elem_of_nil in Hp. }
  simpl. destruct (p_handleMessage p) as [hook|] eqn:Hp.
  2:{ exists visited, rest. rewrite filter_cons_False; [done|].
      unfold has_hook. rewrite Hp. by intros [? ?]. }
  rewrite filter_cons_True by (unfold has_hook; rewrite Hp; eauto).
  destruct (hook m) as [[|]|e] eqn:Hm.
  - exists [p], (filter has_hook l). repeat split; try done.
    + intros q Hq. by apply elem_of_nil in Hq.
    + intros _. exists p. split; [done|]. by exists hook.
    + simpl. rewrite filter_cons_False; [done|].
      unfold throws, hook_result. rewrite Hp; simpl. by rewrite Hm.
  - exists (p :: visited), rest. rewrite Hsplit. repeat split; try done.
    + simpl. by rewrite Hcalls.
    + intros q Hq. destruct visited as [|v visited]; [by apply elem_of_nil in Hq|].
      change (removelast (p :: v :: visited)) with (p :: removelast (v :: visited)) in Hq.
      apply elem_of_cons in Hq as [->|Hq]; [|by apply Hbefore].
      intros (hook' & Hh & Hr). congruence.
    + intros Hrest. destruct (Hstop Hrest) as (q & Hlast & Hq).
      exists q. split; [|done]. destruct visited; [done|]. by rewrite last_cons, Hlast.
    + simpl. rewrite filter_cons_False; [done|].
      unfold throws, hook_result. rewrite Hp; simpl. by rewrite Hm.
  - exists (p :: visited), rest. rewrite Hsplit. repeat split; try done.
    + simpl. by rewrite Hcalls.
    + intros q Hq. destruct visited as [|v visited]; [by apply elem_of_nil in Hq|].
      change (removelast (p :: v :: visited)) with (p :: removelast (v :: visited)) in Hq.
      apply elem_of_cons in Hq as [->|Hq]; [|by apply Hbefore].
      intros (hook' & Hh & Hr). congruence.
    + intros Hrest. destruct (Hstop Hrest) as (q & Hlast & Hq).
      exists q. split; [|done]. destruct visited; [done|]. by rewrite last_cons, Hlast.
    + simpl. rewrite filter_cons_True; [simpl; by rewrite Herr|].
      unfold throws, hook_result. rewrite Hp; simpl. by rewrite Hm.
Qed.

(** C2, as amended.  A message whose command is a non-empty string that
    the registry resolves, whatever its case, is handled by that command
    handler alone: the handler is called once with the message's
    arguments; if it rejects, the error is logged, the failure notice is
    sent to the sender and the dispatch ends there.  No generic hook is
    called in either case. *)
Theorem handleMessage_command_precedence (s : t) (m : SerializedMessage)
    (c : string) (h : CommandHandler) :
  msg_command m = Some c → c ≠ "" → registry s !! toLowerCase c = Some h →
  let args := default [] (msg_args m) in
  match ch_handler h m args with
  | Resolved _ => handleMessage s m = ([CommandCalled (hid h) args], Resolved ())
  | Rejected e =>
      handleMessage s m =
      ([CommandCalled (hid h) args;
        Logged ERROR ("Error handling command " +:+ c +:+ ": " +:+ e);
        ReplySent failure_notice],
       msg_reply m failure_notice)
  end
  ∧ command_calls (handleMessage s m).1 = [hid h]
  ∧ hook_calls (handleMessage s m).1 = [].
Proof.
  intros Hc Hne Hh args. unfold handleMessage. rewrite Hc.
  rewrite decide_False by done. rewrite Hh. unfold run_command. fold args.
  by destruct (ch_handler h m args).
Qed.

(** C3.  A message without a command, or whose command the registry does
    not resolve, goes to the generic hooks: they are called in the order
    of [loadedPlugins], which is the order in which the loads completed
    since a load appends its instance; a hook that did not return [true]
    (it returned [false], or it threw and the error was logged) is
    followed by the next one, and nothing is called after a hook that
    returned [true]. *)
Theorem handleMessage_fallback_in_load_order (s : t) (m : SerializedMessage) :
  (msg_command m = None
   ∨ ∃ c, msg_command m = Some c ∧ registry s !! toLowerCase c = None) →
  handleMessage s m = (fallback (loadedPlugins s) m, Resolved ())
  ∧ (∃ visited rest,
       filter has_hook (loadedPlugins s) = visited ++ rest
       ∧ hook_calls (handleMessage s m).1 = pid <$> visited
       ∧ command_calls (handleMessage s m).1 = []
       ∧ (∀ p, p ∈ removelast visited → ¬ claims m p)
       ∧ (rest ≠ [] → ∃ p, last visited = Some p ∧ claims m p)
       ∧ length (error_logs (handleMessage s m).1)
         = length (filter (fun p => throws m p = true) visited))
  ∧ (∀ w i meta p,
       pluginMetadata s !! i = Some meta → loaded meta = false →
       exported_instance (import_module w (filePath meta)) = Some p →
       (∀ e, p_init p ≠ Some (Rejected e)) →
       loadedPlugins (loadPlugin w i s)
       = loadedPlugins s ++ [with_category (category meta) p]).
Proof.
  intros Hm.
  assert (Hgen : handleMessage s m = (fallback (loadedPlugins s) m, Resolved ())).
  { unfold handleMessage. destruct Hm as [->|(c & -> & Hc)]; [done|].
    case_decide; [done|]. by rewrite Hc. }
  split; [done|]. rewrite Hgen. split; [apply fallback_visits|].
  intros w i meta p Hi Hl Hx Hinit.
  destruct (loadPlugin_begin_spec w i s meta Hi Hl) as (Hk & _ & Hmd & Hlp).
  unfold loadPlugin. destruct (loadPlugin_begin w i s) as [s1 k]. simpl in *.
  rewrite Hx in Hk. simpl in Hk. subst k.
  destruct (loadPlugin_finish_resolved i (with_category (category meta) p) s1 meta)
    as (_ & _ & ->); [by rewrite Hmd|done|by rewrite Hlp].
Qed.

End Dispatch.

Section DispatchExamples.
#[local] Existing Instance posixLib.

(** C2, as stated, fails on the empty command: a handler registered under
    the empty token is what the registry resolves the command [""] to,
    yet the dispatch does not call it and offers the message to the
    generic hooks. *)
Lemma handleMessage_empty_command_not_routed :
  let s := load_in_turn (discovered "general" ["blank.ts"; "greeter.ts"]) in
  let m := message "hello" "" ["hello"] in
  msg_command m = Some ""
  ∧ registry s !! toLowerCase "" = Some blankCommand
  ∧ handleMessage s m = ([HookCalled (pid greeterPlugin)], Resolved ())
  ∧ command_calls (handleMessage s m).1 ≠ [hid blankCommand].
Proof. vm_compute. by split_and!. Qed.

Lemma handleMessage_command_precedence_witness :
  let s := load_in_turn (discovered "utility" ["ping.ts"; "echo.ts"]) in
  let m := message "!PONG" "PONG" [] in
  (msg_command m = Some "PONG" ∧ "PONG" ≠ ""
   ∧ registry s !! toLowerCase "PONG" = Some pingCommand)
  ∧ handleMessage s m = ([CommandCalled 1 []], Resolved ())
  ∧ command_calls (handleMessage s m).1 = [1]
  ∧ hook_calls (handleMessage s m).1 = [].
Proof.
  intros s m.
  assert (H1 : msg_command m = Some "PONG") by reflexivity.
  assert (H2 : "PONG" ≠ "") by discriminate.
  assert (H3 : registry s !! toLowerCase "PONG" = Some pingCommand)
    by (vm_compute; reflexivity).
  split; [done|].
  exact (handleMessage_command_precedence s m "PONG" pingCommand H1 H2 H3).
Defined.

Lemma handleMessage_fallback_in_load_order_witness :
  let s := load_in_turn (discovered "general" ["fail.ts"; "greeter.ts"]) in
  let m := message "!help hello" "help" ["hello"] in
  (∃ c, msg_command m = Some c ∧ registry s !! toLowerCase c = None)
  ∧ handleMessage s m = ([HookCalled (pid greeterPlugin)], Resolved ()).
Proof.
  intros s m.
  assert (H1 : ∃ c, msg_command m = Some c ∧ registry s !! toLowerCase c = None).
  { exists "help". split; [reflexivity|]. vm_compute. reflexivity. }
  split; [done|].
  exact (proj1 (handleMessage_fallback_in_load_order s m (or_intror H1))).
Defined.

End DispatchExamples.

(** ** Discovery *)

Import LoaderViews.

Section Discovery.
Context {node : NodeLib}.

(** Induction on a directory tree: a listed directory inherits the
    property from its entries. *)
Lemma Dirent_tree_ind (P : Dirent → Prop) :
  (∀ name, P (File name)) →
  (∀ name, P (Other name)) →
  (∀ name e, P (Directory name (Rejected e))) →
  (∀ name items, Forall P items → P (Directory name (Resolved items))) →
  ∀ item, P item.
Proof.
  intros HFile HOther HRej HDir.
  fix IH 1. intros [name|name [items|e]|name].
  - apply HFile.
  - apply HDir. induction items as [|item items IHitems]; constructor.
    + apply IH.
    + apply IHitems.
  - apply HRej.
  - apply HOther.
Qed.

Lemma discoverItem_directory dirPath cat name sub s :
  discoverItem dirPath cat (Directory name (Resolved sub)) s
  = foldl (fun s item => discoverItem (path_join dirPath name) (Some name) item s)
          s sub.
Proof.
  simpl. revert s. induction sub as [|item sub IH]; intros s; [done|]. apply IH.
Qed.

Lemma walk_keeps_refl s : walk_keeps s s.
Proof.
  unfold walk_keeps. split_and!; try done. exists []. by rewrite app_nil_r.
Qed.

Lemma walk_keeps_trans s1 s2 s3 : walk_keeps s1 s2 → walk_keeps s2 s3 → walk_keeps s1 s3.
Proof.
  intros (Hd1 & Hr1 & Hl1 & a1 & Hm1 & Ha1) (Hd2 & Hr2 & Hl2 & a2 & Hm2 & Ha2).
  unfold walk_keeps. split_and!; try congruence.
  exists (a1 ++ a2). rewrite Hm2, Hm1, app_assoc. split; [done|]. by apply Forall_app.
Qed.

Lemma walk_keeps_log lv msg s : walk_keeps s (log lv msg s).
Proof.
  unfold walk_keeps. split_and!; try done. exists []. by rewrite app_nil_r.
Qed.

Lemma walk_keeps_fold (f : t → Dirent → t) items :
  Forall (fun item => ∀ s, walk_keeps s (f s item)) items →
  ∀ s, walk_keeps s (foldl f s items).
Proof.
  induction 1 as [|item items Hitem _ IH]; intros s; simpl; [apply walk_keeps_refl|].
  eapply walk_keeps_trans; [apply Hitem|apply IH].
Qed.

Lemma discoverItem_keeps item : ∀ dirPath cat s,
  walk_keeps s (discoverItem dirPath cat item s).
Proof.
  induction item as [name|name|name e|name items IH] using Dirent_tree_ind;
    intros dirPath cat s.
  - simpl. destruct (is_module_file name); [|apply walk_keeps_refl].
    unfold walk_keeps. split_and!; try done. eexists. split; [done|].
    by repeat constructor.
  - apply walk_keeps_refl.
  - apply walk_keeps_log.
  - rewrite discoverItem_directory. apply walk_keeps_fold.
    eapply Forall_impl; [exact IH|]. intros item Hitem s'. apply Hitem.
Qed.

Lemma discoverDirectory_keeps dirPath cat listing s :
  walk_keeps s (discoverDirectory dirPath cat listing s).
Proof.
  destruct listing as [items|e]; simpl; [|apply walk_keeps_log].
  apply walk_keeps_fold, Forall_forall. intros item _ s'. apply discoverItem_keeps.
Qed.

Lemma walk_keeps_elem s s' m :
  walk_keeps s s' → m ∈ pluginMetadata s → m ∈ pluginMetadata s'.
Proof.
  intros (_ & _ & _ & added & -> & _) Hin. apply elem_of_app. by left.
Qed.

Lemma fold_discover_finds items : ∀ dirs fname,
  occurs items dirs fname → is_module_file fname = true →
  ∀ dirPath cat s,
  ∃ m, m ∈ pluginMetadata
             (foldl (fun s item => discoverItem dirPath cat item s) s items)
       ∧ filePath m = foldl path_join dirPath (dirs ++ [fname])
       ∧ category m = from_option Some cat (last dirs)
       ∧ loaded m = false.
Proof.
  intros dirs fname Hocc Hfile. induction Hocc as
    [items fname Hin|items dir sub dirs fname Hin Hocc IH]; intros dirPath cat s.
  - apply list_elem_of_split in Hin as (l1 & l2 & ->).
    rewrite foldl_app. simpl. rewrite Hfile.
    set (s1 := foldl _ s l1).
    exists {| filePath := path_join dirPath fname; category := cat;
              loaded := false; plugin := None |}.
    split_and!; try done.
    eapply walk_keeps_elem.
    { apply walk_keeps_fold, Forall_forall. intros item _ s'.
      apply discoverItem_keeps. }
    simpl. apply elem_of_app. right. by apply list_elem_of_singleton.
  - apply list_elem_of_split in Hin as (l1 & l2 & ->).
    rewrite foldl_app. cbn [foldl]. rewrite discoverItem_directory.
    set (s1 := foldl _ s l1).
    destruct (IH Hfile (path_join dirPath dir) (Some dir) s1)
      as (m & Hm & Hpath & Hcat & Hl).
    exists m. split_and!; try done.
    + eapply walk_keeps_elem; [|exact Hm].
      apply walk_keeps_fold, Forall_forall. intros item _ s'.
      apply discoverItem_keeps.
    + rewrite Hcat, last_cons. by destruct (last dirs).
Qed.

Lemma occurs_elem item items dirs fname :
  item ∈ items → occurs [item] dirs fname → occurs items dirs fname.
Proof.
  intros Hin Hocc. inversion Hocc as [? ? Hitem|? ? ? ? ? Hitem Hsub]; subst.
  - apply list_elem_of_singleton in Hitem as <-. by constructor.
  - apply list_elem_of_singleton in Hitem as <-. by econstructor.
Qed.

Lemma fold_discover_found (tree : list Dirent) dirPath cat items :
  (∀ item, item ∈ items → item ∈ tree) →
  Forall (fun item => ∀ s m,
            m ∈ pluginMetadata (discoverItem dirPath cat item s) →
            m ∈ pluginMetadata s ∨ found_in [item] dirPath cat m) items →
  ∀ s m,
    m ∈ pluginMetadata (foldl (fun s item => discoverItem dirPath cat item s) s items) →
    m ∈ pluginMetadata s ∨ found_in tree dirPath cat m.
Proof.
  intros Hsub Hitems. induction Hitems as [|item items Hitem _ IH]; intros s m;
    [by left|].
  simpl. intros [Hin|Hnew]%IH.
  - apply Hitem in Hin as [Hin|(dirs & fname & Hocc & Hrest)]; [by left|right].
    exists dirs, fname. split; [|done].
    eapply occurs_elem; [|exact Hocc]. apply Hsub. by left.
  - by right.
  - intros item' Hin. apply Hsub. by right.
Qed.

Lemma discoverItem_found item : ∀ dirPath cat s m,
  m ∈ pluginMetadata (discoverItem dirPath cat item s) →
  m ∈ pluginMetadata s ∨ found_in [item] dirPath cat m.
Proof.
  induction item as [name|name|name e|name items IH] using Dirent_tree_ind;
    intros dirPath cat s m.
  - simpl. destruct (is_module_file name) eqn:Hname; [|by left].
    intros [Hin| ->%list_elem_of_singleton]%elem_of_app; [by left|right].
    exists [], name. split_and!; try done.
    apply occurs_here. by apply list_elem_of_singleton.
  - by left.
  - by left.
  - rewrite discoverItem_directory. intros Hin.
    apply (fold_discover_found items) in Hin; [|done|].
    2:{ eapply Forall_impl; [exact IH|]. intros item Hitem s' m'. apply Hitem. }
    destruct Hin as [Hin|(dirs & fname & Hocc & Hfile & Hpath & Hcat & Hl & Hp)];
      [by left|right].
    exists (name :: dirs), fname. split_and!; try done.
    + eapply occurs_below; [|exact Hocc]. by apply list_elem_of_singleton.
    + rewrite Hcat, last_cons. by destruct (last dirs).
Qed.

(** C4 on the code.  The category of a descriptor that discovery adds is
    the name of the directory that holds the file, at every depth, and not
    the name of the subdirectory of the root on the way to the file: every
    descriptor that is added is the one of a module file of the tree, with
    the name of the last directory on the way from the root as category;
    and a module file whose own directory has another name than the first
    directory on the way, which is two levels or more below the root, has
    a descriptor whose category is not the name of the first directory. *)
Theorem discoverPlugins_category (items : list Dirent) (s : t) :
  let s' := discoverPlugins (Some (Resolved items)) s in
  (∀ m, m ∈ pluginMetadata s' →
        m ∈ pluginMetadata s
        ∨ ∃ dirs fname,
            occurs items dirs fname
            ∧ is_module_file fname = true
            ∧ filePath m = foldl path_join (pluginsDir s) (dirs ++ [fname])
            ∧ category m = last dirs
            ∧ loaded m = false)
  ∧ (∀ dirs fname,
        occurs items dirs fname → is_module_file fname = true →
        head dirs ≠ last dirs →
        ∃ m, m ∈ pluginMetadata s'
             ∧ filePath m = foldl path_join (pluginsDir s) (dirs ++ [fname])
             ∧ category m = last dirs
             ∧ category m ≠ head dirs).
Proof.
  intros s'. subst s'. unfold discoverPlugins. simpl. split.
  - intros m Hin.
    apply (fold_discover_found items) in Hin; [|done|].
    2:{ apply Forall_forall. intros item _ s' m'. apply discoverItem_found. }
    destruct Hin as [Hin|(dirs & fname & Hocc & Hfile & Hpath & Hcat & Hl & _)];
      [by left|right].
    exists dirs, fname. split_and!; try done. rewrite Hcat. by destruct (last dirs).
  - intros dirs fname Hocc Hfile Hne.
    destruct (fold_discover_finds items dirs fname Hocc Hfile (pluginsDir s) None s)
      as (m & Hm & Hpath & Hcat & _).
    assert (Hown : category m = last dirs).
    { rewrite Hcat. by destruct (last dirs). }
    exists m. split_and!; try done. rewrite Hown. congruence.
Qed.

End Discovery.

Section DiscoveryExamples.
#[local] Existing Instance posixLib.

Lemma discoverPlugins_category_witness :
  let tree := [Directory "games"
                 (Resolved [File "dice.ts";
                            Directory "cards" (Resolved [File "poker.ts"])])] in
  let s' := discoverPlugins (Some (Resolved tree)) (create root) in
  (occurs tree ["games"; "cards"] "poker.ts" ∧ is_module_file "poker.ts" = true
   ∧ head ["games"; "cards"] ≠ last ["games"; "cards"])
  ∧ (∃ m, m ∈ pluginMetadata s'
          ∧ filePath m = "/bot/src/plugins/games/cards/poker.ts"
          ∧ category m = Some "cards"
          ∧ category m ≠ Some "games").
Proof.
  intros tree s'.
  assert (H1 : occurs tree ["games"; "cards"] "poker.ts").
  { eapply occurs_below; [apply elem_of_cons; by left|].
    eapply occurs_below; [apply elem_of_cons; right; apply elem_of_cons; by left|].
    apply occurs_here. apply elem_of_cons. by left. }
  assert (H2 : is_module_file "poker.ts" = true) by reflexivity.
  assert (H3 : head ["games"; "cards"] ≠ last ["games"; "cards"]) by discriminate.
  split; [done|].
  exact (proj2 (discoverPlugins_category tree (create root))
           ["games"; "cards"] "poker.ts" H1 H2 H3).
Defined.

(** The descriptors of the tree [games/dice.ts], [games/cards/poker.ts]:
    the category of the second is [cards]. *)
Example discoverPlugins_nested :
  let tree := [Directory "games"
                 (Resolved [File "dice.ts";
                            Directory "cards" (Resolved [File "poker.ts"])])] in
  pluginMetadata (discoverPlugins (Some (Resolved tree)) (create root))
  = [ {| filePath := "/bot/src/plugins/games/dice.ts"; category := Some "games";
         loaded := false; plugin := None |};
      {| filePath := "/bot/src/plugins/games/cards/poker.ts";
         category := Some "cards"; loaded := false; plugin := None |} ].
Proof. vm_compute. reflexivity. Qed.

(** Discovery and reload disagree on the same file: [reloadPlugin], for
    a file that has no descriptor, takes the first segment of the path
    from the root to the directory of the file (lines 316-320); for
    [games/cards/poker.ts] the category is [games]. *)
Example reloadPlugin_nested :
  let path := "/bot/src/plugins/games/cards/poker.ts" in
  let files := {| existsSync := fun p => bool_decide (p = path);
                  require_resolve := fun p => Resolved p;
                  import_module := fun _ => factory greeterPlugin |} in
  let tree := [Directory "games"
                 (Resolved [Directory "cards" (Resolved [File "poker.ts"])])] in
  (fun m => (filePath m, category m))
    <$> pluginMetadata (discoverPlugins (Some (Resolved tree)) (create root))
  = [(path, Some "cards")]
  ∧ (fun m => (filePath m, category m, loaded m))
      <$> pluginMetadata (reloadPlugin files path (create root)).1
    = [(path, Some "games", true)].
Proof. vm_compute. by split. Qed.

End DiscoveryExamples.

(** ** The monitor *)

Import Monitor.

Section Supervisor.
Context {node : NodeLib}.

Lemma quiet_refl s : quiet s s.
Proof. unfold quiet. split_and!; try done. exists []. by rewrite app_nil_r. Qed.

Lemma quiet_trans s1 s2 s3 : quiet s1 s2 → quiet s2 s3 → quiet s1 s3.
Proof.
  intros (Hc1 & Hs1 & Hd1 & Hn1 & Ht1 & a1 & Ho1 & H1)
         (Hc2 & Hs2 & Hd2 & Hn2 & Ht2 & a2 & Ho2 & H2).
  unfold quiet. split_and!; try congruence.
  exists (a1 ++ a2). rewrite Ho2, Ho1, app_assoc. split; [done|]. by apply Forall_app.
Qed.

Lemma quiet_emit a s :
  match a with Ran _ | Send _ _ => False | _ => True end → quiet s (emit a s).
Proof.
  intros Ha. unfold quiet. split_and!; try done.
  exists [a]. split; [done|]. by constructor.
Qed.

Lemma quiet_log lv msg s : quiet s (log lv msg s).
Proof. by apply quiet_emit. Qed.

Lemma omap_none {A B} (f : A → option B) (l : list A) :
  Forall (fun x => f x = None) l → omap f l = [].
Proof. induction 1 as [|x l Hx _ IH]; simpl; [done|]. by rewrite Hx. Qed.

Lemma quiet_debounced_runs s s' : quiet s s' → debounced_runs s' = debounced_runs s.
Proof.
  intros (_ & _ & _ & _ & _ & actions & Hout & Hq). unfold debounced_runs.
  rewrite Hout, omap_app, (omap_none _ actions), app_nil_r; [done|].
  eapply Forall_impl; [exact Hq|]. by intros [].
Qed.

Lemma quiet_sent s s' : quiet s s' → sent s' = sent s.
Proof.
  intros (_ & _ & _ & _ & _ & actions & Hout & Hq). unfold sent.
  rewrite Hout, omap_app, (omap_none _ actions), app_nil_r; [done|].
  eapply Forall_impl; [exact Hq|]. by intros [].
Qed.

Lemma quiet_then_log s s1 lv msg : quiet s s1 → quiet s (log lv msg s1).
Proof. intros Hs. eapply quiet_trans; [exact Hs|apply quiet_log]. Qed.

Lemma quiet_then_emit s s1 a :
  match a with Ran _ | Send _ _ => False | _ => True end →
  quiet s s1 → quiet s (emit a s1).
Proof. intros Ha Hs. eapply quiet_trans; [exact Hs|by apply quiet_emit]. Qed.

Lemma quiet_then_set_isRestarting s s1 v : quiet s s1 → quiet s (set_isRestarting v s1).
Proof.
  intros Hs. eapply quiet_trans; [exact Hs|].
  unfold quiet. split_and!; try done. exists []. by rewrite app_nil_r.
Qed.

Lemma quiet_then_set_currentProcess s s1 v :
  quiet s s1 → quiet s (set_currentProcess v s1).
Proof.
  intros Hs. eapply quiet_trans; [exact Hs|].
  unfold quiet. split_and!; try done. exists []. by rewrite app_nil_r.
Qed.

Lemma quiet_then_set_next_id s s1 v : quiet s s1 → quiet s (set_next_id v s1).
Proof.
  intros Hs. eapply quiet_trans; [exact Hs|].
  unfold quiet. split_and!; try done. exists []. by rewrite app_nil_r.
Qed.

Ltac quiet_steps :=
  repeat first
    [ apply quiet_refl
    | apply quiet_then_log
    | apply quiet_then_set_isRestarting
    | apply quiet_then_set_currentProcess
    | apply quiet_then_set_next_id
    | apply quiet_then_emit; [exact I|] ].

Lemma quiet_then_startAppProcess s s1 file :
  quiet s s1 → quiet s (startAppProcess file s1).
Proof.
  intros Hs. unfold startAppProcess.
  destruct (isShuttingDown s1); quiet_steps; exact Hs.
Qed.

Lemma quiet_then_startApp s s1 file : quiet s s1 → quiet s (startApp file s1).
Proof.
  intros Hs. unfold startApp. destruct (isRestarting s1); [quiet_steps; exact Hs|].
  destruct (currentProcess (set_isRestarting true s1)) as [pid|].
  - quiet_steps; exact Hs.
  - quiet_steps. apply quiet_then_startAppProcess. quiet_steps; exact Hs.
Qed.

(** A callback leaves the clock, the queue and the flags alone, and sends
    what [sends_of] says. *)
Lemma run_callback_spec connected cb s :
  let s' := run_callback connected cb s in
  cwd s' = cwd s ∧ isShuttingDown s' = isShuttingDown s
  ∧ debounceTimer s' = debounceTimer s ∧ now s' = now s
  ∧ timers s' = timers s
  ∧ debounced_runs s' = debounced_runs s
  ∧ sent s' = sent s ++ sends_of connected (cwd s) cb.
Proof.
  assert (Hq : ∀ s', quiet s s' →
    cwd s' = cwd s ∧ isShuttingDown s' = isShuttingDown s
    ∧ debounceTimer s' = debounceTimer s ∧ now s' = now s
    ∧ timers s' = timers s
    ∧ debounced_runs s' = debounced_runs s
    ∧ sent s' = sent s ++ []).
  { intros s' Hs'. rewrite app_nil_r, (quiet_debounced_runs _ _ Hs'), (quiet_sent _ _ Hs').
    destruct Hs' as (? & ? & ? & ? & ? & _). by split_and!. }
  assert (Hsend : ∀ s1 pid msg last, quiet s s1 →
    (∀ s2, quiet s2 (last s2)) →
    let s' := last (emit (Send pid msg) s1) in
    cwd s' = cwd s ∧ isShuttingDown s' = isShuttingDown s
    ∧ debounceTimer s' = debounceTimer s ∧ now s' = now s
    ∧ timers s' = timers s
    ∧ debounced_runs s' = debounced_runs s
    ∧ sent s' = sent s ++ [(pid, msg)]).
  { intros s1 pid msg last Hs1 Hlast s'. subst s'.
    rewrite (quiet_debounced_runs _ _ (Hlast _)), (quiet_sent _ _ (Hlast _)).
    destruct (Hlast (emit (Send pid msg) s1)) as (-> & -> & -> & -> & -> & _).
    unfold debounced_runs, sent. simpl. rewrite !omap_app. simpl. rewrite app_nil_r.
    fold (debounced_runs s1). fold (sent s1).
    rewrite (quiet_debounced_runs _ _ Hs1), (quiet_sent _ _ Hs1).
    destruct Hs1 as (? & ? & ? & ? & ? & _). by split_and!. }
  destruct cb as [file|file|proc mainFile filename]; simpl.
  - apply Hq, quiet_then_startAppProcess. quiet_steps.
  - apply Hq, quiet_then_startApp. quiet_steps.
  - destruct (is_plugin_file filename).
    + destruct (connected proc).
      * apply (Hsend _ _ _ (log SUCCESS _)); [|intros]; quiet_steps.
      * apply Hq. quiet_steps.
    + destruct (is_core_file mainFile filename).
      * apply Hq, quiet_then_startApp. quiet_steps.
      * destruct (connected proc).
        -- apply (Hsend _ _ _ (log INFO _)); [|intros]; quiet_steps.
        -- apply Hq. quiet_steps.
Qed.

(** *** The timer queue *)

Lemma earliest_Some time queue i timer :
  earliest time queue = Some (i, timer) →
  queue !! i = Some timer ∧ (due timer ≤ time)%Z.
Proof.
  revert i timer. induction queue as [|tm queue IH]; intros i timer; simpl; [done|].
  destruct (earliest time queue) as [[j other]|]; simpl.
  - destruct (IH j other eq_refl) as [Hj Hdue].
    case_decide; [case_decide|]; intros [= <- <-]; done.
  - case_decide; [|done]. by intros [= <- <-].
Qed.

Lemma earliest_None time queue :
  earliest time queue = None → Forall (fun timer => ¬ (due timer ≤ time)%Z) queue.
Proof.
  induction queue as [|tm queue IH]; simpl; [by constructor|].
  destruct (earliest time queue) as [[j other]|]; simpl.
  - case_decide; [case_decide|]; done.
  - case_decide; [done|]. intros _. constructor; [done|by apply IH].
Qed.

Lemma filter_delete_False {A} (P : A → Prop) `{∀ x, Decision (P x)}
    (l : list A) i x :
  l !! i = Some x → ¬ P x → filter P (delete i l) = filter P l.
Proof.
  revert i. induction l as [|y l IH]; intros [|i] Hi Hx; simplify_eq/=.
  - by rewrite filter_cons_False.
  - rewrite !filter_cons. by rewrite (IH i).
Qed.

Lemma filter_delete_True {A} (P : A → Prop) `{∀ x, Decision (P x)}
    (l : list A) i x :
  l !! i = Some x → P x → filter P l ≡ₚ x :: filter P (delete i l).
Proof.
  revert i. induction l as [|y l IH]; intros [|i] Hi Hx; simplify_eq/=.
  - by rewrite filter_cons_True.
  - rewrite !filter_cons. destruct (decide (P y)).
    + rewrite (IH i Hi Hx). apply Permutation_swap.
    + by apply IH.
Qed.

Lemma filter_Forall_id {A} (P : A → Prop) `{∀ x, Decision (P x)} (l : list A) :
  Forall P l → filter P l = l.
Proof.
  induction 1 as [|x l Hx _ IH]; [done|]. by rewrite filter_cons_True, IH.
Qed.

Lemma filter_Forall_nil {A} (P : A → Prop) `{∀ x, Decision (P x)} (l : list A) :
  Forall (fun x => ¬ P x) l → filter P l = [].
Proof.
  induction 1 as [|x l Hx _ IH]; [done|]. by rewrite filter_cons_False.
Qed.

Lemma fire_spec connected i timer s :
  let s' := fire connected i timer s in
  timers s' = delete i (timers s)
  ∧ cwd s' = cwd s ∧ isShuttingDown s' = isShuttingDown s
  ∧ debounceTimer s' = debounceTimer s
  ∧ now s' = Z.max (now s) (due timer)
  ∧ debounced_runs s'
    = debounced_runs s
      ++ (if is_debounced (callback timer) then [callback timer] else [])
  ∧ sent s' = sent s ++ sends_of connected (cwd s) (callback timer).
Proof.
  unfold fire.
  pose proof (run_callback_spec connected (callback timer)
    (emit (Ran (callback timer))
       (set_now (Z.max (now s) (due timer)) (set_timers (delete i (timers s)) s))))
    as (Hcwd & Hsd & Hdt & Hnow & Htm & Hruns & Hsent).
  simpl. split_and!; try done.
  - rewrite Hruns. unfold debounced_runs. simpl. rewrite omap_app. simpl.
    by destruct (is_debounced (callback timer)).
  - rewrite Hsent. unfold sent. simpl. rewrite omap_app. simpl.
    by rewrite app_nil_r.
Qed.

Lemma run_timers_spec connected time fuel : ∀ s,
  length (timers s) ≤ fuel → ran_due connected time s (run_timers fuel connected time s).
Proof.
  assert (Hnone : ∀ s, Forall (fun timer => ¬ (due timer ≤ time)%Z) (timers s) →
                       ran_due connected time s s).
  { intros s Hs. exists []. rewrite filter_Forall_nil by done.
    rewrite filter_Forall_id by done. simpl. rewrite !app_nil_r.
    split_and!; try done; lia. }
  induction fuel as [|fuel IH]; intros s Hlen; simpl.
  { apply Hnone. destruct (timers s); [constructor|simpl in Hlen; lia]. }
  destruct (earliest time (timers s)) as [[i timer]|] eqn:He;
    [|by apply Hnone, earliest_None].
  apply earliest_Some in He as [Hi Hdue].
  destruct (fire_spec connected i timer s)
    as (Htm & Hcwd & Hsd & Hdt & Hnow & Hruns & Hsent).
  destruct (IH (fire connected i timer s)) as
    (order & Hperm & Htm' & Hcwd' & Hsd' & Hdt' & Hnow' & Hruns' & Hsent').
  { rewrite Htm, length_delete by eauto. lia. }
  exists (timer :: order). rewrite Htm', Hcwd', Hsd', Hdt', Hruns', Hsent'.
  rewrite Htm, Hcwd, Hsd, Hdt, Hruns, Hsent. rewrite Htm in Hperm.
  rewrite Hnow in Hnow'.
  split_and!; try done.
  - rewrite Hperm. symmetry. by apply filter_delete_True.
  - apply filter_delete_False with timer; [done|]. by intros [].
  - lia.
  - lia.
  - rewrite fmap_cons, filter_cons.
    destruct (is_debounced (callback timer)) eqn:Hd; simpl.
    + by rewrite <- app_assoc.
    + by rewrite app_nil_r.
  - by rewrite fmap_cons, <- app_assoc.
Qed.

Lemma advance_spec connected time s :
  ran_due connected time s (advance connected time s)
  ∧ now (advance connected time s) = Z.max (now s) time.
Proof.
  destruct (run_timers_spec connected time (length (timers s)) s) as
    (order & Hperm & Htm & Hcwd & Hsd & Hdt & Hnow & Hruns & Hsent); [done|].
  unfold advance. split; [|simpl; lia].
  exists order. simpl. split_and!; try done; lia.
Qed.

(** *** Debouncing *)

Lemma sends_of_other connected dir cb :
  is_debounced cb = false → sends_of connected dir cb = [].
Proof. by destruct cb. Qed.

Lemma is_code_file_nonempty f : is_code_file f = true → f ≠ "".
Proof. by intros Hf ->. Qed.

Lemma on_change_spec proc mainFile et f s :
  is_code_file f = true → isShuttingDown s = false →
  let s' := on_change proc mainFile et (Some f) s in
  timers s'
  = match debounceTimer s with
    | Some handle => filter (fun timer => tid timer ≠ handle) (timers s)
    | None => timers s
    end
    ++ [ {| tid := next_id s; due := now s + DEBOUNCE_TIME;
            callback := Debounced proc mainFile f |} ]
  ∧ debounceTimer s' = Some (next_id s)
  ∧ cwd s' = cwd s ∧ isShuttingDown s' = false ∧ now s' = now s
  ∧ debounced_runs s' = debounced_runs s ∧ sent s' = sent s.
Proof.
  intros Hf Hsd. unfold on_change.
  rewrite decide_False by by apply is_code_file_nonempty.
  rewrite Hsd, Hf. simpl.
  unfold debounced_runs, sent.
  destruct (debounceTimer s); simpl; rewrite !omap_app; simpl;
    rewrite !app_nil_r; by split_and!.
Qed.

Lemma armed_idle proc mainFile ev s time :
  armed proc mainFile ev s → (time < at_time ev + DEBOUNCE_TIME)%Z →
  debounce_idle time s.
Proof.
  intros (handle & Hp & Hh & _) Ht timer. rewrite Hp.
  intros ->%list_elem_of_singleton. by split.
Qed.

Lemma filter_filter_swap {A} (P Q : A → Prop)
    `{∀ x, Decision (P x)} `{∀ x, Decision (Q x)} (l : list A) :
  filter P (filter Q l) = filter Q (filter P l).
Proof.
  induction l as [|x l IH]; [done|].
  rewrite !(filter_cons _ x).
  destruct (decide (Q x)), (decide (P x));
    rewrite ?filter_cons_True, ?filter_cons_False by done; by rewrite IH.
Qed.

(** While the debounce is idle, the passing of time runs no debounced
    callback and sends nothing. *)
Lemma advance_idle connected time s :
  debounce_idle time s →
  let s' := advance connected time s in
  pending_debounce s' = pending_debounce s
  ∧ debounceTimer s' = debounceTimer s
  ∧ cwd s' = cwd s ∧ isShuttingDown s' = isShuttingDown s
  ∧ now s' = Z.max (now s) time
  ∧ debounced_runs s' = debounced_runs s ∧ sent s' = sent s.
Proof.
  intros Hidle.
  destruct (advance_spec connected time s) as
    ((order & Hperm & Htm & Hcwd & Hsd & Hdt & _ & Hruns & Hsent) & Hnow).
  assert (Hquiet : Forall (fun timer => is_debounced (callback timer) = false) order).
  { apply Forall_forall. intros timer Hin. rewrite Hperm in Hin.
    apply list_elem_of_filter in Hin as [Hdue Hin].
    destruct (is_debounced (callback timer)) eqn:Hd; [|done].
    destruct (Hidle timer) as [_ Hlt]; [|lia].
    by apply list_elem_of_filter. }
  simpl. split_and!; try done.
  - unfold pending_debounce. rewrite Htm, filter_filter_swap.
    apply filter_Forall_id, Forall_forall. intros timer Hin. apply Hidle in Hin. lia.
  - rewrite Hruns. clear -Hquiet.
    induction Hquiet as [|timer order Hd _ IH]; simpl; [by rewrite app_nil_r|].
    rewrite filter_cons_False by by rewrite Hd. done.
  - rewrite Hsent. clear -Hquiet.
    induction Hquiet as [|timer order Hd _ IH]; simpl; [by rewrite app_nil_r|].
    by rewrite sends_of_other.
Qed.

(** An accepted event, coming when the debounce is idle, arms it. *)
Lemma on_change_arms connected proc mainFile ev s :
  debounce_idle (at_time ev) s → isShuttingDown s = false →
  (now s ≤ at_time ev)%Z → is_code_file (filename ev) = true →
  let s' := on_change proc mainFile (eventType ev) (Some (filename ev))
              (advance connected (at_time ev) s) in
  armed proc mainFile ev s'
  ∧ cwd s' = cwd s ∧ debounced_runs s' = debounced_runs s ∧ sent s' = sent s.
Proof.
  intros Hidle Hsd Hnow Hf.
  destruct (advance_idle connected (at_time ev) s Hidle)
    as (Hp & Hdt & Hcwd & Hsd' & Hnow' & Hruns & Hsent).
  remember (advance connected (at_time ev) s) as s1 eqn:Es1. clear Es1.
  destruct (on_change_spec proc mainFile (eventType ev) (filename ev) s1 Hf)
    as (Htm & Hdt2 & Hcwd2 & Hsd2 & Hnow2 & Hruns2 & Hsent2); [congruence|].
  cbv zeta. split; [|split_and!; congruence].
  exists (next_id s1). split_and!; [|done|lia|done].
  unfold pending_debounce. rewrite Htm, filter_app.
  assert (Hclear :
    filter (fun timer => is_debounced (callback timer) = true)
      match debounceTimer s1 with
      | Some handle => filter (fun timer => tid timer ≠ handle) (timers s1)
      | None => timers s1
      end = []).
  { apply filter_Forall_nil, Forall_forall. intros timer Hin Hd.
    assert (Hpend : timer ∈ pending_debounce s).
    { rewrite <- Hp. apply list_elem_of_filter. split; [done|].
      destruct (debounceTimer s1); [|done].
      by apply list_elem_of_filter in Hin as [_ Hin]. }
    destruct (Hidle timer Hpend) as [Hh _]. rewrite Hdt, Hh in Hin.
    by apply list_elem_of_filter in Hin as [Hne _]. }
  rewrite Hclear, app_nil_l, filter_cons_True, filter_nil by done.
  unfold debounce_timer. rewrite Hnow'. do 2 f_equal. lia.
Qed.

Lemma deliver_armed connected proc mainFile rest : ∀ ev s,
  armed proc mainFile ev s →
  Forall (fun ev => is_code_file (filename ev) = true) rest →
  within_window (at_time ev) rest →
  let s' := deliver connected proc mainFile rest s in
  armed proc mainFile (default ev (last rest)) s'
  ∧ cwd s' = cwd s ∧ debounced_runs s' = debounced_runs s ∧ sent s' = sent s.
Proof.
  induction rest as [|ev' rest IH]; intros ev s Harmed Hcode Hwin; simpl; [done|].
  apply Forall_cons in Hcode as [Hf Hcode]. destruct Hwin as [Hev' Hwin].
  destruct (on_change_arms connected proc mainFile ev' s)
    as (Harmed' & Hcwd & Hruns & Hsent); try done.
  { eapply armed_idle; [done|lia]. }
  { by destruct Harmed as (_ & _ & _ & _ & ?). }
  { destruct Harmed as (_ & _ & _ & -> & _). lia. }
  destruct (IH ev' _ Harmed' Hcode Hwin) as (Hlast & Hcwd' & Hruns' & Hsent').
  rewrite last_cons.
  destruct (last rest) as [ev''|]; simpl in *; split_and!; congruence.
Qed.

Lemma concat_sends_none connected dir (order : list Timer) :
  filter (fun timer => is_debounced (callback timer) = true) order = [] →
  concat (sends_of connected dir ∘ callback <$> order) = [].
Proof.
  induction order as [|x order IH]; [done|].
  rewrite filter_cons, fmap_cons. simpl.
  destruct (is_debounced (callback x)) eqn:Hd; simpl; [done|].
  intros Hrest. by rewrite sends_of_other, IH.
Qed.

Lemma concat_sends_single connected dir (order : list Timer) timer :
  filter (fun timer => is_debounced (callback timer) = true) order = [timer] →
  concat (sends_of connected dir ∘ callback <$> order)
  = sends_of connected dir (callback timer).
Proof.
  induction order as [|x order IH]; [done|].
  rewrite filter_cons, fmap_cons. simpl.
  destruct (is_debounced (callback x)) eqn:Hd; simpl.
  - intros [= -> Hrest]. by rewrite concat_sends_none, app_nil_r.
  - intros Hrest. by rewrite sends_of_other, IH.
Qed.

(** Once the window of the last event has passed, its callback runs, and
    it alone. *)
Lemma advance_armed connected proc mainFile ev s time :
  armed proc mainFile ev s → (at_time ev + DEBOUNCE_TIME ≤ time)%Z →
  let s' := advance connected time s in
  debounced_runs s' = debounced_runs s ++ [Debounced proc mainFile (filename ev)]
  ∧ sent s'
    = sent s ++ sends_of connected (cwd s) (Debounced proc mainFile (filename ev))
  ∧ pending_debounce s' = [].
Proof.
  intros (handle & Hp & Hh & Hnow & Hsd) Htime.
  destruct (advance_spec connected time s) as
    ((order & Hperm & Htm & Hcwd & _ & _ & _ & Hruns & Hsent) & _).
  assert (Hdeb : filter (fun timer => is_debounced (callback timer) = true) order
                 = [debounce_timer proc mainFile ev handle]).
  { apply Permutation_singleton_r. rewrite Hperm, filter_filter_swap.
    fold (pending_debounce s). rewrite Hp.
    by rewrite filter_cons_True by (simpl; lia). }
  simpl. split_and!.
  - rewrite Hruns. f_equal.
    change [Debounced proc mainFile (filename ev)]
      with (callback <$> [debounce_timer proc mainFile ev handle]).
    rewrite <- Hdeb. clear.
    induction order as [|x order IH]; [done|].
    rewrite fmap_cons, !filter_cons.
    destruct (decide (is_debounced (callback x) = true)); simpl; by rewrite IH.
  - rewrite Hsent. f_equal. by apply (concat_sends_single _ _ _ _ Hdeb).
  - unfold pending_debounce. rewrite Htm, filter_filter_swap.
    fold (pending_debounce s). rewrite Hp.
    by rewrite filter_cons_False by (simpl; lia).
Qed.

(** C9, as amended.  A burst of changes of code files ([.ts] or [.js],
    outside [node_modules]) reaches the watcher while the monitor is not
    shutting down and no debounced callback is waiting, each change less
    than 500 ms after the one before.  Nothing is done for it until 500 ms
    have passed since its last event; then the debounced callback runs
    once, for the file of the last event.  When that file is a plugin
    file, a single [reloadPlugin] with its path is sent if the channel of
    the worker is open, and nothing is sent if it is not. *)
Theorem debounce_runs_once_for_last_event (connected : nat → bool) (proc : nat)
    (mainFile : string) (first : FileEvent) (rest : list FileEvent) (s : t)
    (time : Z) :
  isShuttingDown s = false →
  pending_debounce s = [] →
  (now s ≤ at_time first)%Z →
  Forall (fun ev => is_code_file (filename ev) = true) (first :: rest) →
  within_window (at_time first) rest →
  let final := default first (last rest) in
  (at_time final + DEBOUNCE_TIME ≤ time)%Z →
  let s1 := deliver connected proc mainFile (first :: rest) s in
  let s2 := advance connected time s1 in
  (∀ earlier, (earlier < at_time final + DEBOUNCE_TIME)%Z →
     debounced_runs (advance connected earlier s1) = debounced_runs s
     ∧ sent (advance connected earlier s1) = sent s)
  ∧ debounced_runs s2 = debounced_runs s ++ [Debounced proc mainFile (filename final)]
  ∧ (is_plugin_file (filename final) = true →
     sent s2
     = sent s
       ++ if connected proc
          then [(proc, ReloadPlugin (path_join (path_join (cwd s) "src")
                                                (filename final)))]
          else [])
  ∧ pending_debounce s2 = [].
Proof.
  intros Hsd Hpending Hnow [Hf Hcode]%Forall_cons Hwin final Htime s1 s2.
  destruct (on_change_arms connected proc mainFile first s)
    as (Harmed & Hcwd & Hruns & Hsent); try done.
  { intros timer. rewrite Hpending. by intros ?%elem_of_nil. }
  destruct (deliver_armed connected proc mainFile rest first _ Harmed Hcode Hwin)
    as (Hfinal & Hcwd' & Hruns' & Hsent').
  fold final in Hfinal. change (deliver connected proc mainFile rest _) with s1 in *.
  destruct (advance_armed connected proc mainFile final s1 time Hfinal Htime)
    as (Hruns2 & Hsent2 & Hp2).
  fold s2 in Hruns2, Hsent2, Hp2.
  split_and!.
  - intros earlier Hearlier.
    destruct (advance_idle connected earlier s1) as (_ & _ & _ & _ & _ & -> & ->).
    { by eapply armed_idle. }
    split; congruence.
  - rewrite Hruns2. congruence.
  - intros Hplugin. rewrite Hsent2, Hsent', Hsent, Hcwd', Hcwd. simpl.
    by rewrite Hplugin.
  - done.
Qed.

(** *** Exit of the worker *)

Lemma close_watchers_frame (ws : list Watcher) : ∀ s,
  let s' := foldl (fun s watcher => emit (CloseWatcher (wid watcher)) s) s ws in
  timers s' = timers s ∧ next_id s' = next_id s ∧ now s' = now s
  ∧ isRestarting s' = isRestarting s ∧ isShuttingDown s' = isShuttingDown s.
Proof.
  induction ws as [|w ws IH]; intros s; simpl; [done|].
  destruct (IH (emit (CloseWatcher (wid w)) s)) as (-> & -> & -> & -> & ->). done.
Qed.

Lemma cleanupFileWatchers_frame s :
  timers (cleanupFileWatchers s) = timers s
  ∧ next_id (cleanupFileWatchers s) = next_id s
  ∧ now (cleanupFileWatchers s) = now s
  ∧ isRestarting (cleanupFileWatchers s) = isRestarting s
  ∧ isShuttingDown (cleanupFileWatchers s) = isShuttingDown s.
Proof.
  unfold cleanupFileWatchers. case_decide; [|done]. simpl.
  apply (close_watchers_frame (fileWatchers s)
           (log INFO ("Cleaning up " +:+ pretty (length (fileWatchers s))
                      +:+ " file watchers") s)).
Qed.

(** C8.  When the worker exits with code zero, the exit handler sets no
    timer.  When it exits with another code (or with none, on a signal)
    while the monitor is neither shutting down nor restarting, the handler
    sets one timer, due 5000 ms later, whose callback is the restart
    [startApp(file)].  While the monitor is shutting down or restarting,
    no timer is set either. *)
Theorem on_exit_restart_policy (file : string) (code : option Z) (s : t) :
  let s' := on_exit file code s in
  (code = Some 0%Z → timers s' = timers s)
  ∧ (code ≠ Some 0%Z → isShuttingDown s = false → isRestarting s = false →
     timers s'
     = timers s ++ [ {| tid := next_id s; due := now s + 5000;
                        callback := RestartAfterExit file |} ])
  ∧ (isShuttingDown s = true ∨ isRestarting s = true → timers s' = timers s)
  ∧ (∀ connected s0,
       run_callback connected (RestartAfterExit file) s0 = startApp file s0).
Proof.
  intros s'. subst s'. unfold on_exit.
  destruct (isShuttingDown s) eqn:Hsd.
  { split_and!; try done. }
  set (s1 := if decide (code = Some 0%Z) then _ else _).
  assert (Hs1 : timers s1 = timers s ∧ next_id s1 = next_id s ∧ now s1 = now s
                ∧ isRestarting s1 = isRestarting s
                ∧ isShuttingDown s1 = isShuttingDown s).
  { subst s1. by case_decide. }
  destruct Hs1 as (Ht & Hn & Hnow & Hr & Hs).
  destruct (cleanupFileWatchers_frame (set_currentProcess None s1))
    as (Ht' & Hn' & Hnow' & Hr' & Hs').
  simpl in *. rewrite Hr', Hs', Hr, Hs, Hsd.
  split_and!.
  - intros ->. rewrite bool_decide_false by by intros []. simpl. congruence.
  - intros Hcode _ Hrestarting. rewrite bool_decide_true, Hrestarting by done.
    simpl. congruence.
  - intros [?|Hrestarting]; [done|]. rewrite Hrestarting, andb_false_r.
    simpl. congruence.
  - done.
Qed.

End Supervisor.

Section SupervisorExamples.
#[local] Existing Instance posixLib.

Lemma on_exit_restart_policy_witness :
  (Some 1%Z ≠ Some 0%Z ∧ isShuttingDown watching = false
   ∧ isRestarting watching = false)
  ∧ timers (on_exit entry (Some 1%Z) watching)
    = [ {| tid := 102; due := 5000; callback := RestartAfterExit entry |} ].
Proof.
  assert (H1 : Some 1%Z ≠ Some 0%Z) by discriminate.
  assert (H2 : isShuttingDown watching = false) by reflexivity.
  assert (H3 : isRestarting watching = false) by reflexivity.
  split; [done|].
  exact (proj1 (proj2 (on_exit_restart_policy entry (Some 1%Z) watching)) H1 H2 H3).
Defined.

(** C9, as stated, fails when the channel of the worker is closed: the
    three changes of the plugin file [plugins/utility/ping.ts], 120 ms
    apart, end in one run of the debounced callback, which sends no
    [reloadPlugin]. *)
Lemma debounce_sends_nothing_when_disconnected :
  let closed := fun _ : nat => false in
  let s := advance closed 2000 (deliver closed 100 entry burst watching) in
  Forall (fun ev => is_plugin_file (filename ev) = true) burst
  ∧ within_window 1000 burst
  ∧ debounced_runs s = [Debounced 100 entry "plugins/utility/ping.ts"]
  ∧ sent s = []
  ∧ sent s ≠ [(100, ReloadPlugin "/bot/src/plugins/utility/ping.ts")].
Proof.
  vm_compute. split_and!; try done. repeat constructor.
Qed.

Lemma debounce_runs_once_for_last_event_witness :
  let opened := fun _ : nat => true in
  let first := {| at_time := 1000; eventType := "change";
                  filename := "plugins/utility/ping.ts" |} in
  let rest := [ {| at_time := 1120; eventType := "change";
                   filename := "plugins/utility/ping.ts" |};
                {| at_time := 1240; eventType := "rename";
                   filename := "plugins/utility/echo.ts" |} ] in
  (isShuttingDown watching = false ∧ pending_debounce watching = []
   ∧ (now watching ≤ at_time first)%Z
   ∧ Forall (fun ev => is_code_file (filename ev) = true) (first :: rest)
   ∧ within_window (at_time first) rest
   ∧ (1240 + DEBOUNCE_TIME ≤ 1740)%Z)
  ∧ debounced_runs (advance opened 1740 (deliver opened 100 entry (first :: rest) watching))
    = [Debounced 100 entry "plugins/utility/echo.ts"]
  ∧ sent (advance opened 1740 (deliver opened 100 entry (first :: rest) watching))
    = [(100, ReloadPlugin "/bot/src/plugins/utility/echo.ts")].
Proof.
  intros opened first rest.
  assert (H1 : isShuttingDown watching = false) by reflexivity.
  assert (H2 : pending_debounce watching = []) by reflexivity.
  assert (H3 : (now watching ≤ at_time first)%Z) by (vm_compute; discriminate).
  assert (H4 : Forall (fun ev => is_code_file (filename ev) = true) (first :: rest))
    by (repeat constructor).
  assert (H5 : within_window (at_time first) rest)
    by (vm_compute; repeat split; discriminate).
  assert (H6 : (at_time (default first (last rest)) + DEBOUNCE_TIME ≤ 1740)%Z)
    by (vm_compute; discriminate).
  split; [split_and!; try done; vm_compute; discriminate|].
  pose proof (debounce_runs_once_for_last_event opened 100 entry first rest watching
                1740 H1 H2 H3 H4 H5 H6) as (_ & Hruns & Hsent & _).
  split; [exact Hruns|]. exact (Hsent eq_refl).
Defined.

End SupervisorExamples.

(** * Further properties *)

Import PluginLoader.
Import LoaderViews.

(** ** Discovery *)

Section DiscoveryMore.
Context {node : NodeLib}.

(** X1.  Discovery runs no plugin code and forgets nothing: the registry
    and the loaded plugins are as before, the descriptors that were there
    keep their places and their state, and the descriptors that are added
    are unloaded and without instance.  When the plugins directory is
    missing or cannot be read, no descriptor is added. *)
Theorem discoverPlugins_keeps (root : option (completion (list Dirent))) (s : t) :
  let s' := discoverPlugins root s in
  registry s' = registry s
  ∧ loadedPlugins s' = loadedPlugins s
  ∧ (∃ added, pluginMetadata s' = pluginMetadata s ++ added
              ∧ Forall (fun m => loaded m = false ∧ plugin m = None) added)
  ∧ (∀ i m, pluginMetadata s !! i = Some m → pluginMetadata s' !! i = Some m)
  ∧ match root with
    | Some (Resolved _) => True
    | _ => pluginMetadata s' = pluginMetadata s
    end.
Proof.
  intros s'. subst s'. unfold discoverPlugins.
  destruct root as [listing|]; simpl.
  - destruct (discoverDirectory_keeps (pluginsDir s) None listing s)
      as (_ & Hr & Hl & added & Hm & Ha).
    split_and!; try done.
    + by exists added.
    + intros i m Hi. rewrite Hm. by apply lookup_app_l_Some.
    + by destruct listing.
  - split_and!; try done. exists []. by rewrite app_nil_r.
Qed.

(** X2.  Discovery misses no module: a file whose name ends in [.ts] or
    [.js] and that lies below the root, through directories that can be
    listed, has a descriptor, with the path of the file, with the name of
    the directory that holds it as category, and unloaded.  A sibling
    that cannot be listed does not hide it. *)
Theorem discoverPlugins_finds (items : list Dirent) (s : t)
    (dirs : list string) (fname : string) :
  occurs items dirs fname → is_module_file fname = true →
  ∃ m, m ∈ pluginMetadata (discoverPlugins (Some (Resolved items)) s)
       ∧ filePath m = foldl path_join (pluginsDir s) (dirs ++ [fname])
       ∧ category m = last dirs
       ∧ loaded m = false.
Proof.
  intros Hocc Hfile.
  destruct (fold_discover_finds items dirs fname Hocc Hfile (pluginsDir s) None s)
    as (m & Hm & Hpath & Hcat & Hl).
  exists m. split_and!; try done. rewrite Hcat. by destruct (last dirs).
Qed.

End DiscoveryMore.

Section DiscoveryMoreExamples.
#[local] Existing Instance posixLib.

Lemma discoverPlugins_finds_witness :
  let tree := [Directory "broken" (Rejected "EACCES");
               Directory "games"
                 (Resolved [Other "link"; Directory "cards" (Resolved [File "poker.js"])])] in
  (occurs tree ["games"; "cards"] "poker.js" ∧ is_module_file "poker.js" = true)
  ∧ ∃ m, m ∈ pluginMetadata (discoverPlugins (Some (Resolved tree)) (create root))
         ∧ filePath m = "/bot/src/plugins/games/cards/poker.js"
         ∧ category m = Some "cards"
         ∧ loaded m = false.
Proof.
  intros tree.
  assert (H1 : occurs tree ["games"; "cards"] "poker.js").
  { eapply occurs_below; [apply elem_of_cons; right; apply elem_of_cons; by left|].
    eapply occurs_below; [apply elem_of_cons; right; apply elem_of_cons; by left|].
    apply occurs_here. apply elem_of_cons. by left. }
  assert (H2 : is_module_file "poker.js" = true) by reflexivity.
  split; [done|].
  exact (discoverPlugins_finds tree (create root) ["games"; "cards"] "poker.js" H1 H2).
Defined.

End DiscoveryMoreExamples.

(** ** Loading, once more *)

Section LoadingMore.
Context {node : NodeLib}.

Lemma first_registrant_app k hs1 hs2 :
  first_registrant k (hs1 ++ hs2)
  = match first_registrant k hs1 with
    | Some h => Some h
    | None => first_registrant k hs2
    end.
Proof.
  unfold first_registrant. induction hs1 as [|h hs1 IH]; simpl; [done|].
  by destruct (declares k (ch_commands h)).
Qed.

Lemma registerCommands_pluginsDir hs s :
  pluginsDir (registerCommands hs s) = pluginsDir s.
Proof. by destruct (registerCommands_frame hs s) as (-> & _). Qed.

Lemma loadPlugin_begin_pluginsDir w i s :
  pluginsDir (loadPlugin_begin w i s).1 = pluginsDir s.
Proof.
  unfold loadPlugin_begin. destruct (pluginMetadata s !! i) as [meta|]; [|done].
  destruct (loaded meta); [done|].
  destruct (import_module w (filePath meta)) as [[q|run|]|e]; simpl; try done.
  rewrite registerCommands_one_by_one.
  destruct (produced run); simpl; apply registerCommands_pluginsDir.
Qed.

Lemma loadPlugin_finish_pluginsDir i p s :
  pluginsDir (loadPlugin_finish i p s) = pluginsDir s.
Proof.
  unfold loadPlugin_finish. destruct (pluginMetadata s !! i) as [meta|]; [|done].
  destruct (p_init p) as [[|]|]; simpl; try done;
    destruct (p_commands p); simpl; try done; apply registerCommands_pluginsDir.
Qed.

Lemma loadPlugin_pluginsDir w i s : pluginsDir (loadPlugin w i s) = pluginsDir s.
Proof.
  unfold loadPlugin. pose proof (loadPlugin_begin_pluginsDir w i s) as Hb.
  destruct (loadPlugin_begin w i s) as [s1 [p|]]; simpl in *; [|done].
  by rewrite loadPlugin_finish_pluginsDir.
Qed.

Lemma loadPlugin_loaded (w : World) (s : t) (i : nat) (meta : PluginMetadata)
    (p : Plugin) :
  pluginMetadata s !! i = Some meta → loaded meta = false →
  exported_instance (import_module w (filePath meta)) = Some p →
  (∀ e, p_init p ≠ Some (Rejected e)) →
  let s' := loadPlugin w i s in
  let instance := with_category (category meta) p in
  let offered := imperative_commands (import_module w (filePath meta))
                 ++ default [] (p_commands p) in
  pluginsDir s' = pluginsDir s
  ∧ pluginMetadata s' = <[i := mark_loaded instance meta]> (pluginMetadata s)
  ∧ loadedPlugins s' = loadedPlugins s ++ [instance]
  ∧ (∀ k, registry s' !! k = match registry s !! k with
                             | Some h => Some h
                             | None => first_registrant k offered
                             end).
Proof.
  intros Hi Hl Hx Hinit s' instance offered.
  assert (Hdir : pluginsDir s' = pluginsDir s) by apply loadPlugin_pluginsDir.
  destruct (loadPlugin_begin_spec w i s meta Hi Hl) as (Hk & Hreg & Hmd & Hlp).
  subst s'. unfold loadPlugin in *.
  destruct (loadPlugin_begin w i s) as [s1 k] eqn:Hbegin. simpl in *.
  rewrite Hx in Hk. simpl in Hk. subst k. fold instance in Hdir |- *.
  clear Hdir.
  destruct (loadPlugin_finish_resolved i instance s1 meta)
    as (Hreg' & Hmd' & Hlp'); [by rewrite Hmd|done|].
  rewrite Hmd', Hlp', Hmd, Hlp. split_and!; try done.
  - by rewrite loadPlugin_finish_pluginsDir,
      <- (loadPlugin_begin_pluginsDir w i s), Hbegin.
  - apply list_eq. intros j. destruct (decide (i = j)) as [<-|Hne].
    + rewrite list_lookup_alter_eq, Hi. simpl.
      by rewrite list_lookup_insert_eq by by eapply lookup_lt_Some.
    + by rewrite list_lookup_alter_ne, list_lookup_insert_ne.
  - intros k. rewrite Hreg'.
    change (p_commands instance) with (p_commands p).
    rewrite registerCommands_lookup.
    assert (Hs1 : registry s1 !! k
                  = registry (registerCommands
                      (imperative_commands (import_module w (filePath meta))) s) !! k)
      by by rewrite Hreg.
    rewrite Hs1, registerCommands_lookup.
    destruct (registry s !! k); [done|].
    unfold offered. by rewrite first_registrant_app.
Qed.

(** X3.  A load that succeeds (the module yields an instance and [init],
    if there is one, does not reject) marks the descriptor as loaded,
    stores the instance in it with the category of the descriptor in place
    of its own, leaves the other descriptors alone, appends the instance
    to the loaded plugins, and registers the handlers that the factory
    passed to the context, then the declared ones: a normalized token
    keeps the handler it had, and a free one goes to the first of these
    handlers that declares it. *)
Theorem loadPlugin_success (w : World) (s : t) (i : nat) (meta : PluginMetadata)
    (p : Plugin) :
  pluginMetadata s !! i = Some meta → loaded meta = false →
  exported_instance (import_module w (filePath meta)) = Some p →
  (∀ e, p_init p ≠ Some (Rejected e)) →
  let s' := loadPlugin w i s in
  let instance := with_category (category meta) p in
  let offered := imperative_commands (import_module w (filePath meta))
                 ++ default [] (p_commands p) in
  pluginMetadata s' = <[i := mark_loaded instance meta]> (pluginMetadata s)
  ∧ p_category instance = category meta
  ∧ loadedPlugins s' = loadedPlugins s ++ [instance]
  ∧ (∀ k, registry s' !! k = match registry s !! k with
                             | Some h => Some h
                             | None => first_registrant k offered
                             end).
Proof.
  intros Hi Hl Hx Hinit s' instance offered.
  destruct (loadPlugin_loaded w s i meta p Hi Hl Hx Hinit) as (_ & Hmd & Hlp & Hreg).
  by split_and!.
Qed.

(** X4.  A descriptor that has been loaded is not loaded again: after a
    load that succeeded, one more load of the same descriptor changes
    nothing, whatever the module has become in the meantime. *)
Theorem loadPlugin_twice (w w' : World) (s : t) (i : nat) (meta : PluginMetadata)
    (p : Plugin) :
  pluginMetadata s !! i = Some meta → loaded meta = false →
  exported_instance (import_module w (filePath meta)) = Some p →
  (∀ e, p_init p ≠ Some (Rejected e)) →
  loadPlugin w' i (loadPlugin w i s) = loadPlugin w i s.
Proof.
  intros Hi Hl Hx Hinit.
  destruct (loadPlugin_loaded w s i meta p Hi Hl Hx Hinit) as (_ & Hmd & _).
  unfold loadPlugin at 1. unfold loadPlugin_begin. rewrite Hmd.
  by rewrite list_lookup_insert_eq by by eapply lookup_lt_Some.
Qed.

(** X5.  A load that fails before [init] (the module cannot be imported,
    it has no default export, or its factory throws) is caught: the
    descriptors and the loaded plugins are as before, the error is logged,
    and the registry holds what was there and what the factory registered
    through the context before it threw; nothing else. *)
Theorem loadPlugin_no_instance (w : World) (s : t) (i : nat)
    (meta : PluginMetadata) :
  pluginMetadata s !! i = Some meta → loaded meta = false →
  exported_instance (import_module w (filePath meta)) = None →
  let s' := loadPlugin w i s in
  let registered_first := imperative_commands (import_module w (filePath meta)) in
  pluginMetadata s' = pluginMetadata s
  ∧ loadedPlugins s' = loadedPlugins s
  ∧ registry s' = registry (registerCommands registered_first s)
  ∧ (registered_first = [] → registry s' = registry s)
  ∧ (∃ line, level line = ERROR ∧ last (console s') = Some line).
Proof.
  intros Hi Hl Hx s' registered_first. subst s' registered_first.
  unfold loadPlugin, loadPlugin_begin. rewrite Hi, Hl.
  destruct (import_module w (filePath meta)) as [[p|run|]|e]; simpl in *; try done.
  - destruct (produced run) as [p|e] eqn:Hrun; [done|].
    rewrite registerCommands_one_by_one.
    destruct (registerCommands_frame (registered run) s) as (_ & Hmd & Hlp).
    simpl. split_and!; try done.
    + by intros ->.
    + eexists. split; [|apply last_snoc]. done.
  - split_and!; try done. eexists. split; [|apply last_snoc]. done.
  - split_and!; try done. eexists. split; [|apply last_snoc]. done.
Qed.

End LoadingMore.

Section LoadingMoreExamples.
#[local] Existing Instance posixLib.

Lemma loadPlugin_success_witness :
  let s := discovered "utility" ["ping.ts"] in
  let meta := {| filePath := "/bot/src/plugins/utility/ping.ts";
                 category := Some "utility"; loaded := false; plugin := None |} in
  (pluginMetadata s !! 0 = Some meta ∧ loaded meta = false
   ∧ exported_instance (import_module world (filePath meta)) = Some pingPlugin
   ∧ ∀ e, p_init pingPlugin ≠ Some (Rejected e))
  ∧ loadedPlugins (loadPlugin world 0 s)
    = [with_category (Some "utility") pingPlugin].
Proof.
  intros s meta.
  assert (H1 : pluginMetadata s !! 0 = Some meta) by (vm_compute; reflexivity).
  assert (H2 : loaded meta = false) by reflexivity.
  assert (H3 : exported_instance (import_module world (filePath meta))
               = Some pingPlugin) by (vm_compute; reflexivity).
  assert (H4 : ∀ e, p_init pingPlugin ≠ Some (Rejected e)) by (intros e; discriminate).
  split; [done|].
  exact (proj1 (proj2 (proj2 (loadPlugin_success world s 0 meta pingPlugin H1 H2 H3 H4)))).
Defined.

Lemma loadPlugin_twice_witness :
  let s := discovered "utility" ["ping.ts"] in
  let meta := {| filePath := "/bot/src/plugins/utility/ping.ts";
                 category := Some "utility"; loaded := false; plugin := None |} in
  (pluginMetadata s !! 0 = Some meta ∧ loaded meta = false
   ∧ exported_instance (import_module world (filePath meta)) = Some pingPlugin
   ∧ ∀ e, p_init pingPlugin ≠ Some (Rejected e))
  ∧ loadPlugin world 0 (loadPlugin world 0 s) = loadPlugin world 0 s.
Proof.
  intros s meta.
  assert (H1 : pluginMetadata s !! 0 = Some meta) by (vm_compute; reflexivity).
  assert (H2 : loaded meta = false) by reflexivity.
  assert (H3 : exported_instance (import_module world (filePath meta))
               = Some pingPlugin) by (vm_compute; reflexivity).
  assert (H4 : ∀ e, p_init pingPlugin ≠ Some (Rejected e)) by (intros e; discriminate).
  split; [done|].
  exact (loadPlugin_twice world world s 0 meta pingPlugin H1 H2 H3 H4).
Defined.

Lemma loadPlugin_no_instance_witness :
  let s := discovered "utility" ["missing.ts"] in
  let meta := {| filePath := "/bot/src/plugins/utility/missing.ts";
                 category := Some "utility"; loaded := false; plugin := None |} in
  (pluginMetadata s !! 0 = Some meta ∧ loaded meta = false
   ∧ exported_instance (import_module world (filePath meta)) = None)
  ∧ pluginMetadata (loadPlugin world 0 s) = pluginMetadata s
  ∧ loadedPlugins (loadPlugin world 0 s) = loadedPlugins s.
Proof.
  intros s meta.
  assert (H1 : pluginMetadata s !! 0 = Some meta) by (vm_compute; reflexivity).
  assert (H2 : loaded meta = false) by reflexivity.
  assert (H3 : exported_instance (import_module world (filePath meta)) = None)
    by (vm_compute; reflexivity).
  split; [done|].
  pose proof (loadPlugin_no_instance world s 0 meta H1 H2 H3) as (Hmd & Hlp & _).
  split; [exact Hmd|exact Hlp].
Defined.

End LoadingMoreExamples.

(** ** Unloading *)

Section Unloading.
Context {node : NodeLib}.

Lemma delete_commands_frame hs s :
  pluginsDir (delete_commands hs s) = pluginsDir s
  ∧ pluginMetadata (delete_commands hs s) = pluginMetadata s
  ∧ loadedPlugins (delete_commands hs s) = loadedPlugins s
  ∧ console (delete_commands hs s) = console s.
Proof.
  unfold delete_commands. revert s. induction hs as [|h hs IH]; intros s; [done|].
  simpl. destruct (IH (foldl (fun s command =>
      set_registry (delete (toLowerCase command)) s) s (ch_commands h)))
    as (-> & -> & -> & ->).
  generalize (ch_commands h). intros cs. revert s.
  induction cs as [|c cs IHc]; intros s; [done|]. simpl.
  by destruct (IHc (set_registry (delete (toLowerCase c)) s)) as (-> & -> & -> & ->).
Qed.

(** The state and the answer of an unload that goes through. *)
Lemma unloadPlugin_found path s i meta p :
  find_metadata (path_normalize path) s = Some (i, meta) →
  loaded meta = true → plugin meta = Some p →
  let s' := (unloadPlugin path s).1 in
  (unloadPlugin path s).2 = true
  ∧ pluginsDir s' = pluginsDir s
  ∧ registry s' = registry (delete_commands (default [] (p_commands p)) s)
  ∧ pluginMetadata s' = alter mark_unloaded i (pluginMetadata s)
  ∧ loadedPlugins s' = remove_loaded p (loadedPlugins s).
Proof.
  intros Hfind Hl Hp. unfold unloadPlugin. rewrite Hfind, Hl, Hp. simpl.
  destruct (p_commands p) as [hs|]; simpl; [|done].
  by destruct (delete_commands_frame hs s) as (-> & -> & -> & _).
Qed.

Lemma unloadPlugin_refused path s :
  (unloadPlugin path s).2 = false → (unloadPlugin path s).1 = s.
Proof.
  unfold unloadPlugin.
  destruct (find_metadata (path_normalize path) s) as [[i meta]|]; [|done].
  destruct (loaded meta); [|done]. by destruct (plugin meta).
Qed.

Lemma find_metadata_alter normalizedPath s s' i meta f :
  find_metadata normalizedPath s = Some (i, meta) →
  pluginMetadata s' = alter f i (pluginMetadata s) →
  filePath (f meta) = filePath meta →
  find_metadata normalizedPath s' = Some (i, f meta).
Proof.
  unfold find_metadata. intros Hfind Hmd Hpath.
  apply list_find_Some in Hfind as (Hi & Hnorm & Hfirst).
  rewrite Hmd. apply list_find_Some. split_and!.
  - by rewrite list_lookup_alter_eq, Hi.
  - by rewrite Hpath.
  - intros j y Hj Hlt. rewrite list_lookup_alter_ne in Hj by lia. by eapply Hfirst.
Qed.

(** X6.  What an unload that goes through does.  The descriptor found for
    the path becomes unloaded and loses its instance, and keeps its path
    and its category; the other descriptors are untouched.  Every token
    that the handlers of the instance declare leaves the registry, and
    every other entry stays as it is, also those that the plugin
    registered through the context.  The instance leaves the loaded
    plugins, and the instances with another identity stay, in order. *)
Theorem unloadPlugin_effect (path : string) (s : t) (i : nat)
    (meta : PluginMetadata) (p : Plugin) :
  find_metadata (path_normalize path) s = Some (i, meta) →
  loaded meta = true → plugin meta = Some p →
  let s' := (unloadPlugin path s).1 in
  (unloadPlugin path s).2 = true
  ∧ pluginMetadata s'
    = <[i := {| filePath := filePath meta; category := category meta;
                loaded := false; plugin := None |}]> (pluginMetadata s)
  ∧ (∀ k, registry s' !! k
          = if existsb (fun h => declares k (ch_commands h))
                       (default [] (p_commands p))
            then None else registry s !! k)
  ∧ filter (fun q => pid q ≠ pid p) (loadedPlugins s')
    = filter (fun q => pid q ≠ pid p) (loadedPlugins s)
  ∧ (pid p ∈ pid <$> loadedPlugins s →
     length (loadedPlugins s) = S (length (loadedPlugins s'))).
Proof.
  intros Hfind Hl Hp s'.
  destruct (unloadPlugin_found path s i meta p Hfind Hl Hp)
    as (Hres & _ & Hreg & Hmd & Hlp).
  fold s' in Hreg, Hmd, Hlp. rewrite Hmd, Hlp, Hreg.
  apply list_find_Some in Hfind as (Hi & _).
  split_and!; try done.
  - apply list_eq. intros j. destruct (decide (i = j)) as [<-|Hne].
    + rewrite list_lookup_alter_eq, Hi. simpl.
      by rewrite list_lookup_insert_eq by by eapply lookup_lt_Some.
    + by rewrite list_lookup_alter_ne, list_lookup_insert_ne.
  - intros k. apply delete_commands_lookup.
  - unfold remove_loaded.
    destruct (list_find _ (loadedPlugins s)) as [[j q]|] eqn:Hj; [|done].
    apply list_find_Some in Hj as (Hj & Hq & _).
    apply (filter_delete_False _ _ j q Hj). by intros [].
  - intros Hin. unfold remove_loaded.
    destruct (list_find _ (loadedPlugins s)) as [[j q]|] eqn:Hj.
    + apply list_find_Some in Hj as (Hj & _).
      rewrite length_delete by eauto. apply lookup_lt_Some in Hj. lia.
    + apply list_elem_of_fmap in Hin as (q & Hq & Hin).
      eapply list_find_None, Forall_forall in Hj; [|exact Hin]. by destruct Hj.
Qed.

(** X7.  An unload is not done twice: whatever the path and the state,
    unloading the same path once more answers [false] and changes
    nothing.  An unload that answers [false] has changed nothing
    either. *)
Theorem unloadPlugin_twice (path : string) (s : t) :
  unloadPlugin path (unloadPlugin path s).1 = ((unloadPlugin path s).1, false)
  ∧ ((unloadPlugin path s).2 = false → (unloadPlugin path s).1 = s).
Proof.
  split; [|apply unloadPlugin_refused].
  assert (Hrefused : ∀ s0, (unloadPlugin path s0).2 = false →
                           unloadPlugin path s0 = (s0, false)).
  { intros s0 H0. pose proof (unloadPlugin_refused path s0 H0) as H1.
    destruct (unloadPlugin path s0). simpl in *. congruence. }
  destruct (find_metadata (path_normalize path) s) as [[i meta]|] eqn:Hfind.
  2:{ assert (Hs : unloadPlugin path s = (s, false)).
      { unfold unloadPlugin. by rewrite Hfind. }
      rewrite Hs. simpl. apply Hs. }
  destruct (loaded meta) eqn:Hl.
  2:{ assert (Hs : unloadPlugin path s = (s, false)).
      { unfold unloadPlugin. by rewrite Hfind, Hl. }
      rewrite Hs. simpl. apply Hs. }
  destruct (plugin meta) as [p|] eqn:Hp.
  2:{ assert (Hs : unloadPlugin path s = (s, false)).
      { unfold unloadPlugin. by rewrite Hfind, Hl, Hp. }
      rewrite Hs. simpl. apply Hs. }
  destruct (unloadPlugin_found path s i meta p Hfind Hl Hp) as (_ & _ & _ & Hmd & _).
  pose proof (find_metadata_alter _ s _ i meta mark_unloaded Hfind Hmd eq_refl) as Hfind'.
  apply Hrefused. unfold unloadPlugin at 1. by rewrite Hfind'.
Qed.

(** X8.  [unloadPlugins] empties the registry and the list of loaded
    plugins and marks every descriptor as unloaded, without instance; the
    descriptors stay, with their paths and categories.  Afterwards no
    message reaches a handler or a hook, and no path can be unloaded. *)
Theorem unloadPlugins_clears (s : t) :
  let s' := unloadPlugins s in
  registry s' = ∅ ∧ loadedPlugins s' = []
  ∧ filePath <$> pluginMetadata s' = filePath <$> pluginMetadata s
  ∧ category <$> pluginMetadata s' = category <$> pluginMetadata s
  ∧ Forall (fun m => loaded m = false ∧ plugin m = None) (pluginMetadata s')
  ∧ (∀ message, handleMessage s' message = ([], Resolved ()))
  ∧ (∀ path, unloadPlugin path s' = (s', false)).
Proof.
  intros s'. subst s'. unfold unloadPlugins. simpl. split_and!; try done.
  - rewrite <- list_fmap_compose. by apply list_fmap_ext.
  - rewrite <- list_fmap_compose. by apply list_fmap_ext.
  - apply Forall_fmap, Forall_true. done.
  - intros message. unfold handleMessage. simpl.
    destruct (msg_command message) as [c|]; [|done].
    case_decide; [done|]. by rewrite lookup_empty.
  - intros path. unfold unloadPlugin.
    destruct (find_metadata _ _) as [[i meta]|] eqn:Hfind; [|done].
    unfold find_metadata in Hfind. simpl in Hfind.
    apply list_find_Some in Hfind as (Hi & _).
    apply list_lookup_fmap_Some in Hi as (m & -> & _). done.
Qed.

End Unloading.

Section UnloadingExamples.
#[local] Existing Instance posixLib.

Lemma unloadPlugin_effect_witness :
  let s := load_in_turn (discovered "utility" ["ping.ts"; "echo.ts"]) in
  let path := "/bot/src/plugins/utility/./ping.ts" in
  let p := with_category (Some "utility") pingPlugin in
  let meta := {| filePath := "/bot/src/plugins/utility/ping.ts";
                 category := Some "utility"; loaded := true; plugin := Some p |} in
  (find_metadata (path_normalize path) s = Some (0, meta)
   ∧ loaded meta = true ∧ plugin meta = Some p)
  ∧ (unloadPlugin path s).2 = true.
Proof.
  intros s path p meta.
  assert (H1 : find_metadata (path_normalize path) s = Some (0, meta))
    by (vm_compute; reflexivity).
  assert (H2 : loaded meta = true) by reflexivity.
  assert (H3 : plugin meta = Some p) by reflexivity.
  split; [done|].
  exact (proj1 (unloadPlugin_effect path s 0 meta p H1 H2 H3)).
Defined.

End UnloadingExamples.

(** ** Descriptors and loaded plugins *)

Section Consistency.
Context {node : NodeLib}.

Lemma omap_plugin_loaded l i m p :
  l !! i = Some m → plugin m = None →
  omap plugin (alter (mark_loaded p) i l) ≡ₚ p :: omap plugin l.
Proof.
  revert i. induction l as [|x l IH]; intros [|i] Hi Hm; simplify_eq/=.
  - by rewrite Hm.
  - destruct (plugin x) as [q|]; simpl.
    + rewrite (IH i Hi Hm). apply Permutation_swap.
    + by apply IH.
Qed.

Lemma omap_plugin_unloaded l i m p :
  l !! i = Some m → plugin m = Some p →
  omap plugin l ≡ₚ p :: omap plugin (alter mark_unloaded i l).
Proof.
  revert i. induction l as [|x l IH]; intros [|i] Hi Hm; simplify_eq/=.
  - by rewrite Hm.
  - destruct (plugin x) as [q|]; simpl.
    + rewrite (IH i Hi Hm). apply Permutation_swap.
    + by apply IH.
Qed.

Lemma consistent_same s s' :
  pluginMetadata s' = pluginMetadata s → loadedPlugins s' = loadedPlugins s →
  consistent s → consistent s'.
Proof. unfold consistent, instances. by intros -> ->. Qed.

Lemma consistent_added s s' added :
  pluginMetadata s' = pluginMetadata s ++ added →
  Forall (fun m => loaded m = false ∧ plugin m = None) added →
  loadedPlugins s' = loadedPlugins s →
  consistent s → consistent s'.
Proof.
  unfold consistent, instances. intros -> Hadded -> [Hflags Hperm]. split.
  - apply Forall_app. split; [done|].
    eapply Forall_impl; [exact Hadded|]. intros m [-> ->]. split; [done|].
    by intros [? ?].
  - rewrite omap_app, (omap_none plugin added), app_nil_r; [done|].
    eapply Forall_impl; [exact Hadded|]. by intros m [_ ?].
Qed.

Lemma consistent_loadPlugin w i s : consistent s → consistent (loadPlugin w i s).
Proof.
  intros Hs. destruct (pluginMetadata s !! i) as [meta|] eqn:Hi.
  2:{ unfold loadPlugin, loadPlugin_begin. by rewrite Hi. }
  destruct (loaded meta) eqn:Hl.
  { unfold loadPlugin, loadPlugin_begin. by rewrite Hi, Hl. }
  destruct (loadPlugin_begin_spec w i s meta Hi Hl) as (Hk & _ & Hmd & Hlp).
  unfold loadPlugin. destruct (loadPlugin_begin w i s) as [s1 k]. simpl in *.
  destruct k as [p|]; [|by apply (consistent_same s)].
  destruct (p_init p) as [[[]|e]|] eqn:Hinit.
  2:{ destruct (loadPlugin_finish_rejected i p s1 e Hinit) as (_ & Hmd' & Hlp' & _).
      apply (consistent_same s); congruence. }
  all: destruct (loadPlugin_finish_resolved i p s1 meta) as (_ & Hmd' & Hlp');
    [by rewrite Hmd|by rewrite Hinit|].
  all: destruct Hs as [Hflags Hperm]; split.
  all: rewrite ?Hmd', ?Hlp', ?Hmd, ?Hlp.
  1,3: apply Forall_alter; [done|].
  1,2: intros m _; simpl; split; [by eexists|done].
  all: unfold instances; rewrite Hmd', Hmd.
  all: rewrite (omap_plugin_loaded _ i meta p Hi), fmap_app, fmap_cons, Hperm;
    [by rewrite <- Permutation_cons_append|].
  all: eapply Forall_lookup_1 in Hflags; [|exact Hi].
  all: destruct (plugin meta) eqn:Hp; [|done].
  all: by rewrite (proj2 Hflags) in Hl by by eexists.
Qed.

Lemma consistent_unloadPlugin path s :
  consistent s → consistent (unloadPlugin path s).1.
Proof.
  intros Hs.
  destruct ((unloadPlugin path s).2) eqn:Hres;
    [|by rewrite (unloadPlugin_refused path s Hres)].
  unfold unloadPlugin in Hres.
  destruct (find_metadata (path_normalize path) s) as [[i meta]|] eqn:Hfind; [|done].
  destruct (loaded meta) eqn:Hl; [|done].
  destruct (plugin meta) as [p|] eqn:Hp; [|done]. clear Hres.
  destruct (unloadPlugin_found path s i meta p Hfind Hl Hp)
    as (_ & _ & _ & Hmd & Hlp).
  apply list_find_Some in Hfind as (Hi & _).
  destruct Hs as [Hflags Hperm]. split.
  - rewrite Hmd. apply Forall_alter; [done|].
    intros m _. simpl. split; [done|]. by intros [? ?].
  - unfold instances in *. rewrite Hmd, Hlp.
    rewrite (omap_plugin_unloaded _ i meta p Hi Hp), fmap_cons in Hperm.
    unfold remove_loaded.
    destruct (list_find _ (loadedPlugins s)) as [[j q]|] eqn:Hj.
    + apply list_find_Some in Hj as (Hj & Hq & _).
      rewrite (delete_Permutation _ j q Hj), fmap_cons, Hq in Hperm.
      by apply Permutation_cons_inv in Hperm.
    + assert (Hin : pid p ∈ pid <$> loadedPlugins s).
      { rewrite Hperm. apply elem_of_cons. by left. }
      apply list_elem_of_fmap in Hin as (q & Hq & Hin).
      eapply list_find_None, Forall_forall in Hj; [|exact Hin]. by destruct Hj.
Qed.

Lemma omap_length_loaded (l : list PluginMetadata) :
  Forall (fun m => loaded m = true ↔ is_Some (plugin m)) l →
  length (omap plugin l) = length (filter (fun m => loaded m = true) l).
Proof.
  induction 1 as [|m l Hm _ IH]; [done|]. rewrite filter_cons.
  change (omap plugin (m :: l))
    with (match plugin m with Some p => p :: omap plugin l | None => omap plugin l end).
  destruct (plugin m) as [p|].
  - rewrite decide_True by (apply Hm; by eexists). simpl. by rewrite IH.
  - rewrite decide_False; [done|]. intros Hl. apply Hm in Hl. by destruct Hl.
Qed.

(** X9.  The descriptors and the loaded plugins stay in agreement.  A new
    loader is consistent, and discovery, a load, an unload, a reload and
    [unloadPlugins] keep a consistent state consistent.  In such a state
    the number of loaded plugins is the number of descriptors marked as
    loaded, and an unload goes through exactly when the first descriptor of
    the path is marked as loaded: a loaded descriptor without instance
    does not occur. *)
Theorem consistent_kept (w : World) (root : option (completion (list Dirent)))
    (path : string) (i : nat) (s : t) :
  consistent s →
  consistent (discoverPlugins root s)
  ∧ consistent (loadPlugin w i s)
  ∧ consistent (unloadPlugin path s).1
  ∧ consistent (reloadPlugin w path s).1
  ∧ consistent (unloadPlugins s)
  ∧ consistent (create (pluginsDir s))
  ∧ length (loadedPlugins s)
    = length (filter (fun m => loaded m = true) (pluginMetadata s))
  ∧ ((unloadPlugin path s).2 = true
     ↔ ∃ j meta, find_metadata (path_normalize path) s = Some (j, meta)
                 ∧ loaded meta = true).
Proof.
  intros Hs. split_and!.
  - unfold discoverPlugins. destruct root as [listing|]; [|by apply (consistent_same s)].
    destruct (discoverDirectory_keeps (pluginsDir s) None listing s)
      as (_ & _ & Hlp & added & Hmd & Hadded).
    by eapply (consistent_added s _ added).
  - by apply consistent_loadPlugin.
  - by apply consistent_unloadPlugin.
  - unfold reloadPlugin.
    destruct (find_metadata (path_normalize path) s) as [[j meta]|].
    + destruct (require_resolve w path); simpl;
        [apply consistent_loadPlugin|]; by apply consistent_unloadPlugin.
    + destruct (existsSync w path); simpl; [|by apply (consistent_same s)].
      apply consistent_loadPlugin.
      eapply (consistent_added s); [done| |done|done]. by repeat constructor.
  - split.
    + unfold unloadPlugins. simpl. apply Forall_fmap, Forall_true. intros m. simpl.
      split; [done|]. by intros [? ?].
    + unfold instances, unloadPlugins. simpl.
      rewrite omap_none; [done|]. by apply Forall_fmap, Forall_true.
  - split; [constructor|reflexivity].
  - destruct Hs as [Hflags Hperm].
    rewrite <- (length_fmap pid), Hperm, length_fmap. by apply omap_length_loaded.
  - unfold unloadPlugin.
    destruct (find_metadata (path_normalize path) s) as [[j meta]|] eqn:Hfind.
    2:{ split; [done|]. by intros (? & ? & ? & _). }
    destruct (loaded meta) eqn:Hl; simpl.
    2:{ split; [done|]. intros (? & ? & [= <- <-] & ?). congruence. }
    destruct Hs as [Hflags _]. apply list_find_Some in Hfind as (Hj & _).
    eapply Forall_lookup_1 in Hflags; [|exact Hj].
    destruct (proj1 Hflags Hl) as [p ->]. simpl. split; [eauto|done].
Qed.

End Consistency.

Section ConsistencyExamples.
#[local] Existing Instance posixLib.

Lemma consistent_kept_witness :
  let s := load_in_turn (discovered "utility" ["ping.ts"; "broken.ts"; "echo.ts"]) in
  consistent s
  ∧ length (loadedPlugins s)
    = length (filter (fun m => loaded m = true) (pluginMetadata s)).
Proof.
  intros s.
  assert (H1 : consistent s).
  { split; [|vm_compute; reflexivity].
    vm_compute.
    repeat (apply Forall_cons; split;
            [split; [intros ?; try discriminate; by eexists
                    |intros [? ?]; try discriminate; reflexivity]|]).
    constructor. }
  split; [exact H1|].
  exact (proj1 (proj2 (proj2 (proj2 (proj2 (proj2 (proj2
           (consistent_kept world None "" 0 s H1)))))))).
Defined.

End ConsistencyExamples.

(** ** Reloading *)

Section Reloading.
Context {node : NodeLib}.

(** The two ways a load of an unloaded descriptor ends. *)
Lemma loadPlugin_cases w i s meta :
  pluginMetadata s !! i = Some meta → loaded meta = false →
  let s' := loadPlugin w i s in
  let x := import_module w (filePath meta) in
  (∃ p, exported_instance x = Some p ∧ (∀ e, p_init p ≠ Some (Rejected e))
        ∧ pluginMetadata s'
          = <[i := mark_loaded (with_category (category meta) p) meta]>
              (pluginMetadata s)
        ∧ loadedPlugins s' = loadedPlugins s ++ [with_category (category meta) p])
  ∨ ((exported_instance x = None
      ∨ ∃ p e, exported_instance x = Some p ∧ p_init p = Some (Rejected e))
     ∧ pluginMetadata s' = pluginMetadata s
     ∧ loadedPlugins s' = loadedPlugins s).
Proof.
  intros Hi Hl s' x.
  destruct (exported_instance x) as [p|] eqn:Hx.
  - destruct (p_init p) as [[[]|e]|] eqn:Hinit.
    2:{ right. split; [right; eauto|].
        destruct (loadPlugin_begin_spec w i s meta Hi Hl) as (Hk & _ & Hmd & Hlp).
        subst s'. unfold loadPlugin.
        destruct (loadPlugin_begin w i s) as [s1 k]. simpl in *.
        fold x in Hk. rewrite Hx in Hk. simpl in Hk. subst k.
        destruct (loadPlugin_finish_rejected i (with_category (category meta) p)
                    s1 e Hinit) as (_ & -> & -> & _). done. }
    all: left; exists p.
    all: assert (Hok : ∀ e, p_init p ≠ Some (Rejected e)) by (intros e; by rewrite Hinit).
    all: destruct (loadPlugin_loaded w s i meta p Hi Hl Hx Hok) as (_ & Hmd & Hlp & _).
    all: by split_and!.
  - right. split; [by left|].
    destruct (loadPlugin_begin_spec w i s meta Hi Hl) as (Hk & _ & Hmd & Hlp).
    subst s'. unfold loadPlugin.
    destruct (loadPlugin_begin w i s) as [s1 k]. simpl in *.
    fold x in Hk. rewrite Hx in Hk. simpl in Hk. by subst k.
Qed.

Lemma insert_same_path (l : list PluginMetadata) i m m' :
  l !! i = Some m → filePath m' = filePath m →
  filePath <$> <[i := m']> l = filePath <$> l.
Proof.
  intros Hi Hpath. rewrite list_fmap_insert, Hpath.
  apply list_insert_id. by rewrite list_lookup_fmap, Hi.
Qed.

Lemma loadPlugin_paths w i s :
  filePath <$> pluginMetadata (loadPlugin w i s) = filePath <$> pluginMetadata s.
Proof.
  destruct (pluginMetadata s !! i) as [meta|] eqn:Hi.
  2:{ unfold loadPlugin, loadPlugin_begin. by rewrite Hi. }
  destruct (loaded meta) eqn:Hl.
  { unfold loadPlugin, loadPlugin_begin. by rewrite Hi, Hl. }
  destruct (loadPlugin_cases w i s meta Hi Hl)
    as [(p & _ & _ & -> & _)|(_ & -> & _)]; [|done].
  by apply (insert_same_path _ i meta).
Qed.

Lemma unloadPlugin_paths path s :
  filePath <$> pluginMetadata (unloadPlugin path s).1 = filePath <$> pluginMetadata s.
Proof.
  destruct ((unloadPlugin path s).2) eqn:Hres;
    [|by rewrite (unloadPlugin_refused path s Hres)].
  unfold unloadPlugin in Hres.
  destruct (find_metadata (path_normalize path) s) as [[i meta]|] eqn:Hfind; [|done].
  destruct (loaded meta) eqn:Hl; [|done].
  destruct (plugin meta) as [p|] eqn:Hp; [|done]. clear Hres.
  destruct (unloadPlugin_found path s i meta p Hfind Hl Hp) as (_ & _ & _ & -> & _).
  apply list_find_Some in Hfind as (Hi & _).
  rewrite <- (insert_same_path _ i meta (mark_unloaded meta) Hi eq_refl).
  f_equal. apply list_eq. intros j. destruct (decide (i = j)) as [<-|Hne].
  - rewrite list_lookup_alter_eq, Hi. simpl.
    by rewrite list_lookup_insert_eq by by eapply lookup_lt_Some.
  - by rewrite list_lookup_alter_ne, list_lookup_insert_ne.
Qed.

(** X10.  The reload of a path that no descriptor has.  If the file does
    not exist, the answer is [false] and nothing changes but the console.
    If it exists, the answer is [true] and one descriptor is added after
    the others, which keep their places: it has the normalized path, its
    category is the first segment of the way from the plugins directory
    to the directory of the file (none when the file is in the plugins
    directory itself), and it is marked as loaded exactly when the module
    at the normalized path yields an instance whose [init] does not
    reject. *)
Theorem reloadPlugin_unknown_path (w : World) (path : string) (s : t) :
  find_metadata (path_normalize path) s = None →
  let s' := (reloadPlugin w path s).1 in
  let n := length (pluginMetadata s) in
  let segment := split_head path_sep
                   (path_relative (pluginsDir s) (path_dirname path)) in
  if existsSync w path then
    (reloadPlugin w path s).2 = Resolved true
    ∧ length (pluginMetadata s') = S n
    ∧ (∀ j m, pluginMetadata s !! j = Some m → pluginMetadata s' !! j = Some m)
    ∧ ∃ m, pluginMetadata s' !! n = Some m
           ∧ filePath m = path_normalize path
           ∧ category m = (if decide (segment = "") then None else Some segment)
           ∧ (loaded m = true
              ↔ ∃ p, exported_instance (import_module w (path_normalize path)) = Some p
                     ∧ ∀ e, p_init p ≠ Some (Rejected e))
  else
    (reloadPlugin w path s).2 = Resolved false
    ∧ registry s' = registry s ∧ pluginMetadata s' = pluginMetadata s
    ∧ loadedPlugins s' = loadedPlugins s.
Proof.
  intros Hfind s' n segment. subst s'. unfold reloadPlugin. rewrite Hfind.
  destruct (existsSync w path); simpl; [|done]. split; [done|].
  fold segment.
  set (cat := if decide (segment = "") then None else Some segment).
  set (fresh := {| filePath := path_normalize path; category := cat;
                   loaded := false; plugin := None |}).
  set (s1 := push_metadata (path_normalize path) cat s).
  assert (Hn : length (pluginMetadata s ++ [fresh]) - 1 = n).
  { subst n. rewrite length_app. simpl. lia. }
  rewrite Hn.
  assert (Hfresh : pluginMetadata s1 !! n = Some fresh).
  { subst s1 n. simpl. by rewrite lookup_app_r, Nat.sub_diag by lia. }
  assert (Hold : ∀ j m, pluginMetadata s !! j = Some m →
                        pluginMetadata s1 !! j = Some m).
  { intros j m Hj. subst s1. simpl. by apply lookup_app_l_Some. }
  destruct (loadPlugin_cases w n s1 fresh Hfresh eq_refl)
    as [(p & Hx & Hinit & Hmd & _)|(Hfail & Hmd & _)]; rewrite Hmd.
  - split_and!.
    + rewrite length_insert. subst s1. simpl. rewrite length_app. simpl. lia.
    + intros j m Hj. rewrite list_lookup_insert_ne; [by apply Hold|].
      apply lookup_lt_Some in Hj. fold n in Hj. lia.
    + eexists. split; [apply list_lookup_insert_eq; by eapply lookup_lt_Some|].
      simpl. split_and!; try done. split; [eauto|done].
  - split_and!.
    + subst s1. simpl. rewrite length_app. simpl. lia.
    + done.
    + exists fresh. split_and!; try done. split; [done|].
      intros (p & Hx & Hinit). simpl in Hfail.
      destruct Hfail as [Hnone|(q & e & Hq & He)]; [congruence|].
      rewrite Hx in Hq. injection Hq as <-. by destruct (Hinit e).
Qed.

(** X11.  The reload of a loaded plugin whose module can be resolved and
    yields an instance whose [init] does not reject.  The descriptor keeps
    its place, its path and its category and holds the new instance.  The
    old instance leaves the loaded plugins and the new one is appended, so
    the plugin is now the last one to be offered a message.  In the
    registry every token that the old handlers declared is given up; then
    a token that is still held keeps its handler, and a free one goes to
    the first of the new handlers that declares it. *)
Theorem reloadPlugin_replaces (w : World) (path : string) (s : t) (i : nat)
    (meta : PluginMetadata) (old p : Plugin) (resolved : string) :
  find_metadata (path_normalize path) s = Some (i, meta) →
  loaded meta = true → plugin meta = Some old →
  require_resolve w path = Resolved resolved →
  exported_instance (import_module w (filePath meta)) = Some p →
  (∀ e, p_init p ≠ Some (Rejected e)) →
  let s' := (reloadPlugin w path s).1 in
  let instance := with_category (category meta) p in
  let offered := imperative_commands (import_module w (filePath meta))
                 ++ default [] (p_commands p) in
  (reloadPlugin w path s).2 = Resolved true
  ∧ pluginMetadata s'
    = <[i := {| filePath := filePath meta; category := category meta;
                loaded := true; plugin := Some instance |}]> (pluginMetadata s)
  ∧ loadedPlugins s' = remove_loaded old (loadedPlugins s) ++ [instance]
  ∧ (∀ k, registry s' !! k
          = match (if existsb (fun h => declares k (ch_commands h))
                              (default [] (p_commands old))
                   then None else registry s !! k) with
            | Some h => Some h
            | None => first_registrant k offered
            end).
Proof.
  intros Hfind Hl Hold Hres Hx Hinit s' instance offered.
  subst s'. unfold reloadPlugin. rewrite Hfind, Hres. simpl.
  destruct (unloadPlugin_found path s i meta old Hfind Hl Hold)
    as (_ & _ & Hreg & Hmd & Hlp).
  set (s1 := (unloadPlugin path s).1) in *.
  apply list_find_Some in Hfind as (Hi & _).
  assert (Hi1 : pluginMetadata s1 !! i = Some (mark_unloaded meta)).
  { by rewrite Hmd, list_lookup_alter_eq, Hi. }
  destruct (loadPlugin_loaded w s1 i (mark_unloaded meta) p Hi1 eq_refl Hx Hinit)
    as (_ & Hmd' & Hlp' & Hreg').
  split; [done|]. rewrite Hmd', Hlp', Hlp. split_and!; try done.
  - rewrite Hmd. apply list_eq. intros j. destruct (decide (i = j)) as [<-|Hne].
    + rewrite !list_lookup_insert_eq; [done|by eapply lookup_lt_Some|].
      rewrite length_alter. by eapply lookup_lt_Some.
    + by rewrite !list_lookup_insert_ne, list_lookup_alter_ne.
  - intros k. rewrite Hreg', Hreg. by rewrite delete_commands_lookup.
Qed.

(** X12.  The places of the descriptors are stable.  A load, an unload
    and [unloadPlugins] leave the list of the paths of the descriptors as
    it is.  A reload does not give a second descriptor to a location: if no
    two descriptors have the same normalized path, and normalizing the path
    a second time changes nothing, the same holds after the reload. *)
Theorem descriptor_paths_stable (w : World) (path : string) (i : nat) (s : t) :
  NoDup (path_normalize ∘ filePath <$> pluginMetadata s) →
  path_normalize (path_normalize path) = path_normalize path →
  filePath <$> pluginMetadata (loadPlugin w i s) = filePath <$> pluginMetadata s
  ∧ filePath <$> pluginMetadata (unloadPlugin path s).1
    = filePath <$> pluginMetadata s
  ∧ filePath <$> pluginMetadata (unloadPlugins s) = filePath <$> pluginMetadata s
  ∧ NoDup (path_normalize ∘ filePath
             <$> pluginMetadata (reloadPlugin w path s).1).
Proof.
  intros Hnodup Hidem. split_and!.
  - apply loadPlugin_paths.
  - apply unloadPlugin_paths.
  - unfold unloadPlugins. simpl. rewrite <- list_fmap_compose. by apply list_fmap_ext.
  - assert (Hcomp : ∀ l : list PluginMetadata,
              path_normalize ∘ filePath <$> l = path_normalize <$> (filePath <$> l)).
    { intros l. by rewrite <- list_fmap_compose. }
    rewrite Hcomp in *. unfold reloadPlugin.
    destruct (find_metadata (path_normalize path) s) as [[j meta]|] eqn:Hfind.
    + destruct (require_resolve w path); simpl;
        rewrite ?loadPlugin_paths, unloadPlugin_paths; done.
    + destruct (existsSync w path); simpl; [|done].
      rewrite loadPlugin_paths. simpl. rewrite !fmap_app. simpl.
      apply NoDup_app. split_and!; [done| |apply NoDup_singleton].
      intros x Hx ->%list_elem_of_singleton.
      apply list_elem_of_fmap in Hx as (fp & Hfp & Hin).
      apply list_elem_of_fmap in Hin as (m & -> & Hin).
      unfold find_metadata in Hfind.
      eapply list_find_None, Forall_forall in Hfind; [|exact Hin].
      apply Hfind. congruence.
Qed.

End Reloading.

Section ReloadingExamples.
#[local] Existing Instance posixLib.

Lemma reloadPlugin_unknown_path_witness :
  let s := load_in_turn (discovered "utility" ["ping.ts"]) in
  let path := "/bot/src/plugins/general/greeter.ts" in
  find_metadata (path_normalize path) s = None
  ∧ (reloadPlugin world path s).2 = Resolved true
  ∧ length (pluginMetadata (reloadPlugin world path s).1) = 2.
Proof.
  intros s path.
  assert (H1 : find_metadata (path_normalize path) s = None)
    by (vm_compute; reflexivity).
  split; [exact H1|].
  pose proof (reloadPlugin_unknown_path world path s H1) as H.
  change (existsSync world path) with true in H. cbv zeta in H.
  destruct H as (Hres & Hlen & _). split; [exact Hres|exact Hlen].
Defined.

Lemma reloadPlugin_replaces_witness :
  let s := load_in_turn (discovered "utility" ["ping.ts"; "echo.ts"]) in
  let path := "/bot/src/plugins/utility/ping.ts" in
  let old := with_category (Some "utility") pingPlugin in
  let meta := {| filePath := path; category := Some "utility";
                 loaded := true; plugin := Some old |} in
  (find_metadata (path_normalize path) s = Some (0, meta)
   ∧ loaded meta = true ∧ plugin meta = Some old
   ∧ require_resolve world path = Resolved path
   ∧ exported_instance (import_module world (filePath meta)) = Some pingPlugin
   ∧ ∀ e, p_init pingPlugin ≠ Some (Rejected e))
  ∧ pid <$> loadedPlugins (reloadPlugin world path s).1 = [2; 1].
Proof.
  intros s path old meta.
  assert (H1 : find_metadata (path_normalize path) s = Some (0, meta))
    by (vm_compute; reflexivity).
  assert (H2 : loaded meta = true) by reflexivity.
  assert (H3 : plugin meta = Some old) by reflexivity.
  assert (H4 : require_resolve world path = Resolved path)
    by (vm_compute; reflexivity).
  assert (H5 : exported_instance (import_module world (filePath meta))
               = Some pingPlugin) by (vm_compute; reflexivity).
  assert (H6 : ∀ e, p_init pingPlugin ≠ Some (Rejected e)) by (intros e; discriminate).
  split; [done|].
  pose proof (reloadPlugin_replaces world path s 0 meta old pingPlugin path
                H1 H2 H3 H4 H5 H6) as (_ & _ & Hlp & _).
  rewrite Hlp. vm_compute. reflexivity.
Defined.

Lemma descriptor_paths_stable_witness :
  let s := load_in_turn (discovered "utility" ["ping.ts"; "echo.ts"]) in
  let path := "/bot/src/plugins/general//greeter.ts" in
  (NoDup (path_normalize ∘ filePath <$> pluginMetadata s)
   ∧ path_normalize (path_normalize path) = path_normalize path)
  ∧ filePath <$> pluginMetadata s
    = ["/bot/src/plugins/utility/ping.ts"; "/bot/src/plugins/utility/echo.ts"]
  ∧ existsSync world path = true
  ∧ (fun m => (filePath m, category m, loaded m))
      <$> pluginMetadata (reloadPlugin world path s).1
    = [("/bot/src/plugins/utility/ping.ts", Some "utility", true);
       ("/bot/src/plugins/utility/echo.ts", Some "utility", true);
       ("/bot/src/plugins/general/greeter.ts", Some "general", true)]
  ∧ NoDup (path_normalize ∘ filePath
             <$> pluginMetadata (reloadPlugin world path s).1).
Proof.
  intros s path.
  assert (H1 : NoDup (path_normalize ∘ filePath <$> pluginMetadata s)).
  { apply (bool_decide_unpack _). vm_compute. reflexivity. }
  assert (H2 : path_normalize (path_normalize path) = path_normalize path)
    by (vm_compute; reflexivity).
  split; [done|].
  split_and!; [vm_compute; reflexivity..|].
  exact (proj2 (proj2 (proj2 (descriptor_paths_stable world path 0 s H1 H2)))).
Defined.

(** A second reload of the file, under another spelling of its path,
    replaces the instance and adds no descriptor. *)
Example reloadPlugin_again_no_second_descriptor :
  let s := load_in_turn (discovered "utility" ["ping.ts"; "echo.ts"]) in
  let once := (reloadPlugin world "/bot/src/plugins/general//greeter.ts" s).1 in
  let twice := reloadPlugin world "/bot/src/plugins/general/./greeter.ts" once in
  twice.2 = Resolved true
  ∧ (fun m => (filePath m, loaded m)) <$> pluginMetadata twice.1
    = [("/bot/src/plugins/utility/ping.ts", true);
       ("/bot/src/plugins/utility/echo.ts", true);
       ("/bot/src/plugins/general/greeter.ts", true)]
  ∧ pid <$> loadedPlugins twice.1 = [1; 2; 4].
Proof. vm_compute. by split_and!. Qed.

End ReloadingExamples.

(** ** Dispatch and registration, once more *)

Section DispatchMore.
Context {node : NodeLib}.

(** X13.  A dispatch rejects in one case only: the command of the message
    is not empty and resolves to a handler, the handler rejects, and the
    reply that carries the failure notice rejects in turn; the dispatch
    then rejects with the error of the reply.  The generic hooks never
    make it reject. *)
Theorem handleMessage_rejects_iff (s : t) (m : SerializedMessage) (e : string) :
  (handleMessage s m).2 = Rejected e
  ↔ ∃ c h e0,
      msg_command m = Some c ∧ c ≠ ""
      ∧ registry s !! toLowerCase c = Some h
      ∧ ch_handler h m (default [] (msg_args m)) = Rejected e0
      ∧ msg_reply m failure_notice = Rejected e.
Proof.
  unfold handleMessage. split.
  - destruct (msg_command m) as [c|] eqn:Hc; [|done].
    case_decide as Hne; [done|].
    destruct (registry s !! toLowerCase c) as [h|] eqn:Hh; [|done].
    unfold run_command.
    destruct (ch_handler h m (default [] (msg_args m))) as [|e0] eqn:Hrun; [done|].
    simpl. intros Hreply. by exists c, h, e0.
  - intros (c & h & e0 & -> & Hne & -> & Hrun & Hreply).
    rewrite decide_False by done. unfold run_command. by rewrite Hrun.
Qed.

Lemma registerToken_count handler s command :
  size (registry (registerToken handler s command))
  + length (console (registerToken handler s command))
  = S (size (registry s) + length (console s)).
Proof.
  unfold registerToken.
  destruct (registry s !! toLowerCase command) eqn:Hk; simpl.
  - rewrite length_app. simpl. lia.
  - rewrite map_size_insert_None by done. lia.
Qed.

(** X14.  Registration accounts for every token: each token of each
    handler either adds one entry to the registry or adds one line, the
    warning of the collision, to the console.  So the entries and the
    console lines gained by a call add up to the number of tokens offered;
    and the registry never loses an entry in it. *)
Theorem registerCommands_accounts (hs : list CommandHandler) (s : t) :
  let s' := registerCommands hs s in
  size (registry s') + length (console s')
  = size (registry s) + length (console s)
    + length (concat (ch_commands <$> hs))
  ∧ size (registry s) ≤ size (registry s')
  ∧ length (console s) ≤ length (console s').
Proof.
  intros s'. subst s'. unfold registerCommands.
  revert s. induction hs as [|h hs IH]; intros s;
    rewrite ?fmap_nil, ?fmap_cons; simpl; [lia|].
  assert (Htokens : ∀ cs s0,
    size (registry (foldl (registerToken h) s0 cs))
    + length (console (foldl (registerToken h) s0 cs))
    = size (registry s0) + length (console s0) + length cs
    ∧ size (registry s0) ≤ size (registry (foldl (registerToken h) s0 cs))
    ∧ length (console s0) ≤ length (console (foldl (registerToken h) s0 cs))).
  { induction cs as [|c cs IHc]; intros s0; simpl; [lia|].
    destruct (IHc (registerToken h s0 c)) as (Hsum & Hsize & Hlen).
    pose proof (registerToken_count h s0 c) as Hone.
    assert (size (registry s0) ≤ size (registry (registerToken h s0 c))
            ∧ length (console s0) ≤ length (console (registerToken h s0 c))) as [? ?].
    { unfold registerToken. destruct (registry s0 !! toLowerCase c) eqn:Hk; simpl.
      - rewrite length_app. simpl. lia.
      - rewrite map_size_insert_None by done. lia. }
    lia. }
  destruct (Htokens (ch_commands h) s) as (Hsum & Hsize & Hlen).
  destruct (IH (foldl (registerToken h) s (ch_commands h))) as (Hsum' & Hsize' & Hlen').
  rewrite length_app. lia.
Qed.

End DispatchMore.

(** ** The worker *)

Section WorkerMessages.
Import PluginLoader.
Import Worker.
Context {node : NodeLib}.

(** X15.  A batch of incoming messages is handled in order, and it stops
    at the first dispatch that rejects.  The messages that reach the
    plugins are those that are not status broadcasts, not sent by the bot
    itself, that [serialize] accepts and that have a sender.  If no
    dispatch rejects, each of them is dispatched once, in order, and the
    handler resolves.  If one rejects, the handler rejects with its error,
    the messages before it were dispatched and the ones after it are
    not. *)
Theorem on_upsert_stops_at_rejection (s : t) (messages : list Upsert) :
  let outcomes := handleMessage s <$> omap reaches messages in
  let steps := fst (on_upsert s messages) in
  match snd (on_upsert s messages) with
  | Resolved _ =>
      dispatched steps = fst <$> outcomes
      ∧ Forall (fun o => snd o = Resolved ()) outcomes
  | Rejected e =>
      ∃ before o after,
        outcomes = before ++ o :: after
        ∧ Forall (fun o => snd o = Resolved ()) before
        ∧ snd o = Rejected e
        ∧ dispatched steps = fst <$> (before ++ [o])
  end.
Proof.
  induction messages as [|message rest IH]; [by split|].
  cbn [on_upsert omap list_omap]. cbv zeta in IH |- *.
  pose proof (eq_refl (reaches message)) as Hr. unfold reaches at 2 in Hr.
  revert Hr.
  destruct (decide (remoteJid message = Some "status@broadcast")) as [?|?];
    [by intros ->|].
  destruct (fromMe message); [by intros ->|].
  destruct (serialized message) as [[senderJid m]|]; [|by intros ->].
  destruct (decide (senderJid = "")) as [?|?]; intros ->.
  { unfold then_. cbn [fst snd app].
    destruct (on_upsert s rest) as [steps [[]|e0]]; exact IH. }
  rewrite fmap_cons.
  destruct (handleMessage s m) as [effects [[]|e]] eqn:Hm.
  - unfold then_. destruct (on_upsert s rest) as [steps [[]|e0]];
      cbn [fst snd] in *.
    + destruct IH as [Hd Hall]. split.
      * unfold dispatched in *. rewrite <- app_assoc, omap_app. cbn.
        by rewrite Hd.
      * by apply Forall_cons.
    + destruct IH as (before & o & after & Hout & Hall & Ho & Hd).
      exists ((effects, Resolved ()) :: before), o, after.
      rewrite Hout. split_and!; [done|by apply Forall_cons|done|].
      unfold dispatched in *. rewrite <- app_assoc, omap_app. cbn.
      by rewrite Hd.
  - exists [], (effects, Rejected e), (handleMessage s <$> omap reaches rest).
    by split_and!.
Qed.

End WorkerMessages.

(** ** Loading all plugins *)

Section LoadingAll.
Import PluginLoader.
Import LoadAll.
Context {node : NodeLib}.

Lemma unloaded_spec s i :
  i ∈ unloaded s ↔ ∃ meta, pluginMetadata s !! i = Some meta ∧ loaded meta = false.
Proof.
  unfold unloaded. rewrite list_elem_of_filter, elem_of_seq. split.
  - intros [Hl _]. destruct (pluginMetadata s !! i) as [meta|]; [|done].
    exists meta. split; [done|]. by injection Hl.
  - intros (meta & Hi & Hl). rewrite Hi. simpl. rewrite Hl. split; [done|].
    apply lookup_lt_Some in Hi. lia.
Qed.

Lemma unloaded_NoDup s : NoDup (unloaded s).
Proof. apply NoDup_filter, NoDup_seq. Qed.

Lemma under_way_started w s : under_way w s (s, started s).
Proof.
  unfold under_way, started. simpl. split_and!.
  - by rewrite app_nil_r.
  - done.
  - intros i meta Hi. by rewrite Hi.
  - by intros i p ?%elem_of_nil.
  - by rewrite app_nil_r.
  - done.
  - intros k h Hk. by left.
Qed.

Lemma outcome_None_final w meta : outcome w meta = None → final w meta = meta.
Proof. unfold final. by intros ->. Qed.

(** What the return of the load at place [i] changes, given what it did
    to the descriptors, the loaded plugins and the registry. *)
Lemma under_way_return w s s1 s2 l l2 i meta :
  under_way w s (s1, l) →
  pluginMetadata s !! i = Some meta → loaded meta = false →
  i ∉ returned l →
  returned l2 = returned l ++ [i] →
  returned l2 ++ importing l2 ++ (fst <$> initializing l2) ≡ₚ unloaded s →
  (∀ j p, (j, p) ∈ initializing l2 → (j, p) ∈ initializing l) →
  pluginMetadata s2
  = match outcome w meta with
    | Some p => alter (mark_loaded p) i (pluginMetadata s1)
    | None => pluginMetadata s1
    end →
  loadedPlugins s2
  = loadedPlugins s1 ++ match outcome w meta with Some p => [p] | None => [] end →
  (∀ k h, registry s1 !! k = Some h → registry s2 !! k = Some h) →
  (∀ k h, registry s2 !! k = Some h →
     registry s1 !! k = Some h
     ∨ (h ∈ offered w meta ∧ declares k (ch_commands h) = true)) →
  under_way w s (s2, l2).
Proof.
  intros (Hperm & Hlen & Hmeta & Hinit & Hloaded & Hkeep & Hnew)
    Hi Hl Hnot Hret Hperm2 Hinit2 Hmd Hlp Hkeep2 Hnew2.
  unfold under_way. split_and!.
  - done.
  - rewrite Hmd. destruct (outcome w meta); [by rewrite length_alter|done].
  - intros j metaj Hj. rewrite Hret, Hmd.
    destruct (decide (j = i)) as [->|Hne].
    + rewrite decide_True by (apply elem_of_app; right; by apply list_elem_of_singleton).
      assert (metaj = meta) as -> by congruence.
      pose proof (Hmeta i meta Hi) as Hi1. rewrite decide_False in Hi1 by done.
      unfold final. destruct (outcome w meta) as [p|]; [|done].
      by rewrite list_lookup_alter_eq, Hi1.
    + assert (Hsame : pluginMetadata s1 !! j
                      = Some (if decide (j ∈ returned l ++ [i])
                              then final w metaj else metaj)).
      { rewrite (Hmeta j metaj Hj). f_equal.
        destruct (decide (j ∈ returned l)) as [Hin|Hnin].
        - rewrite decide_True; [done|]. apply elem_of_app. by left.
        - rewrite decide_False; [done|].
          rewrite elem_of_app, list_elem_of_singleton. by intros [?|?]. }
      destruct (outcome w meta); [|done].
      by rewrite list_lookup_alter_ne.
  - intros j p Hjp. by apply Hinit, Hinit2.
  - rewrite Hlp, Hloaded, Hret, omap_app, <- app_assoc. simpl. rewrite Hi. simpl.
    by destruct (outcome w meta).
  - intros k h Hk. by apply Hkeep2, Hkeep.
  - intros k h Hk. destruct (Hnew2 k h Hk) as [Hk1|[Hin Hd]].
    + by apply Hnew.
    + right. exists meta. split_and!; try done. by eapply list_elem_of_lookup_2.
Qed.

Lemma registered_keeps hs s s' :
  registry s' = registry (registerCommands hs s) →
  (∀ k h, registry s !! k = Some h → registry s' !! k = Some h)
  ∧ (∀ k h, registry s' !! k = Some h →
       registry s !! k = Some h ∨ (h ∈ hs ∧ declares k (ch_commands h) = true)).
Proof.
  intros Hr. split; intros k h; rewrite Hr, registerCommands_lookup.
  - by intros ->.
  - destruct (registry s !! k); [by left|].
    intros Hf%first_registrant_elem. by right.
Qed.

Lemma under_way_places w s s1 l i :
  under_way w s (s1, l) →
  i ∈ importing l ++ (fst <$> initializing l) →
  ∃ meta, pluginMetadata s !! i = Some meta ∧ loaded meta = false
          ∧ (i ∉ returned l) ∧ pluginMetadata s1 !! i = Some meta.
Proof.
  intros (Hperm & _ & Hmeta & _) Hin.
  assert (Hun : i ∈ unloaded s).
  { rewrite <- Hperm. apply elem_of_app. by right. }
  apply unloaded_spec in Hun as (meta & Hi & Hl). exists meta.
  assert (Hnot : i ∉ returned l).
  { pose proof (unloaded_NoDup s) as Hdup. rewrite <- Hperm in Hdup.
    apply NoDup_app in Hdup as (_ & Hdisj & _). intros Hr. by apply (Hdisj i). }
  split_and!; try done. rewrite (Hmeta i meta Hi). by rewrite decide_False.
Qed.

Lemma returns_first {A} (ret imp rest ini tot : list A) x :
  imp ≡ₚ x :: rest → ret ++ imp ++ ini ≡ₚ tot →
  (ret ++ [x]) ++ rest ++ ini ≡ₚ tot ∧ ret ++ rest ++ ini ++ [x] ≡ₚ tot.
Proof.
  intros Himp <-. split.
  - rewrite <- app_assoc. simpl. apply Permutation_app_head.
    by rewrite Himp.
  - apply Permutation_app_head. rewrite Himp. simpl.
    by rewrite app_assoc, <- Permutation_cons_append.
Qed.

Lemma returns_second {A} (ret imp rest ini tot : list A) x :
  ini ≡ₚ x :: rest → ret ++ imp ++ ini ≡ₚ tot →
  (ret ++ [x]) ++ imp ++ rest ≡ₚ tot.
Proof.
  intros Hini <-. rewrite <- app_assoc. simpl. apply Permutation_app_head.
  by rewrite Hini, Permutation_middle.
Qed.

Lemma outcome_with_category w meta p0 :
  exported_instance (import_module w (filePath meta)) = Some p0 →
  outcome w meta
  = match p_init p0 with
    | Some (Rejected _) => None
    | _ => Some (with_category (category meta) p0)
    end.
Proof. intros Hx. unfold outcome. by rewrite Hx. Qed.

Lemma settle_under_way w s st ev :
  under_way w s st → under_way w s (settle w st ev).
Proof.
  destruct st as [s1 l]. intros Hst. destruct ev as [i|i]; simpl.
  - destruct (list_find (fun j => j = i) (importing l)) as [[k j]|] eqn:Hfind;
      [|done].
    apply list_find_Some in Hfind as (Hk & -> & _).
    pose proof (delete_Permutation _ _ _ Hk) as Himp.
    destruct (under_way_places w s s1 l i Hst) as (meta & Hi & Hl & Hnot & Hi1).
    { apply elem_of_app. left. by eapply list_elem_of_lookup_2. }
    destruct (loadPlugin_begin_spec w i s1 meta Hi1 Hl) as (Hres & Hreg & Hmd & Hlp).
    destruct (loadPlugin_begin w i s1) as [sb r] eqn:Hbegin. simpl in *.
    destruct (registered_keeps _ _ _ Hreg) as [Hkeep Hnew].
    assert (Hnew' : ∀ k h, registry sb !! k = Some h →
              registry s1 !! k = Some h
              ∨ (h ∈ offered w meta ∧ declares k (ch_commands h) = true)).
    { intros kk h Hkh. destruct (Hnew kk h Hkh) as [?|[Hin Hd]]; [by left|].
      right. split; [|done]. apply elem_of_app. by left. }
    pose proof Hst as (Hperm & Hlen & Hmeta & Hinit & Hloaded & Hkeep0 & Hnew0).
    destruct r as [p|].
    + destruct (exported_instance (import_module w (filePath meta)))
        as [p0|] eqn:Hx; [|done].
      injection Hres as ->.
      pose proof (outcome_with_category w meta p0 Hx) as Hout.
      destruct (p_init (with_category (category meta) p0)) as [c|] eqn:Hinitp;
        simpl in Hinitp.
      * unfold under_way. simpl. split_and!.
        -- rewrite fmap_app. simpl.
           apply (returns_first _ _ _ _ _ _ Himp Hperm).
        -- by rewrite Hmd.
        -- intros j metaj Hj. rewrite Hmd. by apply Hmeta.
        -- intros j q [Hjq|Hjq%list_elem_of_singleton]%elem_of_app.
           ++ by apply Hinit.
           ++ injection Hjq as -> ->. exists meta. rewrite Hx. simpl.
              split_and!; [done|done|by rewrite Hinitp].
        -- by rewrite Hlp.
        -- intros kk h Hkh. by apply Hkeep, Hkeep0.
        -- intros kk h Hkh. destruct (Hnew' kk h Hkh) as [?|[Hin Hd]].
           ++ by apply Hnew0.
           ++ right. exists meta. split_and!; try done.
              by eapply list_elem_of_lookup_2.
      * rewrite Hinitp in Hout.
        assert (Hib : pluginMetadata sb !! i = Some meta) by by rewrite Hmd.
        destruct (loadPlugin_finish_resolved i (with_category (category meta) p0)
                    sb meta Hib) as (Hreg2 & Hmd2 & Hlp2).
        { intros e. simpl. by rewrite Hinitp. }
        destruct (registered_keeps _ _ _ Hreg2) as [Hkeep2 Hnew2].
        eapply (under_way_return w s s1 _ l _ i meta Hst Hi Hl Hnot);
          simpl; [done| | | | | |].
        -- apply (returns_first _ _ _ _ _ _ Himp Hperm).
        -- done.
        -- by rewrite Hout, Hmd2, Hmd.
        -- by rewrite Hout, Hlp2, Hlp.
        -- intros kk h Hkh. by apply Hkeep2, Hkeep.
        -- intros kk h Hkh. destruct (Hnew2 kk h Hkh) as [Hkh1|[Hin Hd]].
           ++ by apply Hnew'.
           ++ right. split; [|done]. unfold offered. rewrite Hout.
              apply elem_of_app. by right.
    + assert (Hout : outcome w meta = None).
      { unfold outcome.
        by destruct (exported_instance (import_module w (filePath meta))). }
      eapply (under_way_return w s s1 _ l _ i meta Hst Hi Hl Hnot);
        simpl; [done| | | | | |].
      * apply (returns_first _ _ _ _ _ _ Himp Hperm).
      * done.
      * by rewrite Hout.
      * by rewrite Hout, app_nil_r.
      * done.
      * done.
  - destruct (list_find (fun ip => ip.1 = i) (initializing l))
      as [[k [j p]]|] eqn:Hfind; [|done].
    apply list_find_Some in Hfind as (Hk & Hj & _). simpl in Hj. subst j.
    pose proof (delete_Permutation _ _ _ Hk) as Hinitperm.
    assert (Hin : (i, p) ∈ initializing l) by by eapply list_elem_of_lookup_2.
    destruct (under_way_places w s s1 l i Hst) as (meta & Hi & Hl & Hnot & Hi1).
    { apply elem_of_app. right. apply list_elem_of_fmap. by exists (i, p). }
    pose proof Hst as (Hperm & Hlen & Hmeta & Hinit & Hloaded & Hkeep0 & Hnew0).
    destruct (Hinit i p Hin) as (meta' & Hi' & Hwc & Hsome).
    assert (meta' = meta) as -> by congruence.
    destruct (exported_instance (import_module w (filePath meta)))
      as [p0|] eqn:Hx; [|done].
    injection Hwc as <-.
    pose proof (outcome_with_category w meta p0 Hx) as Hout.
    assert (Hperm2 : (returned l ++ [i]) ++ importing l
                     ++ (fst <$> delete k (initializing l)) ≡ₚ unloaded s).
    { eapply returns_second; [|exact Hperm]. by rewrite Hinitperm at 1. }
    assert (Hsub : ∀ j q, (j, q) ∈ delete k (initializing l) →
                          (j, q) ∈ initializing l).
    { intros j q Hjq. eapply elem_of_sublist; [exact Hjq|apply sublist_delete]. }
    simpl in Hsome.
    destruct (p_init p0) as [[[]|e]|] eqn:Hinitp; [| |by destruct Hsome].
    + destruct (loadPlugin_finish_resolved i (with_category (category meta) p0)
                  s1 meta Hi1) as (Hreg2 & Hmd2 & Hlp2).
      { intros e. simpl. by rewrite Hinitp. }
      destruct (registered_keeps _ _ _ Hreg2) as [Hkeep2 Hnew2].
      eapply (under_way_return w s s1 _ l _ i meta Hst Hi Hl Hnot);
        simpl; [done|exact Hperm2|exact Hsub| | | |].
      * by rewrite Hout, Hmd2.
      * by rewrite Hout, Hlp2.
      * done.
      * intros kk h Hkh. destruct (Hnew2 kk h Hkh) as [Hkh1|[Hin2 Hd]]; [by left|].
        right. split; [|done]. unfold offered. rewrite Hout.
        apply elem_of_app. by right.
    + destruct (loadPlugin_finish_rejected i (with_category (category meta) p0)
                  s1 e) as (Hreg2 & Hmd2 & Hlp2 & _).
      { simpl. by rewrite Hinitp. }
      eapply (under_way_return w s s1 _ l _ i meta Hst Hi Hl Hnot);
        simpl; [done|exact Hperm2|exact Hsub| | | |].
      * by rewrite Hout, Hmd2.
      * by rewrite Hout, Hlp2, app_nil_r.
      * intros kk h Hkh. by rewrite Hreg2.
      * intros kk h Hkh. left. by rewrite <- Hreg2.
Qed.

Lemma settle_all_under_way w s schedule : ∀ st,
  under_way w s st → under_way w s (settle_all w schedule st).
Proof.
  unfold settle_all.
  induction schedule as [|ev schedule IH]; intros st Hst; [done|].
  simpl. by apply IH, settle_under_way.
Qed.

Lemma settle_returned w st ev :
  returned (settle w st ev).2 = returned st.2
  ∨ returned (settle w st ev).2 = returned st.2 ++ [place ev].
Proof.
  destruct st as [s1 l]. destruct ev as [i|i]; simpl.
  - destruct (list_find _ (importing l)) as [[k j]|]; [|by left].
    destruct (loadPlugin_begin w i s1) as [sb [p|]]; [destruct (p_init p)|];
      simpl; auto.
  - destruct (list_find _ (initializing l)) as [[k [j p]]|]; simpl; auto.
Qed.

Lemma settle_all_returned w schedule : ∀ st,
  ∃ r, returned (settle_all w schedule st).2 = returned st.2 ++ r
       ∧ r `sublist_of` place <$> schedule.
Proof.
  unfold settle_all.
  induction schedule as [|ev schedule IH]; intros st; simpl.
  { exists []. by rewrite app_nil_r. }
  destruct (IH (settle w st ev)) as (r & Hr & Hsub).
  destruct (settle_returned w st ev) as [Hev|Hev]; rewrite Hev in Hr.
  - exists r. split; [done|]. by apply sublist_cons.
  - exists (place ev :: r). split; [by rewrite Hr, <- app_assoc|].
    by apply sublist_skip.
Qed.

(** X16.  [loadAllPlugins] ends in the same descriptors whatever the
    order in which the imports and the [init]s settle: every descriptor
    that was loaded is as before, and every other one is loaded, with its
    instance, exactly when its module yields an instance whose [init] does
    not reject.  The loaded plugins are the ones from before followed by
    the instances of the loads that succeeded, in the order in which the
    loads returned: this order lists the descriptors that were not loaded,
    each once, and follows the schedule, a load returning at the event
    that lets it run to its end.  No entry of the registry is lost or
    replaced, and every new entry holds a handler that one of these loads
    offered and that declares the token of the entry. *)
Theorem loadAllPlugins_any_order (w : World) (loadTime : Z)
    (schedule : list Settled) (s s' : t) :
  loadAllPlugins w loadTime schedule s = Some s' →
  pluginMetadata s'
  = (fun meta => if loaded meta then meta else final w meta) <$> pluginMetadata s
  ∧ (let order := returned (settle_all w schedule (s, started s)).2 in
     order ≡ₚ unloaded s
     ∧ order `sublist_of` place <$> schedule
     ∧ loadedPlugins s'
       = loadedPlugins s
         ++ omap (fun i => pluginMetadata s !! i ≫= outcome w) order)
  ∧ (∀ k h, registry s !! k = Some h → registry s' !! k = Some h)
  ∧ (∀ k h, registry s' !! k = Some h →
       registry s !! k = Some h
       ∨ ∃ meta, meta ∈ pluginMetadata s ∧ loaded meta = false
           ∧ h ∈ offered w meta ∧ declares k (ch_commands h) = true).
Proof.
  unfold loadAllPlugins.
  pose proof (settle_all_under_way w s schedule _ (under_way_started w s)) as Hst.
  destruct (settle_all_returned w schedule (s, started s)) as (r & Hr & Hsub).
  destruct (settle_all w schedule (s, started s)) as [s1 l].
  destruct (importing l) eqn:Himp; [|done].
  destruct (initializing l) eqn:Hini; [|done].
  intros [= <-]. simpl in *. subst r.
  destruct Hst as (Hperm & Hlen & Hmeta & _ & Hloaded & Hkeep & Hnew).
  rewrite Himp, Hini in Hperm. simpl in Hperm. rewrite app_nil_r in Hperm.
  split_and!; [|done..].
  apply list_eq. intros i. rewrite list_lookup_fmap.
  destruct (pluginMetadata s !! i) as [meta|] eqn:Hi; simpl.
  - rewrite (Hmeta i meta Hi). f_equal.
    destruct (loaded meta) eqn:Hl.
    + rewrite decide_False; [done|]. rewrite Hperm, unloaded_spec.
      intros (meta' & Hi' & Hl'). congruence.
    + rewrite decide_True; [done|]. rewrite Hperm, unloaded_spec. by exists meta.
  - apply lookup_ge_None. rewrite Hlen. by apply lookup_ge_None.
Qed.

Lemma settle_importing w st ev :
  importing (settle w st ev).2 `sublist_of` importing st.2.
Proof.
  destruct st as [s1 l]. destruct ev as [i|i]; simpl.
  - destruct (list_find _ (importing l)) as [[k j]|]; [|done].
    destruct (loadPlugin_begin w i s1) as [sb [p|]]; [destruct (p_init p)|];
      simpl; apply sublist_delete.
  - by destruct (list_find _ (initializing l)) as [[k [j p]]|].
Qed.

Lemma settle_Imported w s st i :
  under_way w s st → i ∉ importing (settle w st (Imported i)).2.
Proof.
  destruct st as [s1 l]. intros (Hperm & _). simpl.
  assert (Hdup : NoDup (importing l)).
  { pose proof (unloaded_NoDup s) as Hdup. rewrite <- Hperm in Hdup.
    apply NoDup_app in Hdup as (_ & _ & Hdup).
    by apply NoDup_app in Hdup as (Hdup & _). }
  destruct (list_find (fun j => j = i) (importing l)) as [[k j]|] eqn:Hfind.
  - apply list_find_Some in Hfind as (Hk & -> & _).
    assert (Hgone : i ∉ delete k (importing l)).
    { rewrite (delete_Permutation _ _ _ Hk) in Hdup.
      by apply NoDup_cons in Hdup as [Hnot _]. }
    destruct (loadPlugin_begin w i s1) as [sb [p|]]; [destruct (p_init p)|];
      simpl; done.
  - simpl. intros Hin. apply list_find_None in Hfind.
    rewrite Forall_forall in Hfind. by apply (Hfind i).
Qed.

Lemma settle_initializing w st i :
  importing (settle w st (Initialized i)).2 = importing st.2
  ∧ (settle w st (Initialized i)).2.(initializing) `sublist_of` initializing st.2.
Proof.
  destruct st as [s1 l]. simpl.
  destruct (list_find _ (initializing l)) as [[k [j p]]|]; [|done].
  simpl. split; [done|apply sublist_delete].
Qed.

Lemma settle_Initialized w s st i :
  under_way w s st → i ∉ fst <$> initializing (settle w st (Initialized i)).2.
Proof.
  destruct st as [s1 l]. intros (Hperm & _). simpl.
  assert (Hdup : NoDup (fst <$> initializing l)).
  { pose proof (unloaded_NoDup s) as Hdup. rewrite <- Hperm in Hdup.
    apply NoDup_app in Hdup as (_ & _ & Hdup).
    by apply NoDup_app in Hdup as (_ & _ & Hdup). }
  destruct (list_find (fun ip => ip.1 = i) (initializing l))
    as [[k [j p]]|] eqn:Hfind.
  - apply list_find_Some in Hfind as (Hk & Hj & _). simpl in Hj. subst j. simpl.
    rewrite (delete_Permutation _ _ _ Hk) in Hdup. simpl in Hdup.
    by apply NoDup_cons in Hdup as [Hnot _].
  - simpl. intros ([j p] & Hj & Hin)%list_elem_of_fmap. simpl in Hj. subst j.
    apply list_find_None in Hfind. rewrite Forall_forall in Hfind.
    by apply (Hfind (i, p)).
Qed.

Lemma imports_settle w s places : ∀ st,
  under_way w s st →
  ∀ i, i ∈ places → i ∉ importing (settle_all w (Imported <$> places) st).2.
Proof.
  unfold settle_all.
  induction places as [|j places IH]; intros st Hst i Hin; simpl.
  { by apply elem_of_nil in Hin. }
  apply elem_of_cons in Hin as [->|Hin].
  - intros Hi. apply (settle_Imported w s st j Hst).
    eapply elem_of_sublist; [exact Hi|]. clear.
    generalize (settle w st (Imported j)).
    induction places as [|i places IH]; intros st'; simpl; [done|].
    etrans; [apply IH|apply settle_importing].
  - by apply IH; [apply settle_under_way|].
Qed.

Lemma inits_settle w s places : ∀ st,
  under_way w s st →
  importing (settle_all w (Initialized <$> places) st).2 = importing st.2
  ∧ ∀ i, i ∈ places →
         i ∉ fst <$> initializing (settle_all w (Initialized <$> places) st).2.
Proof.
  unfold settle_all.
  induction places as [|j places IH]; intros st Hst.
  { split; [done|]. by intros i ?%elem_of_nil. }
  rewrite fmap_cons. cbn [foldl].
  pose proof (settle_under_way w s st (Initialized j) Hst) as Hst'.
  destruct (IH _ Hst') as [Himp Hini].
  destruct (settle_initializing w st j) as [Himp' _].
  split; [congruence|]. intros i [->|Hin]%elem_of_cons; [|by apply Hini].
  intros Hi. apply (settle_Initialized w s st j Hst).
  eapply elem_of_sublist; [exact Hi|]. apply fmap_sublist. clear.
  generalize (settle w st (Initialized j)).
  induction places as [|i places IH]; intros st'; simpl; [done|].
  etrans; [apply IH|apply settle_initializing].
Qed.

(** X17.  [loadAllPlugins] returns: when the imports settle in the order
    of the descriptors and the [init]s after them, every load returns and
    the summary is logged. *)
Theorem loadAllPlugins_settles (w : World) (loadTime : Z) (s : t) :
  is_Some (loadAllPlugins w loadTime
             ((Imported <$> unloaded s) ++ (Initialized <$> unloaded s)) s).
Proof.
  unfold loadAllPlugins, settle_all. rewrite foldl_app.
  pose proof (under_way_started w s) as H0.
  pose proof (settle_all_under_way w s (Imported <$> unloaded s) _ H0) as H1.
  pose proof (imports_settle w s (unloaded s) _ H0) as Himp1.
  unfold settle_all in *.
  destruct (inits_settle w s (unloaded s) _ H1) as [Himp2 Hini2].
  pose proof (settle_all_under_way w s (Initialized <$> unloaded s) _ H1) as H2.
  unfold settle_all in *.
  destruct (foldl (settle w) (s, started s) (Imported <$> unloaded s))
    as [s1 l1].
  destruct (foldl (settle w) (s1, l1) (Initialized <$> unloaded s))
    as [s2 l2].
  simpl in *. destruct H2 as (Hperm & _).
  assert (Hno : ∀ i, i ∈ importing l2 ++ (fst <$> initializing l2) → False).
  { intros i Hin.
    assert (Hun : i ∈ unloaded s).
    { rewrite <- Hperm. apply elem_of_app. by right. }
    apply elem_of_app in Hin as [Hin|Hin].
    - rewrite Himp2 in Hin. by apply (Himp1 i).
    - by apply (Hini2 i). }
  destruct (importing l2) as [|i ?]; [|destruct (Hno i); by left].
  destruct (initializing l2) as [|[i p] ?]; [by eexists|].
  destruct (Hno i). by left.
Qed.

End LoadingAll.

Section LoadingAllExamples.
Import PluginLoader.
Import LoadAll.
#[local] Existing Instance posixLib.

Lemma loadAllPlugins_any_order_witness :
  let s := discovered "utility" ["ping.ts"; "broken.ts"; "echo.ts"] in
  let schedule := [Imported 2; Imported 1; Imported 0; Initialized 1] in
  let s' := default s (loadAllPlugins world 12 schedule s) in
  loadAllPlugins world 12 schedule s = Some s'
  ∧ loaded <$> pluginMetadata s' = [true; false; true]
  ∧ returned (settle_all world schedule (s, started s)).2 = [2; 0; 1]
  ∧ loadedPlugins s'
    = loadedPlugins s
      ++ omap (fun i => pluginMetadata s !! i ≫= outcome world)
              (returned (settle_all world schedule (s, started s)).2)
  ∧ pid <$> loadedPlugins s' = [2; 1].
Proof.
  intros s schedule s'.
  assert (H : loadAllPlugins world 12 schedule s = Some s')
    by (vm_compute; reflexivity).
  split; [exact H|].
  destruct (loadAllPlugins_any_order world 12 schedule s s' H)
    as (Hmd & (_ & _ & Hlp) & _).
  split_and!; [rewrite Hmd; vm_compute; reflexivity|vm_compute; reflexivity
              |exact Hlp|vm_compute; reflexivity].
Defined.

(** Under another schedule the same loads return in another order, and
    the loaded plugins are in that order. *)
Example loadAllPlugins_other_schedule :
  let s := discovered "utility" ["ping.ts"; "broken.ts"; "echo.ts"] in
  let schedule := [Imported 0; Imported 1; Initialized 1; Imported 2] in
  returned (settle_all world schedule (s, started s)).2 = [0; 1; 2]
  ∧ (fun s' => pid <$> loadedPlugins s') <$> loadAllPlugins world 12 schedule s
    = Some [1; 2].
Proof. vm_compute. by split. Qed.

End LoadingAllExamples.

(** ** The monitor, once more *)

Import Monitor.
Import MonitorViews.

Section SupervisorMore.
Context {node : NodeLib}.

Lemma close_watchers_shape ws : ∀ s,
  foldl (fun s watcher => emit (CloseWatcher (wid watcher)) s) s ws
  = emits (CloseWatcher ∘ wid <$> ws) s.
Proof.
  induction ws as [|w ws IH]; intros s.
  - destruct s. unfold emits. simpl. by rewrite app_nil_r.
  - simpl. rewrite IH. destruct s. unfold emits, emit. simpl.
    by rewrite <- app_assoc.
Qed.

Lemma cleanupFileWatchers_shape s :
  cleanupFileWatchers s
  = emits (cleanup_actions (fileWatchers s)) (set_fileWatchers [] s).
Proof.
  unfold cleanupFileWatchers, cleanup_actions. case_decide as Hlen.
  - cbv zeta. rewrite close_watchers_shape. destruct s.
    unfold emits, log, emit, set_fileWatchers. simpl.
    by rewrite <- !app_assoc.
  - destruct s as [? ? ws ? ? ? ? ? ? ?]. simpl in *.
    destruct ws; [done|simpl in Hlen; lia].
Qed.

Lemma cleanup_actions_closed ws :
  omap (fun a => match a with CloseWatcher w => Some w | _ => None end)
       (cleanup_actions ws) = wid <$> ws.
Proof.
  unfold cleanup_actions. case_decide as Hlen.
  - simpl. rewrite omap_app. simpl. rewrite app_nil_r.
    induction ws as [|w ws IH]; [done|]. simpl. f_equal.
    destruct ws; [done|]. apply IH. simpl. lia.
  - destruct ws; [done|simpl in Hlen; lia].
Qed.

Lemma cleanup_actions_none {B} (f : Action → option B) ws :
  (∀ lv msg, f (Log lv msg) = None) → (∀ w, f (CloseWatcher w) = None) →
  omap f (cleanup_actions ws) = [].
Proof.
  intros Hlog Hclose. apply omap_none, Forall_forall. intros a.
  unfold cleanup_actions. case_decide.
  - rewrite elem_of_cons, elem_of_app, list_elem_of_fmap, list_elem_of_singleton.
    intros [->|[(w & -> & _)| ->]]; simpl; auto.
  - rewrite list_elem_of_singleton. intros ->. auto.
Qed.

(** X18.  [setupFileWatchers] closes every watcher that was open, each
    once and in order, and leaves one watcher, the new one, which carries
    the child and the entry file of the call.  It spawns nothing and
    leaves the pending timers as they are: a debounced callback set by a
    previous watcher still waits. *)
Theorem setupFileWatchers_replaces (proc : nat) (mainFile : string) (s : t) :
  let s' := setupFileWatchers proc mainFile s in
  fileWatchers s'
  = [ {| wid := next_id s; w_proc := proc; w_mainFile := mainFile |} ]
  ∧ closed s' = closed s ++ (wid <$> fileWatchers s)
  ∧ spawned s' = spawned s
  ∧ currentProcess s' = currentProcess s
  ∧ timers s' = timers s
  ∧ debounceTimer s' = debounceTimer s.
Proof.
  unfold setupFileWatchers. cbv zeta. rewrite cleanupFileWatchers_shape.
  destruct s as [? ? ws ? ? ? ? ? ? o]. unfold closed, spawned. simpl.
  rewrite !omap_app. simpl. rewrite !app_nil_r.
  rewrite cleanup_actions_closed, cleanup_actions_none by done.
  by rewrite app_nil_r.
Qed.

(** Reads a view of [out] off a list of actions put together with [++]. *)
Ltac read_out :=
  rewrite ?omap_app; simpl;
  rewrite ?cleanup_actions_closed, ?cleanup_actions_none by done;
  rewrite ?app_nil_r; try done.

(** X19.  A restart of a running worker, with no other timer waiting:
    [startApp] asks [treeKill] for the worker and spawns nothing; until
    the timer set by the callback of [treeKill] has run, a further
    [startApp] only logs a warning; the timer is due 1000 ms after the
    callback, whether the kill failed or not, and when it runs exactly one
    new worker is spawned, which becomes the current one, and the monitor
    is no longer restarting. *)
Theorem startApp_restart_cycle (connected : nat → bool) (file : string)
    (err : option string) (pid : nat) (s : t) :
  isRestarting s = false → isShuttingDown s = false →
  currentProcess s = Some pid → timers s = [] →
  let s1 := startApp file s in
  let s2 := on_killed file err s1 in
  (killed s1 = killed s ++ [pid] ∧ spawned s1 = spawned s
   ∧ isRestarting s1 = true)
  ∧ (∀ file', startApp file' s1
              = log WARN "Already restarting, ignoring request" s1)
  ∧ (∀ file', startApp file' s2
              = log WARN "Already restarting, ignoring request" s2)
  ∧ (∀ time, (time < now s + 1000)%Z →
             spawned (advance connected time s2) = spawned s
             ∧ isRestarting (advance connected time s2) = true)
  ∧ (∀ time, (now s + 1000 ≤ time)%Z →
             let s3 := advance connected time s2 in
             spawned s3 = spawned s ++ [S (next_id s)]
             ∧ currentProcess s3 = Some (S (next_id s))
             ∧ isRestarting s3 = false
             ∧ killed s3 = killed s ++ [pid]
             ∧ timers s3 = []).
Proof.
  intros Hr Hsd Hp Ht.
  destruct s as [? ? ? ? ? ? clock ? ? o]. simpl in *. subst.
  unfold startApp, on_killed, advance, killed, spawned. simpl.
  split_and!.
  - read_out.
  - read_out.
  - done.
  - done.
  - by destruct err.
  - intros time Htime. destruct err; simpl;
      (rewrite decide_False by lia); simpl; split; read_out.
  - intros time Htime. destruct err; simpl;
      (rewrite decide_True by lia); simpl; split_and!; read_out.
Qed.

(** X20.  Recovery from a crash, with no other timer waiting: when the
    worker exits with a code other than zero while the monitor is neither
    restarting nor shutting down, every watcher is closed and there is no
    current worker; nothing is spawned before 5000 ms have passed, and
    then exactly one worker is spawned, which becomes the current one;
    no watcher is set up until it reports that it is ready. *)
Theorem on_exit_crash_recovery (connected : nat → bool) (file : string)
    (code : option Z) (s : t) :
  code ≠ Some 0%Z → isRestarting s = false → isShuttingDown s = false →
  timers s = [] →
  let s1 := on_exit file code s in
  (currentProcess s1 = None ∧ fileWatchers s1 = []
   ∧ closed s1 = closed s ++ (wid <$> fileWatchers s)
   ∧ spawned s1 = spawned s)
  ∧ (∀ time, (time < now s + 5000)%Z →
             spawned (advance connected time s1) = spawned s
             ∧ currentProcess (advance connected time s1) = None)
  ∧ (∀ time, (now s + 5000 ≤ time)%Z →
             let s2 := advance connected time s1 in
             spawned s2 = spawned s ++ [S (next_id s)]
             ∧ currentProcess s2 = Some (S (next_id s))
             ∧ isRestarting s2 = false
             ∧ fileWatchers s2 = []
             ∧ killed s2 = killed s
             ∧ timers s2 = []).
Proof.
  intros Hcode Hr Hsd Ht. unfold on_exit. rewrite Hsd.
  rewrite decide_False by done. cbv zeta. rewrite cleanupFileWatchers_shape.
  destruct s as [? ? ws ? ? ? clock ? ? o]. simpl in *. subst.
  rewrite bool_decide_true by done.
  unfold advance, killed, spawned, closed. simpl.
  split_and!.
  - done.
  - done.
  - read_out.
  - read_out.
  - intros time Htime. rewrite decide_False by lia. simpl. split; read_out.
  - intros time Htime. rewrite decide_True by lia. simpl. split_and!; read_out.
Qed.

(** *** Shutting down *)

Lemma nothing_more_refl s : shut s → nothing_more s s.
Proof. by intros Hs. Qed.

Lemma nothing_more_trans s1 s2 s3 :
  nothing_more s1 s2 → nothing_more s2 s3 → nothing_more s1 s3.
Proof.
  intros (_ & Hsp & Hse & Hd) (Hs & Hsp' & Hse' & Hd').
  split_and!; [done|congruence..].
Qed.

Lemma startApp_shut file s : shut s → nothing_more s (startApp file s).
Proof.
  intros [Hsd Hp]. destruct s as [? cur ? restarting ? ? ? ? ? o].
  simpl in *. subst.
  unfold nothing_more, shut, startApp, startAppProcess, pending_debounce,
    spawned, sent, debounced_runs in *.
  destruct restarting, cur; simpl; split_and!; read_out.
Qed.

Lemma setupFileWatchers_shut proc mainFile s :
  shut s → nothing_more s (setupFileWatchers proc mainFile s).
Proof.
  intros [Hsd Hp]. unfold setupFileWatchers. cbv zeta.
  rewrite cleanupFileWatchers_shape.
  destruct s as [? ? ? ? ? ? ? ? ? o]. simpl in *. subst.
  unfold nothing_more, shut, pending_debounce, spawned, sent, debounced_runs in *.
  simpl. split_and!; read_out.
Qed.

Lemma log_shut lv msg s : shut s → nothing_more s (log lv msg s).
Proof.
  intros [Hsd Hp].
  unfold nothing_more, shut, pending_debounce, spawned, sent, debounced_runs in *.
  simpl. split_and!; read_out.
Qed.

Lemma run_callback_shut connected cb s :
  is_debounced cb = false → shut s →
  nothing_more s (run_callback connected cb (emit (Ran cb) s)).
Proof.
  intros Hcb [Hsd Hp]. destruct s as [? cur ? restarting ? ? ? ? ? o].
  simpl in *. subst.
  unfold nothing_more, shut, startApp, startAppProcess, pending_debounce,
    spawned, sent, debounced_runs in *.
  destruct cb as [file|file|]; [| |done]; simpl.
  - split_and!; read_out.
  - destruct restarting, cur; simpl; split_and!; read_out.
Qed.

Lemma pending_debounce_delete (i : nat) timer (queue : list Timer) :
  queue !! i = Some timer → is_debounced (callback timer) = false →
  filter (fun timer => is_debounced (callback timer) = true) (delete i queue)
  = filter (fun timer => is_debounced (callback timer) = true) queue.
Proof.
  intros Hi Hcb. apply (filter_delete_False _ _ _ _ Hi). by rewrite Hcb.
Qed.

Lemma pending_none timer s :
  pending_debounce s = [] → timer ∈ timers s →
  is_debounced (callback timer) = false.
Proof.
  intros Hp Hin. destruct (is_debounced (callback timer)) eqn:Hcb; [|done].
  assert (Hin' : timer ∈ pending_debounce s)
    by by apply list_elem_of_filter.
  rewrite Hp in Hin'. by apply elem_of_nil in Hin'.
Qed.

Lemma fire_shut connected i timer s :
  timers s !! i = Some timer → shut s →
  nothing_more s (fire connected i timer s).
Proof.
  intros Hi Hs.
  assert (Hcb : is_debounced (callback timer) = false).
  { eapply pending_none; [apply Hs|]. by eapply list_elem_of_lookup_2. }
  unfold fire. cbv zeta.
  eapply nothing_more_trans; [|apply run_callback_shut; [done|]].
  - destruct Hs as [Hsd Hp]. split_and!; try done.
    split; [done|]. unfold pending_debounce in *. simpl.
    by rewrite (pending_debounce_delete _ _ _ Hi Hcb).
  - destruct Hs as [Hsd Hp]. split; [done|]. unfold pending_debounce in *.
    simpl. by rewrite (pending_debounce_delete _ _ _ Hi Hcb).
Qed.

Lemma run_timers_shut connected time fuel : ∀ s,
  shut s → nothing_more s (run_timers fuel connected time s).
Proof.
  induction fuel as [|fuel IH]; intros s Hs; simpl; [done|].
  destruct (earliest time (timers s)) as [[i timer]|] eqn:He; [|done].
  apply earliest_Some in He as [Hi _].
  pose proof (fire_shut connected i timer s Hi Hs) as Hfire.
  eapply nothing_more_trans; [exact Hfire|]. apply IH, Hfire.
Qed.

Lemma react_shut connected input s :
  shut s → nothing_more s (react connected s input).
Proof.
  intros Hs. destruct input as [proc file data|file code|file err|err|
    proc mainFile et filename|time|]; simpl.
  - unfold on_message. cbv zeta.
    pose proof (log_shut INFO ("[RECEIVED] " +:+ data) s Hs) as H1.
    repeat case_decide.
    + eapply nothing_more_trans; [exact H1|].
      eapply nothing_more_trans; [apply log_shut, H1|].
      apply startApp_shut. eapply log_shut, H1.
    + eapply nothing_more_trans; [exact H1|].
      eapply nothing_more_trans; [apply log_shut, H1|].
      apply setupFileWatchers_shut. eapply log_shut, H1.
    + done.
  - unfold on_exit. destruct Hs as [Hsd Hp]. rewrite Hsd. by apply log_shut.
  - destruct Hs as [Hsd Hp]. destruct s as [? ? ? ? ? ? ? ? ? o].
    simpl in *. subst.
    unfold nothing_more, shut, on_killed, pending_debounce, spawned, sent,
      debounced_runs in *.
    simpl in Hp. destruct err; simpl; rewrite filter_app, Hp; split_and!; read_out.
  - destruct Hs as [Hsd Hp].
    unfold nothing_more, shut, on_error, pending_debounce, spawned, sent,
      debounced_runs in *.
    simpl. split_and!; read_out.
  - unfold on_change. destruct Hs as [Hsd Hp]. rewrite Hsd.
    destruct filename; [case_decide|]; done.
  - unfold advance. cbv zeta.
    pose proof (run_timers_shut connected time (length (timers s)) s Hs)
      as (Hs' & Hsp & Hse & Hd).
    split_and!; done.
  - unfold gracefulShutdown. destruct Hs as [Hsd Hp]. by rewrite Hsd.
Qed.

(** X21.  Once the monitor is shutting down and no debounced callback
    waits, whatever comes in afterwards (messages, exits and errors of
    children, callbacks of [treeKill], file changes, timers running, more
    signals), no worker is spawned, nothing is sent to a worker and no
    debounced callback runs, and the monitor stays in that condition. *)
Theorem shutdown_is_final (connected : nat → bool) (inputs : list Input) (s : t) :
  shut s → nothing_more s (run connected inputs s).
Proof.
  revert s. induction inputs as [|input inputs IH]; intros s Hs; [done|].
  simpl. pose proof (react_shut connected input s Hs) as Hreact.
  eapply nothing_more_trans; [exact Hreact|]. apply IH, Hreact.
Qed.

Lemma cleared_debounce (s : t) :
  (∀ timer, timer ∈ pending_debounce s → debounceTimer s = Some (tid timer)) →
  filter (fun timer => is_debounced (callback timer) = true)
         (match debounceTimer s with
          | Some handle => filter (fun timer => tid timer ≠ handle) (timers s)
          | None => timers s
          end) = [].
Proof.
  intros Htracked. apply filter_Forall_nil, Forall_forall. intros timer Hin Hcb.
  destruct (debounceTimer s) as [handle|] eqn:Hd.
  - apply list_elem_of_filter in Hin as [Hne Hin].
    assert (Some handle = Some (tid timer)) as [= ->]; [|done].
    apply Htracked. by apply list_elem_of_filter.
  - assert (None = Some (tid timer)); [|done].
    apply Htracked. by apply list_elem_of_filter.
Qed.

(** X22.  [gracefulShutdown], called while no shutdown is under way and
    the debounce timer, if one waits, is the one [debounceTimer] refers
    to: the monitor is shutting down, no debounced callback waits any
    more, every watcher is closed, nothing is spawned or sent; with a
    child the monitor goes on to terminate it, the forced exit being due
    5000 ms later, and without one it exits with code 0.  A second call
    does nothing. *)
Theorem gracefulShutdown_effect (s : t) :
  isShuttingDown s = false →
  (∀ timer, timer ∈ pending_debounce s → debounceTimer s = Some (tid timer)) →
  let s' := fst (gracefulShutdown s) in
  shut s' ∧ debounceTimer s' = None ∧ fileWatchers s' = []
  ∧ closed s' = closed s ++ (wid <$> fileWatchers s)
  ∧ spawned s' = spawned s ∧ sent s' = sent s ∧ killed s' = killed s
  ∧ snd (gracefulShutdown s)
    = match currentProcess s with
      | Some pid => TerminatingChild pid (now s + 5000)
      | None => Exit 0
      end
  ∧ gracefulShutdown s' = (s', AlreadyShuttingDown).
Proof.
  intros Hsd Htracked. pose proof (cleared_debounce s Htracked) as Hclear.
  unfold gracefulShutdown at 1 2. rewrite Hsd. cbv zeta.
  rewrite cleanupFileWatchers_shape.
  destruct s as [? cur ws ? handle ? ? queue ? o]. simpl in *. subst.
  assert (Hcases :
    ∀ s', isShuttingDown s' = true → gracefulShutdown s' = (s', AlreadyShuttingDown)).
  { intros s' Hs'. unfold gracefulShutdown. by rewrite Hs'. }
  unfold shut, pending_debounce, closed, spawned, sent, killed.
  destruct handle as [handle|], cur as [pid|]; simpl;
    (split_and!; [done|exact Hclear|done|done|read_out..| |];
     [done|by apply Hcases]).
Qed.

(** *** At most one debounced callback waits *)

Lemma orderly_frame s s' :
  orderly s → debounceTimer s' = debounceTimer s →
  timers s' `sublist_of` timers s → next_id s ≤ next_id s' → orderly s'.
Proof.
  intros (Htracked & Hdup & Hlt) Hd Hsub Hn. split_and!.
  - intros timer [Hcb Hin]%list_elem_of_filter. rewrite Hd. apply Htracked.
    apply list_elem_of_filter. split; [done|]. by eapply elem_of_sublist.
  - eapply sublist_NoDup; [exact Hdup|]. by apply fmap_sublist.
  - apply Forall_forall. intros timer Hin.
    rewrite Forall_forall in Hlt. specialize (Hlt timer).
    assert (tid timer < next_id s); [|lia]. apply Hlt. by eapply elem_of_sublist.
Qed.

Lemma orderly_setTimeout s s' timer :
  orderly s → timers s' `sublist_of` timers s ++ [timer] →
  tid timer = next_id s → next_id s < next_id s' →
  (if is_debounced (callback timer)
   then debounceTimer s' = Some (tid timer)
        ∧ ∀ other, other ∈ pending_debounce s → other ∉ timers s'
   else debounceTimer s' = debounceTimer s) →
  orderly s'.
Proof.
  intros (Htracked & Hdup & Hlt) Hsub Htid Hn Hd.
  rewrite Forall_forall in Hlt. split_and!.
  - intros other [Hcb Hin]%list_elem_of_filter.
    pose proof (elem_of_sublist _ _ _ Hin Hsub) as Hin'.
    apply elem_of_app in Hin' as [Hin'| ->%list_elem_of_singleton].
    + destruct (is_debounced (callback timer)).
      * destruct Hd as [_ Hgone]. destruct (Hgone other); [|done].
        by apply list_elem_of_filter.
      * rewrite Hd. apply Htracked. by apply list_elem_of_filter.
    + rewrite Hcb in Hd. apply Hd.
  - eapply sublist_NoDup; [|apply fmap_sublist, Hsub].
    rewrite fmap_app. apply NoDup_app. split_and!; [done| |apply NoDup_singleton].
    intros x (other & -> & Hin)%list_elem_of_fmap Heq%list_elem_of_singleton.
    specialize (Hlt other Hin). lia.
  - apply Forall_forall. intros other Hin.
    pose proof (elem_of_sublist _ _ _ Hin Hsub) as Hin'.
    apply elem_of_app in Hin' as [Hin'| ->%list_elem_of_singleton]; [|lia].
    specialize (Hlt other Hin'). lia.
Qed.

Lemma startApp_frame file s :
  let s' := startApp file s in
  timers s' = timers s ∧ debounceTimer s' = debounceTimer s
  ∧ next_id s ≤ next_id s'.
Proof.
  destruct s as [? cur ? restarting ? shutting ? ? ? o].
  unfold startApp, startAppProcess. simpl.
  destruct restarting, cur, shutting; simpl; split_and!; (done || lia).
Qed.

Lemma run_callback_frame connected cb s :
  let s' := run_callback connected cb s in
  timers s' = timers s ∧ debounceTimer s' = debounceTimer s
  ∧ next_id s ≤ next_id s'.
Proof.
  destruct cb as [file|file|proc mainFile filename]; simpl.
  - destruct s as [? cur ? restarting ? shutting ? ? ? o].
    unfold startAppProcess. simpl.
    destruct shutting; simpl; split_and!; (done || lia).
  - apply startApp_frame.
  - destruct (is_plugin_file filename); [|destruct (is_core_file mainFile filename)].
    + destruct (connected proc); simpl; split_and!; (done || lia).
    + pose proof (startApp_frame mainFile
        (log WARN ("Core file change detected in " +:+ filename
                   +:+ ", restarting application...") s)) as H.
      exact H.
    + destruct (connected proc); simpl; split_and!; (done || lia).
Qed.

Lemma orderly_fire connected i timer s :
  orderly s → orderly (fire connected i timer s).
Proof.
  intros Hs. unfold fire. cbv zeta.
  match goal with |- orderly (run_callback _ _ ?s0) =>
    destruct (run_callback_frame connected (callback timer) s0) as (Ht & Hd & Hn)
  end.
  eapply orderly_frame; [exact Hs|by rewrite Hd|rewrite Ht|].
  - simpl. apply sublist_delete.
  - simpl in Hn. exact Hn.
Qed.

Lemma orderly_run_timers connected time fuel : ∀ s,
  orderly s → orderly (run_timers fuel connected time s).
Proof.
  induction fuel as [|fuel IH]; intros s Hs; simpl; [done|].
  destruct (earliest time (timers s)) as [[i timer]|]; [|done].
  by apply IH, orderly_fire.
Qed.

Lemma orderly_react connected input s :
  orderly s → orderly (react connected s input).
Proof.
  intros Hs. destruct input as [proc file data|file code|file err|err|
    proc mainFile et filename|time|]; simpl.
  - unfold on_message. cbv zeta. repeat case_decide.
    + match goal with |- orderly (startApp _ ?s0) =>
        destruct (startApp_frame file s0) as (Ht & Hd & Hn)
      end.
      eapply orderly_frame; [exact Hs|by rewrite Hd|by rewrite Ht|exact Hn].
    + unfold setupFileWatchers. cbv zeta. rewrite cleanupFileWatchers_shape.
      eapply orderly_frame; [exact Hs|done|done|simpl; lia].
    + eapply orderly_frame; [exact Hs|done|done|simpl; lia].
  - unfold on_exit. destruct (isShuttingDown s) eqn:Hsd.
    { eapply orderly_frame; [exact Hs|done|done|simpl; lia]. }
    cbv zeta. rewrite cleanupFileWatchers_shape.
    match goal with |- orderly (if ?b then _ else _) => destruct b end.
    + eapply (orderly_setTimeout s _
                {| tid := next_id s; due := now s + 5000;
                   callback := RestartAfterExit file |});
        [exact Hs| |done| |].
      * by case_decide.
      * case_decide; simpl; lia.
      * simpl. by case_decide.
    + eapply orderly_frame; [exact Hs| | |]; case_decide; simpl; (done || lia).
  - unfold on_killed. cbv zeta.
    eapply (orderly_setTimeout s _
              {| tid := next_id s; due := now s + 1000;
                 callback := RestartAfterKill file |});
      [exact Hs| |done| |]; destruct err; simpl; (done || lia).
  - eapply orderly_frame; [exact Hs|done|done|simpl; lia].
  - unfold on_change. destruct filename as [filename|]; [|done].
    case_decide; [done|]. destruct (isShuttingDown s); [done|].
    destruct (negb (is_code_file filename)); [done|]. cbv zeta.
    eapply (orderly_setTimeout s _
              {| tid := next_id s; due := now s + DEBOUNCE_TIME;
                 callback := Debounced proc mainFile filename |});
      [exact Hs| |done| |].
    + simpl. destruct (debounceTimer s); simpl; [|done].
      apply sublist_app; [apply sublist_filter|done].
    + simpl. destruct (debounceTimer s); simpl; lia.
    + simpl. split; [by destruct (debounceTimer s)|].
      intros other Hother Hin. destruct Hs as (Htracked & _ & Hlt).
      pose proof (Htracked other Hother) as Hd. rewrite Hd in Hin. simpl in Hin.
      apply elem_of_app in Hin as [Hin|Hin%list_elem_of_singleton].
      * by apply list_elem_of_filter in Hin as [Hne _].
      * apply list_elem_of_filter in Hother as [_ Hother].
        rewrite Forall_forall in Hlt. specialize (Hlt other Hother).
        subst other. simpl in Hlt. lia.
  - unfold advance. cbv zeta.
    eapply orderly_frame;
      [apply (orderly_run_timers connected time (length (timers s)) s Hs)
      |done|done|done].
  - unfold gracefulShutdown. destruct (isShuttingDown s) eqn:Hsd; [done|].
    cbv zeta. rewrite cleanupFileWatchers_shape.
    pose proof (cleared_debounce s (proj1 Hs)) as Hclear.
    destruct Hs as (Htracked & Hdup & Hlt).
    assert (Hgoal : ∀ s', timers s'
        = match debounceTimer s with
          | Some handle => filter (fun timer => tid timer ≠ handle) (timers s)
          | None => timers s
          end → next_id s' = next_id s → orderly s').
    { intros s' Ht Hn. split_and!.
      - unfold pending_debounce. rewrite Ht, Hclear. by intros ? ?%elem_of_nil.
      - rewrite Ht. eapply sublist_NoDup; [exact Hdup|]. apply fmap_sublist.
        destruct (debounceTimer s); [apply sublist_filter|done].
      - rewrite Ht, Hn. destruct (debounceTimer s); [|done].
        rewrite Forall_forall in Hlt. apply Forall_forall.
        intros timer [_ Hin]%list_elem_of_filter. by apply Hlt. }
    simpl. destruct (debounceTimer s); simpl;
      destruct (currentProcess s); simpl; by apply Hgoal.
Qed.

Lemma orderly_one_pending s : orderly s → length (pending_debounce s) ≤ 1.
Proof.
  intros (Htracked & Hdup & _).
  assert (Hsub : tid <$> pending_debounce s `sublist_of` tid <$> timers s)
    by apply fmap_sublist, sublist_filter.
  pose proof (sublist_NoDup _ _ Hdup Hsub) as Hdup'.
  destruct (pending_debounce s) as [|a [|b rest]]; simpl; [lia..|].
  assert (Ha : Some (tid a) = Some (tid b)).
  { rewrite <- (Htracked a), <- (Htracked b); [done|set_solver..]. }
  injection Ha as Ha. simpl in Hdup'. rewrite Ha in Hdup'.
  apply NoDup_cons in Hdup' as [Hnot _]. destruct Hnot. by left.
Qed.

(** X23.  The debounce keeps its order through everything the monitor
    reacts to: every debounced callback that waits is the one that
    [debounceTimer] refers to, and so at most one waits at any time, also
    across watchers and restarts. *)
Theorem debounce_orderly (connected : nat → bool) (inputs : list Input) (s : t) :
  orderly s →
  orderly (run connected inputs s)
  ∧ length (pending_debounce (run connected inputs s)) ≤ 1.
Proof.
  intros Hs. assert (Hrun : orderly (run connected inputs s)).
  { revert s Hs. induction inputs as [|input inputs IH]; intros s Hs; [done|].
    simpl. by apply IH, orderly_react. }
  split; [done|]. by apply orderly_one_pending.
Qed.

End SupervisorMore.

Section SupervisorMoreExamples.
#[local] Existing Instance posixLib.

Lemma startApp_restart_cycle_witness :
  (isRestarting watching = false ∧ isShuttingDown watching = false
   ∧ currentProcess watching = Some 100 ∧ timers watching = [])
  ∧ spawned (advance (fun _ => true) 1000
               (on_killed entry None (startApp entry watching)))
    = [100; 103].
Proof.
  assert (H1 : isRestarting watching = false) by reflexivity.
  assert (H2 : isShuttingDown watching = false) by reflexivity.
  assert (H3 : currentProcess watching = Some 100) by reflexivity.
  assert (H4 : timers watching = []) by reflexivity.
  split; [done|].
  destruct (startApp_restart_cycle (fun _ => true) entry None 100 watching
              H1 H2 H3 H4) as (_ & _ & _ & _ & Hlater).
  assert (Htime : (now watching + 1000 ≤ 1000)%Z) by (by vm_compute).
  exact (proj1 (Hlater 1000%Z Htime)).
Defined.

Lemma on_exit_crash_recovery_witness :
  (Some 1%Z ≠ Some 0%Z ∧ isRestarting watching = false
   ∧ isShuttingDown watching = false ∧ timers watching = [])
  ∧ spawned (advance (fun _ => true) 4999 (on_exit entry (Some 1%Z) watching))
    = [100]
  ∧ spawned (advance (fun _ => true) 5000 (on_exit entry (Some 1%Z) watching))
    = [100; 103].
Proof.
  assert (H1 : Some 1%Z ≠ Some 0%Z) by discriminate.
  assert (H2 : isRestarting watching = false) by reflexivity.
  assert (H3 : isShuttingDown watching = false) by reflexivity.
  assert (H4 : timers watching = []) by reflexivity.
  split; [done|].
  destruct (on_exit_crash_recovery (fun _ => true) entry (Some 1%Z) watching
              H1 H2 H3 H4) as (_ & Hbefore & Hlater).
  assert (Hearly : (4999 < now watching + 5000)%Z) by (by vm_compute).
  assert (Htime : (now watching + 5000 ≤ 5000)%Z) by (by vm_compute).
  split; [exact (proj1 (Hbefore 4999%Z Hearly))|].
  exact (proj1 (Hlater 5000%Z Htime)).
Defined.

Lemma gracefulShutdown_effect_witness :
  let s := on_change 100 entry "change" (Some "plugins/utility/ping.ts") watching in
  (isShuttingDown s = false
   ∧ ∀ timer, timer ∈ pending_debounce s → debounceTimer s = Some (tid timer))
  ∧ length (pending_debounce s) = 1
  ∧ shut (fst (gracefulShutdown s))
  ∧ snd (gracefulShutdown s) = TerminatingChild 100 5000.
Proof.
  intros s.
  assert (H1 : isShuttingDown s = false) by reflexivity.
  assert (Hp : pending_debounce s
               = [ {| tid := 102; due := 500;
                      callback := Debounced 100 entry "plugins/utility/ping.ts" |} ])
    by reflexivity.
  assert (H2 : ∀ timer, timer ∈ pending_debounce s →
                        debounceTimer s = Some (tid timer)).
  { intros timer Hin. rewrite Hp in Hin.
    apply list_elem_of_singleton in Hin as ->. reflexivity. }
  split; [done|]. split; [by rewrite Hp|].
  destruct (gracefulShutdown_effect s H1 H2)
    as (Hshut & _ & _ & _ & _ & _ & _ & Hstep & _).
  split; [exact Hshut|exact Hstep].
Defined.

Lemma shutdown_is_final_witness :
  let s := fst (gracefulShutdown
                  (on_change 100 entry "change" (Some "plugins/utility/ping.ts")
                     watching)) in
  let inputs := [ Message 100 entry "restart"; Killed entry None; Elapsed 9000;
                  Changed 100 entry "change" (Some "index.ts"); Elapsed 20000;
                  Exited entry (Some 1%Z); Elapsed 30000 ] in
  shut s
  ∧ spawned (run (fun _ => true) inputs s) = [100]
  ∧ sent (run (fun _ => true) inputs s) = [].
Proof.
  intros s inputs.
  assert (H1 : shut s) by (split; reflexivity).
  split; [done|].
  destruct (shutdown_is_final (fun _ => true) inputs s H1)
    as (_ & Hspawned & Hsent & _).
  split; [exact Hspawned|exact Hsent].
Defined.

Lemma debounce_orderly_witness :
  let inputs := [ Changed 100 entry "change" (Some "plugins/utility/ping.ts");
                  Elapsed 100;
                  Changed 100 entry "change" (Some "index.ts");
                  Message 100 entry "ready";
                  Changed 100 entry "rename" (Some "lib/logger.ts") ] in
  orderly watching
  ∧ length (pending_debounce (run (fun _ => true) inputs watching)) ≤ 1.
Proof.
  intros inputs.
  assert (H1 : orderly watching).
  { split_and!.
    - intros timer Hin. by apply elem_of_nil in Hin.
    - apply NoDup_nil_2.
    - apply Forall_nil_2. }
  split; [done|].
  exact (proj2 (debounce_orderly (fun _ => true) inputs watching H1)).
Defined.

End SupervisorMoreExamples.

(** ** The worker and the monitor *)

Section WorkerFatal.
Import Monitor.
Import MonitorViews.
Import Worker.
Context {node : NodeLib}.

Ltac read_views :=
  rewrite ?omap_app; simpl;
  rewrite ?cleanup_actions_closed, ?cleanup_actions_none by done;
  rewrite ?app_nil_r; try done.

Lemma on_exit_abnormal file code s :
  code ≠ Some 0%Z → isShuttingDown s = false →
  on_exit file code s
  = let s2 := emits (cleanup_actions (fileWatchers s))
                (set_fileWatchers []
                   (set_currentProcess None
                      (log ERROR ("Bot exited with code: " +:+ show_code code
                                  +:+ " (abnormal shutdown)") s))) in
    if isRestarting s then s2
    else fst (setTimeout (RestartAfterExit file) 5000
                (log WARN "Error detected, restarting in 5 seconds..." s2)).
Proof.
  intros Hcode Hsd. unfold on_exit. rewrite Hsd.
  rewrite decide_False by done. rewrite bool_decide_true by done. cbv zeta.
  rewrite cleanupFileWatchers_shape. simpl. rewrite Hsd.
  by destruct (isRestarting s).
Qed.

Ltac norm_state :=
  cbv [set_currentProcess set_fileWatchers set_isRestarting set_debounceTimer
       set_now set_timers set_next_id emit log emits setTimeout fst
       cwd currentProcess fileWatchers isRestarting debounceTimer
       isShuttingDown now timers next_id out].

(** Each handler is computed on the state that the one before left. *)
Ltac stage_restart :=
  match goal with |- context [on_message ?a ?b "restart" ?S] =>
    let E := fresh in
    eassert (E : on_message a b "restart" S = _);
    [unfold on_message; rewrite decide_True by done;
     unfold startApp, startAppProcess; simpl; norm_state; reflexivity
    |rewrite E; clear E] end.

Ltac stage_exit :=
  match goal with |- context [on_exit ?a ?b ?S] =>
    let E := fresh in
    eassert (E : on_exit a b S = _);
    [rewrite on_exit_abnormal; [|done|reflexivity]; simpl; norm_state; reflexivity
    |rewrite E; clear E] end.

Ltac stage_killed :=
  match goal with |- context [on_killed ?a ?b ?S] =>
    let E := fresh in
    eassert (E : on_killed a b S = _);
    [unfold on_killed; simpl; norm_state; reflexivity|rewrite E; clear E] end.

Ltac stage_advance :=
  match goal with |- context [advance ?a ?b ?S] =>
    let E := fresh in
    eassert (E : advance a b S = _);
    [unfold advance; simpl; rewrite decide_True by lia;
     unfold fire, run_callback, startApp, startAppProcess; simpl; norm_state;
     reflexivity
    |rewrite E; clear E] end.

Lemma restart_then_exit connected file code err pid s time :
  code ≠ Some 0%Z →
  isRestarting s = false → isShuttingDown s = false →
  currentProcess s = Some pid → timers s = [] →
  (now s + 1000 ≤ time)%Z →
  let s' := advance connected time
              (on_killed file err
                 (on_exit file code (on_message pid file "restart" s))) in
  spawned s' = spawned s ++ [S (next_id s)]
  ∧ killed s' = killed s ++ [pid]
  ∧ currentProcess s' = Some (S (next_id s))
  ∧ isRestarting s' = false ∧ timers s' = [].
Proof.
  intros Hcode Hr Hsd Hp Ht Htime.
  destruct s as [? ? ws ? ? ? clock ? ? o]. simpl in Hr, Hsd, Hp, Ht, Htime. subst.
  cbn [now next_id]. cbv zeta. stage_restart. stage_exit.
  destruct err; stage_killed; stage_advance; unfold killed, spawned; simpl;
    split_and!; read_views.
Qed.

Lemma exit_then_restart connected file code pid s time :
  code ≠ Some 0%Z →
  isRestarting s = false → isShuttingDown s = false →
  currentProcess s = Some pid → timers s = [] →
  let s1 := on_message pid file "restart" (on_exit file code s) in
  spawned s1 = spawned s ++ [S (next_id s)]
  ∧ currentProcess s1 = Some (S (next_id s))
  ∧ timers s1 = [ {| tid := next_id s; due := now s + 5000;
                     callback := RestartAfterExit file |} ]
  ∧ ((now s + 5000 ≤ time)%Z →
     let s2 := advance connected time s1 in
     killed s2 = killed s ++ [S (next_id s)]
     ∧ spawned s2 = spawned s1
     ∧ isRestarting s2 = true).
Proof.
  intros Hcode Hr Hsd Hp Ht.
  destruct s as [? ? ws ? ? ? clock ? ? o]. simpl in Hr, Hsd, Hp, Ht. subst.
  cbn [now next_id]. cbv zeta. stage_exit. stage_restart.
  split_and!; [unfold spawned; simpl; read_views|done|done|].
  intros Htime. stage_advance. unfold killed, spawned. simpl.
  split_and!; read_views.
Qed.

(** X24.  A fatal error of the worker and the monitor.  The worker, run
    by the monitor, reports the error, asks the monitor to restart it and
    exits with code 1.  If the monitor gets the request before the exit,
    it kills the worker, sets no timer at the exit, and spawns one new
    worker 1000 ms after the callback of the kill.  If it gets the exit
    first, it sets the timer of 5000 ms and then, at the request, spawns
    the new worker at once; the timer still waits, and when it runs the
    monitor kills the new worker to restart once more. *)
Theorem fatal_error_restart (connected : nat → bool) (file : string)
    (err : option string) (reason : string) (pid : nat) (s : t) (time : Z) :
  isRestarting s = false → isShuttingDown s = false →
  currentProcess s = Some pid → timers s = [] →
  let inputs := flat_map (reports pid file) (on_unhandledRejection true reason) in
  inputs = [Message pid file "restart"; Exited file (Some 1%Z)]
  ∧ ((now s + 1000 ≤ time)%Z →
     let s' := run connected (inputs ++ [Killed file err; Elapsed time]) s in
     spawned s' = spawned s ++ [S (next_id s)]
     ∧ killed s' = killed s ++ [pid]
     ∧ currentProcess s' = Some (S (next_id s))
     ∧ isRestarting s' = false ∧ timers s' = [])
  ∧ (let s1 := run connected (reverse inputs) s in
     spawned s1 = spawned s ++ [S (next_id s)]
     ∧ currentProcess s1 = Some (S (next_id s))
     ∧ timers s1 = [ {| tid := next_id s; due := now s + 5000;
                        callback := RestartAfterExit file |} ]
     ∧ ((now s + 5000 ≤ time)%Z →
        let s2 := run connected [Elapsed time] s1 in
        killed s2 = killed s ++ [S (next_id s)]
        ∧ spawned s2 = spawned s1
        ∧ isRestarting s2 = true)).
Proof.
  intros Hr Hsd Hp Ht. split; [done|].
  assert (Hcode : Some 1%Z ≠ Some 0%Z) by done.
  split.
  - intros Htime.
    apply (restart_then_exit connected file (Some 1%Z) err pid s time); done.
  - apply (exit_then_restart connected file (Some 1%Z) pid s time); done.
Qed.

End WorkerFatal.

Section WorkerFatalExamples.
Import Monitor.
Import MonitorViews.
Import Worker.
#[local] Existing Instance posixLib.

Lemma fatal_error_restart_witness :
  let connected := fun _ : nat => true in
  let inputs := flat_map (reports 100 entry)
                  (on_unhandledRejection true "Error: closed") in
  (isRestarting watching = false ∧ isShuttingDown watching = false
   ∧ currentProcess watching = Some 100 ∧ timers watching = [])
  ∧ (now watching + 1000 ≤ 1000)%Z
  ∧ spawned (run connected (inputs ++ [Killed entry None; Elapsed 1000]) watching)
    = spawned watching ++ [S (next_id watching)]
  ∧ spawned watching ++ [S (next_id watching)] = [100; 103].
Proof.
  intros connected inputs.
  assert (H1 : isRestarting watching = false) by reflexivity.
  assert (H2 : isShuttingDown watching = false) by reflexivity.
  assert (H3 : currentProcess watching = Some 100) by reflexivity.
  assert (H4 : timers watching = []) by reflexivity.
  assert (Ht : (now watching + 1000 ≤ 1000)%Z) by (by vm_compute).
  split; [done|]. split; [exact Ht|]. split; [|reflexivity].
  exact (proj1 (proj1 (proj2 (fatal_error_restart connected entry None
                                "Error: closed" 100 watching 1000 H1 H2 H3 H4))
                 Ht)).
Defined.

End WorkerFatalExamples.

(** ** The logger *)

Section LoggerQueue.
Import Logger.

Lemma loop_conserves s :
  (snd <$> ran (loop s)) ++ logQueue (loop s) = (snd <$> ran s) ++ logQueue s
  ∧ currentLogLevel (loop s) = currentLogLevel s.
Proof.
  unfold loop. destruct s as [[|logFn rest] ? ? ? ? ? ?]; simpl; [done|].
  destruct (logFn now0).2; simpl; rewrite fmap_app, <- app_assoc; done.
Qed.

Lemma react_conserves ev s :
  (snd <$> ran (react s ev)) ++ logQueue (react s ev)
  = (snd <$> ran s) ++ logQueue s ++ accepted (currentLogLevel s) [ev]
  ∧ currentLogLevel (react s ev)
    = match ev with
      | SetLevel level => default (currentLogLevel s) (LOG_LEVELS level)
      | _ => currentLogLevel s
      end.
Proof.
  destruct ev as [time level logFn|time|level]; simpl.
  - unfold queueLog. simpl. case_decide; [|by rewrite app_nil_r].
    unfold processLogQueue. simpl. destruct (isProcessingQueue s) eqn:Hp; [done|].
    match goal with |- context [loop ?s0] =>
      destruct (loop_conserves s0) as [Hc Hl] end.
    rewrite Hc, Hl. done.
  - rewrite app_nil_r. destruct (wake s) eqn:Hw; [|done].
    case_decide; [|done]. unfold on_wake. simpl. rewrite Hw.
    match goal with |- context [loop ?s0] =>
      destruct (loop_conserves s0) as [Hc Hl] end.
    rewrite Hc, Hl. done.
  - rewrite app_nil_r. unfold setLogLevel. by destruct (LOG_LEVELS level).
Qed.

Lemma accepted_cons threshold ev events :
  accepted threshold (ev :: events)
  = accepted threshold [ev]
    ++ accepted (match ev with
                 | SetLevel level => default threshold (LOG_LEVELS level)
                 | _ => threshold
                 end) events.
Proof. destruct ev; simpl; [by case_decide|done..]. Qed.

Lemma run_conserves events : ∀ s,
  (snd <$> ran (run events s)) ++ logQueue (run events s)
  = (snd <$> ran s) ++ logQueue s ++ accepted (currentLogLevel s) events.
Proof.
  unfold run.
  induction events as [|ev events IH]; intros s; [by rewrite !app_nil_r|].
  rewrite (accepted_cons _ ev events). cbn [foldl]. rewrite IH.
  destruct (react_conserves ev s) as [Hc Hl].
  rewrite (app_assoc _ (logQueue (react s ev))), Hc, Hl, <- !app_assoc. done.
Qed.

(** X25.  The logger loses, repeats and reorders nothing.  Through any
    calls of [queueLog], wake-ups and changes of the level, the closures
    that were called, followed by those that wait, are the ones called or
    waiting before, followed by the closures of the calls that passed the
    threshold in force at the time of the call, in the order of the
    calls.  A change of the level drops no message that waits. *)
Theorem Logger_in_order (events : list Logger.Event) (s : Logger.t) :
  let s' := run events s in
  (snd <$> ran s') ++ logQueue s'
  = (snd <$> ran s) ++ logQueue s ++ accepted (currentLogLevel s) events.
Proof. apply run_conserves. Qed.

Lemma loop_calm logFn rest s :
  logQueue s = logFn :: rest → never_throws logFn →
  loop s = set_wake (Some (now s + 5)%Z) (call logFn (set_logQueue rest s)).
Proof. intros Hq Hf. unfold loop. by rewrite Hq, Hf. Qed.

Lemma react_settled ev s :
  calm ev → settled s ∧ Forall never_throws (logQueue s) →
  settled (react s ev) ∧ Forall never_throws (logQueue (react s ev)).
Proof.
  intros Hev [Hs Hq]. unfold settled in *.
  destruct ev as [time level logFn|time|level]; simpl.
  - unfold queueLog. simpl. case_decide; [|done].
    unfold processLogQueue. simpl. destruct (isProcessingQueue s) eqn:Hp.
    + simpl. rewrite Hp. split; [done|]. apply Forall_app. split; [done|].
      by apply Forall_singleton.
    + destruct Hs as [Hs Hw]. rewrite Hs. simpl.
      rewrite (loop_calm logFn []) by done. simpl. split; [by eexists|done].
  - destruct (wake s) as [due|] eqn:Hw; [|rewrite Hw; by split].
    case_decide; [|rewrite Hw; by split].
    unfold on_wake. simpl. rewrite Hw.
    destruct (isProcessingQueue s) eqn:Hp; [|by destruct Hs].
    destruct (logQueue s) as [|logFn rest] eqn:Hqueue.
    + unfold loop. simpl. rewrite Hqueue. simpl. by rewrite Hqueue.
    + apply Forall_cons in Hq as [Hf Hrest].
      rewrite (loop_calm logFn rest) by done. simpl. rewrite Hp.
      split; [by eexists|done].
  - unfold setLogLevel. by destruct (LOG_LEVELS level).
Qed.

Lemma run_settled events : ∀ s,
  Forall calm events → settled s ∧ Forall never_throws (logQueue s) →
  settled (run events s) ∧ Forall never_throws (logQueue (run events s)).
Proof.
  induction events as [|ev events IH]; intros s Hevents Hs; [done|].
  apply Forall_cons in Hevents as [Hev Hevents]. simpl.
  by apply IH, react_settled.
Qed.

(** X26.  As long as no closure throws, the logger is never stuck: after
    any calls, wake-ups and changes of the level it is either processing
    with the timer of its [await] pending, or idle with an empty queue;
    and when it is idle, every message that passed the threshold has been
    printed. *)
Theorem Logger_never_stuck (events : list Logger.Event) (s : Logger.t) :
  settled s → Forall never_throws (logQueue s) → Forall calm events →
  let s' := run events s in
  settled s'
  ∧ (isProcessingQueue s' = false →
     snd <$> ran s'
     = (snd <$> ran s) ++ logQueue s ++ accepted (currentLogLevel s) events).
Proof.
  intros Hs Hq Hevents s'.
  destruct (run_settled events s Hevents (conj Hs Hq)) as [Hs' _].
  split; [done|]. intros Hidle. subst s'.
  rewrite <- run_conserves. unfold settled in Hs'. rewrite Hidle in Hs'.
  destruct Hs' as [-> _]. by rewrite app_nil_r.
Qed.

Lemma spaced_snoc times time :
  spaced times →
  match last times with Some prev => (prev + 5 ≤ time)%Z | None => True end →
  spaced (times ++ [time]).
Proof.
  induction times as [|t1 [|t2 times] IH]; simpl; intros Hs Hl; [done|done|].
  destruct Hs as [H12 Hs]. split; [done|]. apply IH; [done|].
  by destruct times.
Qed.

Lemma paced_call logFn rest s :
  logQueue s = logFn :: rest → wake s = None → paced s →
  paced (set_wake (Some (now s + 5)%Z) (call logFn (set_logQueue rest s))).
Proof.
  intros Hq Hw [Hsp Hlast]. unfold paced. simpl.
  rewrite fmap_app, last_snoc. simpl. split; [|split; [lia|done]].
  apply spaced_snoc; [done|]. rewrite fmap_last.
  destruct (last (ran s)) as [[time f]|]; simpl; [|done].
  rewrite Hw in Hlast. lia.
Qed.

Lemma react_paced ev s :
  calm ev → settled s → Forall never_throws (logQueue s) → paced s →
  paced (react s ev).
Proof.
  intros Hev Hsettled Hq Hs.
  assert (Hlater : ∀ time, paced (set_now (Z.max (now s) time) s)).
  { intros time. destruct Hs as [Hsp Hlast]. split; [done|]. simpl.
    destruct (last (ran s)) as [[t0 f]|]; [|done].
    destruct (wake s); [split; [lia|apply Hlast]|lia]. }
  destruct ev as [time level logFn|time|level]; simpl.
  - unfold queueLog. simpl. case_decide; [|done].
    unfold processLogQueue. simpl. destruct (isProcessingQueue s) eqn:Hp.
    { apply (Hlater time). }
    unfold settled in Hsettled. rewrite Hp in Hsettled.
    destruct Hsettled as [Hempty Hw]. rewrite Hempty. simpl.
    rewrite (loop_calm logFn []) by done.
    apply (paced_call logFn []
             (set_isProcessingQueue true
                (set_logQueue [logFn] (set_now (Z.max (now s) time) s))));
      [done|done|]. apply (Hlater time).
  - destruct (wake s) as [due|] eqn:Hw; [|done]. case_decide as Hdue; [|done].
    unfold on_wake. simpl. rewrite Hw.
    destruct (logQueue s) as [|logFn rest] eqn:Hqueue.
    + unfold loop. simpl. rewrite Hqueue.
      destruct Hs as [Hsp Hlast]. split; [done|]. simpl.
      destruct (last (ran s)) as [[t0 f]|]; [|done]. rewrite Hw in Hlast. lia.
    + apply Forall_cons in Hq as [Hf Hrest].
      rewrite (loop_calm logFn rest) by done.
      destruct Hs as [Hsp Hlast]. unfold paced. simpl.
      rewrite fmap_app, last_snoc. simpl. split; [|split; [lia|done]].
      apply spaced_snoc; [done|]. rewrite fmap_last.
      destruct (last (ran s)) as [[t0 f0]|]; simpl; [|done].
      rewrite Hw in Hlast. lia.
  - unfold setLogLevel. by destruct (LOG_LEVELS level).
Qed.

(** X27.  As long as no closure throws, the logger prints at most one
    message every 5 ms: through any calls, wake-ups and changes of the
    level, each closure is called 5 ms or more after the one before it,
    however fast the messages come. *)
Theorem Logger_paced (events : list Logger.Event) (s : Logger.t) :
  settled s → paced s → Forall never_throws (logQueue s) →
  Forall calm events →
  paced (run events s) ∧ spaced (fst <$> ran (run events s)).
Proof.
  intros Hsettled Hs Hq Hevents.
  assert (Hrun : paced (run events s)).
  { revert s Hsettled Hs Hq Hevents.
    induction events as [|ev events IH]; intros s Hsettled Hs Hq Hevents; [done|].
    apply Forall_cons in Hevents as [Hev Hevents]. simpl.
    destruct (react_settled ev s Hev (conj Hsettled Hq)) as [Hsettled' Hq'].
    apply IH; [done| |done..]. by apply react_paced. }
  split; [apply Hrun|apply Hrun].
Qed.

(** X28.  A closure that throws strands the messages behind it.  When
    the closure that the loop takes from the queue throws, the [finally]
    block ends the processing, the rejection is left unhandled, and the
    closures that wait stay in the queue with no timer pending: no
    wake-up prints them, only a later call of [queueLog] that passes the
    threshold starts the loop again. *)
Theorem Logger_throw_strands (s : Logger.t) (logFn : LogFn)
    (rest : list LogFn) (due time : Z) (e : string) (wakes : list Z) :
  logQueue s = logFn :: rest → wake s = Some due → (due ≤ time)%Z →
  snd (logFn (Z.max (now s) time)) = Rejected e →
  let s' := react s (Wake time) in
  isProcessingQueue s' = false ∧ wake s' = None ∧ logQueue s' = rest
  ∧ unhandled s' = unhandled s ++ [e]
  ∧ ran s' = ran s ++ [(Z.max (now s) time, logFn)]
  ∧ run (Wake <$> wakes) s' = s'.
Proof.
  intros Hq Hw Hdue Hthrow. simpl. rewrite Hw. rewrite decide_True by done.
  unfold on_wake, loop. simpl. rewrite Hw, Hq, Hthrow. simpl.
  split_and!; try done.
  unfold run. induction wakes as [|t0 wakes IH]; [done|]. simpl. exact IH.
Qed.

End LoggerQueue.

Section LoggerQueueExamples.
Import Logger.

Lemma Logger_never_stuck_witness :
  let events := [ Call 0 1 (plain Stdout "INFO" "a");
                  Call 1 1 (plain Stdout "INFO" "b");
                  Call 2 0 (plain Stdout "DEBUG" "c");
                  Wake 5; Wake 10; Wake 15 ] in
  (settled init ∧ Forall never_throws (logQueue init) ∧ Forall calm events)
  ∧ isProcessingQueue (run events init) = false
  ∧ snd <$> ran (run events init)
    = [plain Stdout "INFO" "a"; plain Stdout "INFO" "b"].
Proof.
  intros events.
  assert (H1 : settled init) by (by split).
  assert (H2 : Forall never_throws (logQueue init)) by constructor.
  assert (H3 : Forall calm events).
  { repeat (apply Forall_cons; split; [by try intros time|]). constructor. }
  split; [done|]. split; [reflexivity|].
  exact (proj2 (Logger_never_stuck events init H1 H2 H3) eq_refl).
Defined.

Lemma Logger_paced_witness :
  let events := [ Call 0 1 (plain Stdout "INFO" "a");
                  Call 1 1 (plain Stdout "INFO" "b");
                  Call 2 3 (plain Stdout "WARNING" "c");
                  Wake 5; Wake 12; Wake 17 ] in
  (settled init ∧ paced init ∧ Forall never_throws (logQueue init)
   ∧ Forall calm events)
  ∧ fst <$> ran (run events init) = [0; 5; 12]%Z
  ∧ spaced (fst <$> ran (run events init)).
Proof.
  intros events.
  assert (H1 : settled init) by (by split).
  assert (H2 : paced init) by (by split).
  assert (H3 : Forall never_throws (logQueue init)) by constructor.
  assert (H4 : Forall calm events).
  { repeat (apply Forall_cons; split; [by try intros time|]). constructor. }
  split; [done|]. split; [reflexivity|].
  exact (proj2 (Logger_paced events init H1 H2 H3 H4)).
Defined.

Lemma Logger_throw_strands_witness :
  let cyclic := error_fn "Unexpected error"
                  (Some (OtherValue (Rejected "TypeError: cyclic object value"))) in
  let s := run [ Call 0 1 (plain Stdout "INFO" "a"); Call 1 4 cyclic;
                 Call 2 1 (plain Stdout "INFO" "b") ] init in
  (logQueue s = [cyclic; plain Stdout "INFO" "b"] ∧ wake s = Some 5%Z
   ∧ (5 ≤ 5)%Z
   ∧ snd (cyclic (Z.max (now s) 5)) = Rejected "TypeError: cyclic object value")
  ∧ logQueue (react s (Wake 5)) = [plain Stdout "INFO" "b"]
  ∧ run (Wake <$> [10; 15; 20]%Z) (react s (Wake 5)) = react s (Wake 5).
Proof.
  intros cyclic s.
  assert (H1 : logQueue s = [cyclic; plain Stdout "INFO" "b"]) by reflexivity.
  assert (H2 : wake s = Some 5%Z) by reflexivity.
  assert (H3 : (5 ≤ 5)%Z) by lia.
  assert (H4 : snd (cyclic (Z.max (now s) 5))
               = Rejected "TypeError: cyclic object value") by reflexivity.
  split; [done|].
  destruct (Logger_throw_strands s cyclic [plain Stdout "INFO" "b"] 5 5
              "TypeError: cyclic object value" [10; 15; 20]%Z H1 H2 H3 H4)
    as (_ & _ & Hq & _ & _ & Hrun).
  split; [exact Hq|exact Hrun].
Defined.

End LoggerQueueExamples.
